(** * SAR: grid pathfinding and threat-aware navigation

    A shallow embedding of the planning core of [SAR.py]: the A* search
    ([Game.a_star]) with the binary heap of Python's [heapq] underneath it,
    the dynamic cost map, the threat scan of the ground mission, the escape
    and brave planners, the enemy behaviours and [Game.end_mission].

    Python values are modelled as the program has them: grid coordinates
    and tile codes are unbounded integers ([Z]); a cost is an integer or
    [float('inf')] ([num]); lists used as arrays are Coq lists read through
    [py_getitem], which raises [IndexError] as Python does; [dict] and [set]
    are [gmap] and [gset].  Code that can raise returns in [res]. *)

From Stdlib Require Import ZArith QArith Lia.
From stdpp Require Import gmap list strings.

#[local] Open Scope Z_scope.

(** ** Constants *)

Definition GRID_WIDTH_CELLS : Z := 25.
Definition GRID_HEIGHT_CELLS : Z := 20.

Definition TILE_TYPE_FREE : Z := 0.
Definition TILE_TYPE_OBSTACLE : Z := 1.
Definition TILE_TYPE_DIFFICULT : Z := 2.
Definition TILE_TYPE_HAZARD : Z := 3.
Definition TILE_TYPE_WATER : Z := 4.

(** A grid position [(x, y)]. *)
Abbreviation pos := (Z * Z)%type.

(** ** Outcomes of Python code *)

Inductive exn := IndexError | ValueError | AttributeError | TypeError.

(** [Ok a]: normal return; [Raise e]: an exception escapes; [OutOfFuel]:
    the model's loop bound was hit (shown below never to happen). *)
Inductive res (A : Type) : Type :=
  | Ok (a : A)
  | Raise (e : exn)
  | OutOfFuel.
Arguments Ok {A} a.
Arguments Raise {A} e.
Arguments OutOfFuel {A}.

#[global] Instance res_ret : MRet res := fun A a => Ok a.
#[global] Instance res_bind : MBind res := fun A B f m =>
  match m with
  | Ok a => f a
  | Raise e => Raise e
  | OutOfFuel => OutOfFuel
  end.

(** [for x in l: s = f(s, x)] with exceptions. *)
Fixpoint foldM {A S : Type} (f : S -> A -> res S) (s : S) (l : list A) : res S :=
  match l with
  | [] => Ok s
  | x :: l' => s' ← f s x; foldM f s' l'
  end.

(** [range(a, b)]. *)
Definition range (a b : Z) : list Z := seqZ a (b - a).

(** ** Numbers: an [int] or [float('inf')] *)

Inductive num := Fin (z : Z) | Inf.

#[global] Instance num_eq_dec : EqDecision num.
Proof. solve_decision. Defined.

Definition num_add (a b : num) : num :=
  match a, b with
  | Fin x, Fin y => Fin (x + y)
  | _, _ => Inf
  end.

Definition num_sub_int (a : num) (k : Z) : num :=
  match a with
  | Fin x => Fin (x - k)
  | Inf => Inf
  end.

Definition num_ltb (a b : num) : bool :=
  match a, b with
  | Fin x, Fin y => x <? y
  | Fin _, Inf => true
  | Inf, _ => false
  end.

Definition num_leb (a b : num) : bool :=
  match a, b with
  | Fin x, Fin y => x <=? y
  | _, Inf => true
  | Inf, Fin _ => false
  end.

Definition num_eqb (a b : num) : bool := bool_decide (a = b).

(** ** Lists as arrays *)

(** [l[i]]: a negative index counts from the end, an index out of range
    raises [IndexError]. *)
Definition py_index {A} (l : list A) (i : Z) : option nat :=
  let n := Z.of_nat (length l) in
  if (0 <=? i) && (i <? n) then Some (Z.to_nat i)
  else if (- n <=? i) && (i <? 0) then Some (Z.to_nat (i + n))
  else None.

Definition py_getitem {A} (l : list A) (i : Z) : res A :=
  match py_index l i with
  | Some k => match l !! k with Some a => Ok a | None => Raise IndexError end
  | None => Raise IndexError
  end.

(** [l[i] = a]. *)
Definition py_setitem {A} (l : list A) (i : Z) (a : A) : res (list A) :=
  match py_index l i with
  | Some k => Ok (<[k := a]> l)
  | None => Raise IndexError
  end.

(** A grid is a list of rows; [g[y][x]]. *)
Abbreviation grid := (list (list Z)).

Definition grid_get (g : grid) (x y : Z) : res Z :=
  row ← py_getitem g y; py_getitem row x.

(** [g[y][x] += v]. *)
Definition grid_add (g : grid) (x y v : Z) : res grid :=
  row ← py_getitem g y;
  old ← py_getitem row x;
  row' ← py_setitem row x (old + v);
  py_setitem g y row'.

Definition in_bounds (p : pos) : bool :=
  (0 <=? p.1) && (p.1 <? GRID_WIDTH_CELLS) &&
  (0 <=? p.2) && (p.2 <? GRID_HEIGHT_CELLS).

(** [t in tiles] for a list of tile codes. *)
Definition tile_in (t : Z) (tiles : list Z) : bool := bool_decide (t ∈ tiles).

Definition manhattan (p q : pos) : Z := Z.abs (p.1 - q.1) + Z.abs (p.2 - q.2).

(** ** Search nodes *)

(** [class Node]: [__init__] sets [g = h = f = 0] and nothing in the program
    assigns them afterwards, so a node is its position and its parent. *)
Inductive Node := mkNode (position : pos) (parent : option Node).

Definition position (n : Node) : pos := match n with mkNode p _ => p end.
Definition parent (n : Node) : option Node := match n with mkNode _ q => q end.
Definition Node_f (n : Node) : Z := 0.

(** [Node.__eq__] and [Node.__lt__]. *)
Definition Node_eqb (a b : Node) : bool := bool_decide (position a = position b).
Definition Node_ltb (a b : Node) : bool := Node_f a <? Node_f b.

(** An entry of the open list, the tuple [(f, node)]. *)
Abbreviation entry := (num * Node)%type.

(** Python's [<] on tuples: the first components that differ (by [==])
    decide; tuples of equal length with no difference are not [<]. *)
Definition entry_ltb (a b : entry) : bool :=
  if negb (num_eqb a.1 b.1) then num_ltb a.1 b.1
  else if negb (Node_eqb a.2 b.2) then Node_ltb a.2 b.2
  else false.

(** ** The [heapq] module: a binary min-heap in a list *)

Module heapq.
Section heapq.
Context {A : Type} (lt : A -> A -> bool).

(** The [while pos > startpos] loop of [_siftdown].  [pos] strictly
  decreases, so [pos] iterations are enough: with [fuel >= pos] the
  [O] branch is reached only when [pos = 0], where the loop exits. *)
Fixpoint _siftdown_loop (fuel : nat) (heap : list A) (newitem : A)
  (startpos pos : nat) : list A :=
match fuel with
| O => <[pos := newitem]> heap
| S fuel' =>
  if (startpos <? pos)%nat then
    let parentpos := ((pos - 1) / 2)%nat in
    match heap !! parentpos with
    | Some parent =>
      if lt newitem parent
      then _siftdown_loop fuel' (<[pos := parent]> heap) newitem startpos parentpos
      else <[pos := newitem]> heap
    | None => <[pos := newitem]> heap
    end
  else <[pos := newitem]> heap
end.

Definition _siftdown (heap : list A) (startpos pos : nat) : list A :=
match heap !! pos with
| Some newitem => _siftdown_loop pos heap newitem startpos pos
| None => heap
end.

(** The [while childpos < endpos] loop of [_siftup]: the smaller child
  moves up until [pos] is a leaf; returns the heap and that leaf. *)
Fixpoint _siftup_loop (fuel : nat) (heap : list A) (endpos pos : nat)
  : list A * nat :=
match fuel with
| O => (heap, pos)
| S fuel' =>
  let childpos := (2 * pos + 1)%nat in
  if (childpos <? endpos)%nat then
    let rightpos := (childpos + 1)%nat in
    let childpos :=
      match heap !! childpos, heap !! rightpos with
      | Some c, Some r =>
        if (rightpos <? endpos)%nat && negb (lt c r) then rightpos else childpos
      | _, _ => childpos
      end in
    match heap !! childpos with
    | Some c => _siftup_loop fuel' (<[pos := c]> heap) endpos childpos
    | None => (heap, pos)
    end
  else (heap, pos)
end.

Definition _siftup (heap : list A) (pos : nat) : list A :=
match heap !! pos with
| Some newitem =>
  let '(heap', leaf) := _siftup_loop (length heap) heap (length heap) pos in
  _siftdown (<[leaf := newitem]> heap') pos leaf
| None => heap
end.

Definition heappush (heap : list A) (item : A) : list A :=
let heap := heap ++ [item] in
_siftdown heap 0 (length heap - 1).

(** [None] stands for the [IndexError] of popping an empty heap. *)
Definition heappop (heap : list A) : option (A * list A) :=
match last heap with
| None => None
| Some lastelt =>
  let heap := removelast heap in
  match heap with
  | returnitem :: _ => Some (returnitem, _siftup (<[0%nat := lastelt]> heap) 0)
  | [] => Some (lastelt, [])
  end
end.
End heapq.
End heapq.

(** ** [Game.a_star] *)

Abbreviation path := (list pos).

(** [while p: path.append(p.position); p = p.parent] *)
Fixpoint backtrace (p : Node) : path :=
  match p with
  | mkNode q par =>
    q :: match par with
         | Some p' => backtrace p'
         | None => []
         end
  end.

Definition cardinal_moves : list pos := [(0, -1); (0, 1); (-1, 0); (1, 0)].

(** The default cost map, [[[1] * W for _ in range(H)]]. *)
Definition uniform_cost_map : grid :=
  replicate (Z.to_nat GRID_HEIGHT_CELLS) (replicate (Z.to_nat GRID_WIDTH_CELLS) 1).

Record search_state := mkSearch {
  nodes : list entry;
  closed : gset pos;
  g_costs : gmap pos num
}.

Definition g_get (g_costs : gmap pos num) (p : pos) : num :=
  default Inf (g_costs !! p).

Section a_star.
Context (game_map : grid) (end_ : pos) (restricted : list Z) (cost_map : grid).

(** One pass of [for move in cardinal_moves] for the node [c_node]. *)
Definition relax (c_node : Node) (closed : gset pos)
    (st : list entry * gmap pos num) (move : pos)
    : res (list entry * gmap pos num) :=
  let '(nodes, g_costs) := st in
  let p := ((position c_node).1 + move.1, (position c_node).2 + move.2) in
  if negb (in_bounds p) then Ok st
  else
    tile ← grid_get game_map p.1 p.2;
    if tile_in tile restricted || bool_decide (p ∈ closed) then Ok st
    else
      c ← grid_get cost_map p.1 p.2;
      let new_g := num_add (g_get g_costs (position c_node)) (Fin c) in
      if num_ltb new_g (g_get g_costs p) then
        let h := manhattan p end_ in
        Ok (heapq.heappush entry_ltb nodes
              (num_add new_g (Fin h), mkNode p (Some c_node)),
            <[p := new_g]> g_costs)
      else Ok st.

(** One iteration of [while nodes]: either the search returns ([inr]) or
    it goes on with a new state ([inl]). *)
Definition a_star_step (s : search_state)
    : res (search_state + (option path * num)) :=
  match nodes s with
  | [] => Ok (inr (None, Inf))
  | _ :: _ =>
    match heapq.heappop entry_ltb (nodes s) with
    | None => Raise IndexError
    | Some ((_, c_node), rest) =>
      if bool_decide (position c_node = end_) then
        Ok (inr (Some (rev (backtrace c_node)), g_get (g_costs s) end_))
      else if bool_decide (position c_node ∈ closed s) then
        Ok (inl (mkSearch rest (closed s) (g_costs s)))
      else
        let closed' := {[position c_node]} ∪ closed s in
        '(nodes', g_costs') ← foldM (relax c_node closed') (rest, g_costs s) cardinal_moves;
        Ok (inl (mkSearch nodes' closed' g_costs'))
    end
  end.

Fixpoint a_star_loop (fuel : nat) (s : search_state) : res (option path * num) :=
  match fuel with
  | O => OutOfFuel
  | S fuel' =>
    r ← a_star_step s;
    match r with
    | inl s' => a_star_loop fuel' s'
    | inr out => Ok out
    end
  end.
End a_star.

(** Every in-bounds cell and the start cell can be closed once, and closing
    a cell pushes at most four entries. *)
Definition a_star_fuel : nat :=
  Z.to_nat (4 * (GRID_WIDTH_CELLS * GRID_HEIGHT_CELLS + 1) + 2).

Definition a_star_init (start : pos) : search_state :=
  mkSearch [(Fin 0, mkNode start None)] ∅ {[start := Fin 0]}.

Definition a_star (game_map : grid) (start end_ : pos) (restricted : list Z)
    (cost_map : option grid) : res (option path * num) :=
  let cost_map := default uniform_cost_map cost_map in
  a_star_loop game_map end_ restricted cost_map a_star_fuel (a_star_init start).
(** [Game.turns_to_reach] *)
Definition turns_to_reach (game_map : grid) (start end_ : pos) : res num :=
  '(_, cost) ← a_star game_map start end_ [1; 4] None;
  Ok cost.

(** ** More Python helpers *)

Fixpoint mapM {A B : Type} (f : A -> res B) (l : list A) : res (list B) :=
  match l with
  | [] => Ok []
  | x :: l' => y ← f x; ys ← mapM f l'; Ok (y :: ys)
  end.

(** [min(...)] of a sequence of numbers; [ValueError] when it is empty. *)
Definition py_min (l : list num) : res num :=
  match l with
  | [] => Raise ValueError
  | x :: l' => Ok (fold_left (fun m y => if num_ltb y m then y else m) l' x)
  end.

(** [sorted(l, key=key)]: Python's sort is stable, so the result is the one
    of a stable insertion sort. *)
Fixpoint insert_by {A} (key : A -> Z) (x : A) (l : list A) : list A :=
  match l with
  | [] => [x]
  | y :: l' => if key x <=? key y then x :: y :: l' else y :: insert_by key x l'
  end.

Definition sorted_by {A} (key : A -> Z) (l : list A) : list A :=
  foldr (insert_by key) [] l.

(** [random.choice(l)], with the random draw [rnd] made explicit. *)
Definition random_choice {A} (rnd : nat) (l : list A) : option A :=
  l !! (rnd mod length l)%nat.

(** [math.hypot(dx, dy) <= r] on integers.  The source compares the float
    that [math.hypot] returns with the integer [r].  For differences of two
    cells of the grid ([|dx| < GRID_WIDTH], [|dy| < GRID_HEIGHT]) and any
    integer [r] this is the exact comparison below: [dx * dx + dy * dy] is
    below 1000, its square root is rounded correctly, and Python compares a
    float with an integer exactly.  Beyond 2^53 the float comparison may
    differ, and beyond the range of floats [math.hypot] raises
    [OverflowError]; the theorems on the enemies therefore take the enemy
    and the agent on the grid. *)
Definition hypot_le (dx dy r : Z) : bool :=
  (0 <=? r) && (dx * dx + dy * dy <=? r * r).

(** ** Vehicles and enemies *)

Record Agent := mkAgent {
  agent_x : Z;
  agent_y : Z;
  agent_path : path;
  agent_score : Z;
  wait_timer : Z
}.

Definition agent_pos (a : Agent) : pos := (agent_x a, agent_y a).

(** [self.mode], one of the strings ['patrol'] and ['attack']. *)
Inductive Mode := patrol | attack.

#[global] Instance Mode_eq_dec : EqDecision Mode.
Proof. solve_decision. Defined.

(** [PatrolObstacle] and its subclass [AggressiveObstacle].  The fields
    [game_map] and [agent] of the Python objects are references to the
    game's map and agent; the functions below take them as arguments. *)
Inductive Obstacle :=
  | PatrolObstacle (x y : Z)
  | AggressiveObstacle (x y : Z) (detection_radius : Z) (mode : Mode).

#[global] Instance Obstacle_eq_dec : EqDecision Obstacle.
Proof. solve_decision. Defined.

Definition obs_pos (o : Obstacle) : pos :=
  match o with
  | PatrolObstacle x y => (x, y)
  | AggressiveObstacle x y _ _ => (x, y)
  end.

Definition obs_move (o : Obstacle) (p : pos) : Obstacle :=
  match o with
  | PatrolObstacle _ _ => PatrolObstacle p.1 p.2
  | AggressiveObstacle _ _ r m => AggressiveObstacle p.1 p.2 r m
  end.

(** [isinstance(o, AggressiveObstacle)] *)
Definition is_aggressive (o : Obstacle) : bool :=
  match o with
  | AggressiveObstacle _ _ _ _ => true
  | PatrolObstacle _ _ => false
  end.

(** [PatrolObstacle.update]: the moves that stay on the grid and on an
    allowed tile, and a random one of them. *)
Definition patrol_moves (game_map : grid) (p : pos) (allowed_tiles : list Z)
    : res (list pos) :=
  foldM (fun (moves : list pos) (d : pos) =>
           let new := (p.1 + d.1, p.2 + d.2) in
           if in_bounds new then
             tile ← grid_get game_map new.1 new.2;
             Ok (if tile_in tile allowed_tiles then moves ++ [d] else moves)
           else Ok moves)
        [] [(0, 1); (0, -1); (1, 0); (-1, 0)].

Definition PatrolObstacle_update (game_map : grid) (rnd : nat)
    (allowed_tiles : list Z) (o : Obstacle) : res Obstacle :=
  moves ← patrol_moves game_map (obs_pos o) allowed_tiles;
  match random_choice rnd moves with
  | Some d => Ok (obs_move o ((obs_pos o).1 + d.1, (obs_pos o).2 + d.2))
  | None => Ok o
  end.

(** [AggressiveObstacle.update].  [instance] is the map of
    [Game.get_instance()], [None] when there is no game. *)
Definition AggressiveObstacle_update (instance : option grid) (game_map : grid)
    (agent : Agent) (rnd : nat) (allowed_tiles : list Z)
    (x y detection_radius : Z) : res Obstacle :=
  let mode :=
    if hypot_le (x - agent_x agent) (y - agent_y agent) detection_radius
    then attack else patrol in
  let self := AggressiveObstacle x y detection_radius mode in
  match mode with
  | attack =>
    match instance with
    | Some game =>
      '(path_res, _) ← a_star game (x, y) (agent_x agent, agent_y agent)
                          [TILE_TYPE_OBSTACLE; TILE_TYPE_WATER] None;
      match path_res with
      | Some (_ :: p1 :: _) => Ok (obs_move self p1)
      | _ => PatrolObstacle_update game_map rnd allowed_tiles self
      end
    | None => Ok self
    end
  | patrol => PatrolObstacle_update game_map rnd allowed_tiles self
  end.

Definition Obstacle_update (instance : option grid) (game_map : grid)
    (agent : Agent) (rnd : nat) (allowed_tiles : list Z) (o : Obstacle)
    : res Obstacle :=
  match o with
  | PatrolObstacle _ _ => PatrolObstacle_update game_map rnd allowed_tiles o
  | AggressiveObstacle x y r _ =>
    AggressiveObstacle_update instance game_map agent rnd allowed_tiles x y r
  end.

(** ** The game *)

(** The attributes of [Game] that the planning code and [end_mission]
    read.  The ones that only some missions create are [option]s, [None]
    when the attribute is missing ([hasattr] false, [getattr] default). *)
Record Game := mkGame {
  game_mode : string;
  game_map : grid;
  agent : Agent;
  collectibles : option (list pos);
  land_collectibles : option (list pos);
  water_collectibles : option (list pos);
  dynamic_obstacles : option (list Obstacle);
  total_collectibles : option Z;
  num_patrol : option Z;
  num_aggressive : option Z;
  mission_complete : bool;
  mission_failed : bool;
  mission_partial : bool;
  start_time : Z;
  final_time : Z
}.

(** [self.attr] for an attribute that may be missing. *)
Definition attr {A} (a : option A) : res A :=
  match a with
  | Some v => Ok v
  | None => Raise AttributeError
  end.

(** [Game.is_dead_end] *)
Definition is_dead_end (g : Game) (x y : Z) : res bool :=
  let targets := default [] (collectibles g) ++ default [] (land_collectibles g) in
  if bool_decide ((x, y) ∈ targets) then Ok false
  else
    free_neighbors ←
      foldM (fun (n : Z) (d : pos) =>
               let q := (x + d.1, y + d.2) in
               if in_bounds q then
                 tile ← grid_get (game_map g) q.1 q.2;
                 Ok (if bool_decide (tile ≠ TILE_TYPE_OBSTACLE) then n + 1 else n)
               else Ok n)
            0 [(-1, 0); (1, 0); (0, -1); (0, 1)];
    Ok (free_neighbors <=? 1).

(** The penalty of one cell of the square around an aggressive enemy. *)
Definition aggressive_cell (o_x o_y r extended_radius : Z) (mode : Mode)
    (cost_map : grid) (d : pos) : res grid :=
  let '(dx, dy) := d in
  let n := (o_x + dx, o_y + dy) in
  if in_bounds n then
    let dist := Z.abs dx + Z.abs dy in
    cost_map ←
      (if dist =? 0 then grid_add cost_map n.1 n.2 8000
       else if dist <=? 1 then grid_add cost_map n.1 n.2 3000
       else if dist <=? 2 then grid_add cost_map n.1 n.2 1500
       else if dist <=? r then grid_add cost_map n.1 n.2 800
       else if dist <=? extended_radius then grid_add cost_map n.1 n.2 300
       else Ok cost_map);
    if bool_decide (mode = attack) then grid_add cost_map n.1 n.2 2000
    else Ok cost_map
  else Ok cost_map.

(** [for dy in range(-E, E + 1): for dx in range(-E, E + 1)] *)
Definition square_offsets (extended_radius : Z) : list pos :=
  dy ← range (- extended_radius) (extended_radius + 1);
  dx ← range (- extended_radius) (extended_radius + 1);
  [(dx, dy)].

Definition obstacle_penalty (game_map : grid) (escape : bool) (cost_map : grid)
    (obs : Obstacle) : res grid :=
  match obs with
  | AggressiveObstacle o_x o_y r mode =>
    let extended_radius := if negb escape then r + 2 else r + 4 in
    foldM (aggressive_cell o_x o_y r extended_radius mode) cost_map
          (square_offsets extended_radius)
  | PatrolObstacle o_x o_y =>
    cost_map ← grid_add cost_map o_x o_y 2500;
    foldM (fun (cost_map : grid) (d : pos) =>
             let n := (o_x + d.1, o_y + d.2) in
             if in_bounds n then
               tile ← grid_get game_map n.1 n.2;
               if negb (tile_in tile [1; 4]) then grid_add cost_map n.1 n.2 1200
               else Ok cost_map
             else Ok cost_map)
          cost_map [(0, 1); (0, -1); (1, 0); (-1, 0)]
  end.

(** All cells in the order of [for y in range(H): for x in range(W)]. *)
Definition all_cells : list pos :=
  y ← range 0 GRID_HEIGHT_CELLS;
  x ← range 0 GRID_WIDTH_CELLS;
  [(x, y)].

(** [Game.create_dynamic_cost_map] *)
Definition create_dynamic_cost_map (g : Game) (escape : bool) : res grid :=
  cost_map ←
    mapM (fun y => mapM (fun x => t ← grid_get (game_map g) x y; Ok (1 + t * 5))
                        (range 0 GRID_WIDTH_CELLS))
         (range 0 GRID_HEIGHT_CELLS);
  cost_map ←
    foldM (fun (cost_map : grid) (c : pos) =>
             dead ← is_dead_end g c.1 c.2;
             if (dead : bool) then
               let penalty := if escape then 4000 else 200 in
               grid_add cost_map c.1 c.2 penalty
             else Ok cost_map)
          cost_map all_cells;
  foldM (obstacle_penalty (game_map g) escape) cost_map
        (default [] (dynamic_obstacles g)).

(** ** Threats *)

(** The threat scan of [Game.update_ground]: the enemies whose
    turns-to-reach the position [p] is within their threshold. *)
Definition max_turns (o : Obstacle) : Z :=
  match o with
  | AggressiveObstacle _ _ detection_radius mode =>
    let max_turns := detection_radius + 2 in
    if bool_decide (mode = attack) then max_turns + 1 else max_turns
  | PatrolObstacle _ _ => 3
  end.

Definition threat_scan (game_map : grid) (dynamic_obstacles : list Obstacle)
    (p : pos) : res (list Obstacle) :=
  foldM (fun (threats : list Obstacle) (o : Obstacle) =>
           turns ← turns_to_reach game_map (obs_pos o) p;
           Ok (if num_leb turns (Fin (max_turns o)) then threats ++ [o] else threats))
        [] dynamic_obstacles.

(** [min(self.turns_to_reach((t.x, t.y), target) for t in enemies)] *)
Definition min_turns (game_map : grid) (enemies : list Obstacle) (target : pos)
    : res num :=
  turns ← mapM (fun t => turns_to_reach game_map (obs_pos t) target) enemies;
  py_min turns.

(** ** The escape planner *)

(** A score of the escape planner: a float, possibly infinite. *)
Inductive real := NegInf | Real (q : Q) | PosInf.

Definition real_ltb (a b : real) : bool :=
  match a, b with
  | NegInf, NegInf => false
  | NegInf, _ => true
  | Real _, NegInf => false
  | Real x, Real y => negb (Qle_bool y x)
  | Real _, PosInf => true
  | PosInf, _ => false
  end.

(** [turns * 1.5 - length] *)
Definition escape_score (turns : num) (length : Z) : real :=
  match turns with
  | Fin t => Real (inject_Z t * (3 # 2) - inject_Z length)%Q
  | Inf => PosInf
  end.

Definition escape_ring (g : Game) (p : pos) (r : Z) (candidates : list pos)
    : res (list pos) :=
  foldM (fun (candidates : list pos) (i : Z) =>
    foldM (fun (candidates : list pos) (j : Z) =>
      if (Z.abs i + Z.abs j =? r) && in_bounds (p.1 + i, p.2 + j) then
        tile ← grid_get (game_map g) (p.1 + i) (p.2 + j);
        Ok (if negb (tile_in tile [1; 4])
            then candidates ++ [(p.1 + i, p.2 + j)] else candidates)
      else Ok candidates)
      candidates (range (- r) (r + 1)))
    candidates (range (- r) (r + 1)).

Definition escape_candidates (g : Game) (p : pos) : res (list pos) :=
  foldM (fun (candidates : list pos) (r : Z) => escape_ring g p r candidates) [] (range 2 8).

(** [any(s == (o.x, o.y) for o in dynamic_obstacles)] *)
Definition occupied (dynamic_obstacles : list Obstacle) (s : pos) : bool :=
  existsb (fun o => bool_decide (s = obs_pos o)) dynamic_obstacles.

Definition escape_eval (g : Game) (p : pos) (cost_map : grid)
    (threats dynamic_obstacles : list Obstacle)
    (best : option path * real) (spot : pos) : res (option path * real) :=
  if occupied dynamic_obstacles spot then Ok best
  else
    '(path_res, _) ← a_star (game_map g) p spot
                        [TILE_TYPE_WATER; TILE_TYPE_OBSTACLE] (Some cost_map);
    match path_res with
    | Some (c :: cs) =>
      let pth := c :: cs in
      if negb (existsb (occupied dynamic_obstacles) pth) then
        m ← min_turns (game_map g) threats spot;
        let score := escape_score m (Z.of_nat (length pth)) in
        Ok (if real_ltb best.2 score then (Some pth, score) else best)
      else Ok best
    | _ => Ok best
    end.

(** [Game.find_escape_path] *)
Definition find_escape_path (g : Game) (threats dynamic_obstacles : list Obstacle)
    : res (option path) :=
  let p := agent_pos (agent g) in
  cost_map ← create_dynamic_cost_map g true;
  candidates ← escape_candidates g p;
  best ← foldM (escape_eval g p cost_map threats dynamic_obstacles)
               (None, NegInf) candidates;
  Ok best.1.

(** ** The brave planner *)

Fixpoint brave_loop (g : Game) (agent_p : pos) (aggressive_threats : list Obstacle)
    (targets : list pos) : res (option path) :=
  match targets with
  | [] => Ok None
  | target :: rest =>
    dead ← is_dead_end g target.1 target.2;
    if (dead : bool) then brave_loop g agent_p aggressive_threats rest
    else
      agent_steps ← turns_to_reach (game_map g) agent_p target;
      if num_eqb agent_steps Inf then brave_loop g agent_p aggressive_threats rest
      else
        enemy_steps ← min_turns (game_map g) aggressive_threats target;
        if num_ltb agent_steps (num_sub_int enemy_steps 1) then
          cost_map ← create_dynamic_cost_map g true;
          '(path_res, _) ← a_star (game_map g) agent_p target
                              [TILE_TYPE_WATER; TILE_TYPE_OBSTACLE] (Some cost_map);
          match path_res with
          | Some (c :: cs) => Ok (Some (c :: cs))
          | _ => brave_loop g agent_p aggressive_threats rest
          end
        else brave_loop g agent_p aggressive_threats rest
  end.

(** [Game.find_brave_path] *)
Definition find_brave_path (g : Game) (threats : list Obstacle) : res (option path) :=
  let agent_p := agent_pos (agent g) in
  let aggressive_threats := filter (fun t => is_aggressive t = true) threats in
  match aggressive_threats with
  | [] => Ok None
  | _ :: _ =>
    cs ← attr (collectibles g);
    brave_loop g agent_p aggressive_threats
               (sorted_by (fun c => manhattan c agent_p) cs)
  end.

(** ** The end of a mission *)

(** One call [update_ground_robot_stats(result, mission_time,
    collectibles_found, enemies_count)]. *)
Record stats_update := mkStats {
  su_result : string;
  su_mission_time : Z;
  su_collectibles_found : Z;
  su_enemies_count : Z
}.

(** The game together with the calls of [update_ground_robot_stats] that
    it has made and that returned, the latest first.  (What reaches the
    statistics file is not modelled: [save_ground_robot_stats] catches the
    [IOError] of a file that cannot be written and only prints it.) *)
Record World := mkWorld {
  game : Game;
  recorded : list stats_update
}.

Definition len {A} (l : list A) : Z := Z.of_nat (length l).

(** [collected / total > 0.7] for [total > 0].  The source compares the
    float quotient with the float [0.7].  The quotient of two integers is
    rounded to the nearest float and [0.7] is the float nearest to 7/10, so
    for counts below 2^50 the comparison holds exactly when
    [collected / total > 7/10] does in the rationals; for counts above
    about 9 * 10^15 it may differ.  The theorems on [end_mission] that
    depend on this comparison take the counts below 2^50. *)
Definition ratio_gt_07 (collected total : Z) : bool := 7 * total <? 10 * collected.

Definition set_outcome (g : Game) (final : Z) (complete failed partial : bool) : Game :=
  mkGame (game_mode g) (game_map g) (agent g) (collectibles g)
         (land_collectibles g) (water_collectibles g) (dynamic_obstacles g)
         (total_collectibles g) (num_patrol g) (num_aggressive g)
         complete failed partial (start_time g) final.

(** The collectibles not gathered yet, as [end_mission] counts them. *)
Definition collectibles_left (g : Game) : res Z :=
  if bool_decide (game_mode g = "all_agents"%string) then
    land ← attr (land_collectibles g);
    water ← attr (water_collectibles g);
    Ok (len land + len water)
  else Ok (len (default [] (collectibles g))).

(** The check for a partial success. *)
Definition reclassify (g : Game) (result : string) : res string :=
  match total_collectibles g with
  | Some total =>
    if bool_decide (result = "failed"%string) && (0 <? total) then
      left ← collectibles_left g;
      let collected := total - left in
      Ok (if (0 <? total) && ratio_gt_07 collected total
          then "partial"%string else result)
    else Ok result
  | None => Ok result
  end.

(** The arguments with which [end_mission] calls
    [update_ground_robot_stats]. *)
Definition stats_entry (g : Game) (result : string) (final : Z) : stats_update :=
  let collectibles_found :=
    match total_collectibles g, collectibles g with
    | Some total, Some cs => total - len cs
    | _, _ => 0
    end in
  let enemies_count :=
    match num_patrol g, num_aggressive g with
    | Some p, Some a => p + a
    | _, _ => 0
    end in
  mkStats result final collectibles_found enemies_count.

Section end_mission.

(** [update_ground_robot_stats] loads the statistics file, updates the
    counters and the float averages and saves the file.  Whether it returns
    depends on the file: a file that is missing or is not JSON gives the
    default statistics, but on JSON of another shape (a list, a counter that
    is a string) the update raises [TypeError], which nothing catches.  The
    file and the float arithmetic are not modelled: the function is a
    parameter of the model, which returns or raises. *)
Variable update_ground_robot_stats : stats_update -> res unit.

(** The update of the statistics, made for the ground mission only. *)
Definition record_stats (g : Game) (result : string) (final : Z)
    (recorded : list stats_update) : res (list stats_update) :=
  if bool_decide (game_mode g = "ground"%string) then
    let u := stats_entry g result final in
    _ ← update_ground_robot_stats u;
    Ok (u :: recorded)
  else Ok recorded.

(** [Game.end_mission]; [now] is [pygame.time.get_ticks()].  An exception of
    the statistics update escapes before an outcome flag is assigned (the
    final time is assigned by then). *)
Definition end_mission (now : Z) (result : string) (w : World) : res World :=
  let g := game w in
  if mission_complete g || mission_failed g || mission_partial g then Ok w
  else
    let final := (now - start_time g) `div` 1000 in
    result ← reclassify g result;
    recorded' ← record_stats g result final (recorded w);
    if bool_decide (result = "success"%string) then
      Ok (mkWorld (set_outcome g final true false false) recorded')
    else if bool_decide (result = "partial"%string) then
      Ok (mkWorld (set_outcome g final false false true) recorded')
    else
      Ok (mkWorld (set_outcome g final false true false) recorded').

End end_mission.

(** [Game.setup_new_mission]: the flags are cleared and the clock is
    restarted; [fresh] holds what the setup function of the mode creates. *)
Definition setup_new_mission (now : Z) (fresh : Game) : Game :=
  mkGame (game_mode fresh) (game_map fresh) (agent fresh) (collectibles fresh)
         (land_collectibles fresh) (water_collectibles fresh)
         (dynamic_obstacles fresh) (total_collectibles fresh)
         (num_patrol fresh) (num_aggressive fresh)
         false false false now 0.

(** * Vocabulary of the specifications *)

(** ** Heap order *)

Section heap_order.
Context {A : Type} (lt : A -> A -> bool).

(** No entry is smaller than its parent. *)
Definition heap_ok (h : list A) : Prop :=
  forall (j : nat) a b, (0 < j)%nat ->
    h !! ((j - 1) / 2)%nat = Some a -> h !! j = Some b -> lt b a = false.

(** The order holds everywhere but around the cell [pos], whose content
    is to be ignored, and the children of [pos] respect its parent. *)
Definition hole_ok (h : list A) (pos : nat) : Prop :=
  (forall (j : nat) a b, (0 < j)%nat -> j ≠ pos -> ((j - 1) / 2)%nat ≠ pos ->
     h !! ((j - 1) / 2)%nat = Some a -> h !! j = Some b -> lt b a = false) ∧
  (forall (j : nat) a b, (0 < pos)%nat -> (0 < j)%nat -> ((j - 1) / 2)%nat = pos ->
     h !! ((pos - 1) / 2)%nat = Some a -> h !! j = Some b -> lt b a = false).

(** The children of [pos] are not smaller than [item]. *)
Definition above_ok (h : list A) (item : A) (pos : nat) : Prop :=
  forall (j : nat) b, (0 < j)%nat -> ((j - 1) / 2)%nat = pos ->
    h !! j = Some b -> lt b item = false.
End heap_order.

(** ** Grids *)

(** A grid of the size of the game: [GRID_HEIGHT_CELLS] rows of
    [GRID_WIDTH_CELLS] cells. *)
Definition wf_grid (g : grid) : Prop :=
  length g = Z.to_nat GRID_HEIGHT_CELLS ∧
  Forall (fun row => length row = Z.to_nat GRID_WIDTH_CELLS) g.

(** The content of a cell, [0] outside of the grid. *)
Definition cell (g : grid) (p : pos) : Z :=
  match grid_get g p.1 p.2 with
  | Ok t => t
  | _ => 0
  end.

(** ** Paths *)

(** A cell the search may enter: on the grid, on a tile that is not
    restricted. *)
Definition passable (game_map : grid) (restricted : list Z) (p : pos) : Prop :=
  in_bounds p = true ∧ tile_in (cell game_map p) restricted = false.

(** [q] is one cardinal move away from [p]. *)
Definition adjacent (p q : pos) : Prop :=
  ∃ move, move ∈ cardinal_moves ∧ q = (p.1 + move.1, p.2 + move.2).

(** [q] can be reached from [start] by cardinal moves that each enter a
    passable cell. *)
Inductive reach (game_map : grid) (restricted : list Z) (start : pos) : pos -> Prop :=
  | reach_start : reach game_map restricted start start
  | reach_move p q :
      reach game_map restricted start p -> adjacent p q ->
      passable game_map restricted q -> reach game_map restricted start q.

(** The chain of parents of a node is such a walk, back to [start]. *)
Inductive from_start (game_map : grid) (restricted : list Z) (start : pos) : Node -> Prop :=
  | from_start_root : from_start game_map restricted start (mkNode start None)
  | from_start_child n q :
      from_start game_map restricted start n -> adjacent (position n) q ->
      passable game_map restricted q ->
      from_start game_map restricted start (mkNode q (Some n)).

(** Consecutive cells of a path are adjacent. *)
Fixpoint connected (l : path) : Prop :=
  match l with
  | p :: (q :: _) as l' => adjacent p q ∧ connected l'
  | _ => True
  end.

(** What the search keeps true of its state, whatever the maps: the open
    list holds walks from [start], and only [start] and cells of the grid
    are closed. *)
Definition search_inv (game_map : grid) (restricted : list Z) (start : pos)
    (s : search_state) : Prop :=
  (forall e, e ∈ nodes s -> from_start game_map restricted start e.2) ∧
  (forall p, p ∈ closed s -> p = start ∨ in_bounds p = true).

(** The cells that can ever be closed. *)
Definition closable (start : pos) : gset pos := {[start]} ∪ list_to_set all_cells.

(** The bound on the iterations left. *)
Definition search_measure (start : pos) (s : search_state) : nat :=
  (length (nodes s) + 4 * (size (closable start) - size (closed s)))%nat.

(** ** The search on a grid without forbidden cells *)

(** The number of moves from the start that the chain of a node makes. *)
Definition depth (n : Node) : Z := Z.of_nat (length (backtrace n)) - 1.

Section optimal.
Context (game_map : grid) (restricted : list Z) (start end_ : pos).

(** No recorded cost is below the Manhattan distance from the start. *)
Definition costs_above (g : gmap pos num) : Prop :=
  forall p v, g !! p = Some v -> ∃ z, v = Fin z ∧ manhattan start p <= z.

(** The priority of an entry is a cost plus the heuristic; the cost
    bounds the depth of the node and the recorded cost of its cell. *)
Definition entries_ok (nodes : list entry) (g : gmap pos num) : Prop :=
  forall f n, (f, n) ∈ nodes ->
    ∃ gq g', f = Fin (gq + manhattan (position n) end_) ∧ depth n <= gq ∧
             g !! position n = Some (Fin g') ∧ g' <= gq.

(** A cell with a recorded cost that is not closed has an entry with
    that cost in the open list. *)
Definition open_listed (nodes : list entry) (closed : gset pos)
    (g : gmap pos num) : Prop :=
  forall p z, g !! p = Some (Fin z) -> p ∉ closed ->
    ∃ n, (Fin (z + manhattan p end_), n) ∈ nodes ∧ position n = p.

(** A closed cell lies on a shortest way from [start] to [end_], its
    recorded cost is its distance from [start], and its neighbours on the
    grid have a recorded cost of at most one more; the cell [c0] is being
    expanded, its moves in [pending] are still to be made. *)
Definition closed_ok (c0 : pos) (pending : list pos) (closed : gset pos)
    (g : gmap pos num) : Prop :=
  forall c, c ∈ closed ->
    c ≠ end_ ∧ in_bounds c = true ∧
    g !! c = Some (Fin (manhattan start c)) ∧
    manhattan start c + manhattan c end_ = manhattan start end_ ∧
    forall m, m ∈ cardinal_moves -> in_bounds (c.1 + m.1, c.2 + m.2) = true ->
      (c = c0 ∧ m ∈ pending) ∨
      ∃ z, g !! (c.1 + m.1, c.2 + m.2) = Some (Fin z) ∧ z <= manhattan start c + 1.

Definition running (c0 : pos) (pending : list pos) (s : search_state) : Prop :=
  heap_ok entry_ltb (nodes s) ∧
  (forall e, e ∈ nodes s -> from_start game_map restricted start e.2) ∧
  entries_ok (nodes s) (g_costs s) ∧
  costs_above (g_costs s) ∧
  open_listed (nodes s) (closed s) (g_costs s) ∧
  closed_ok c0 pending (closed s) (g_costs s) ∧
  start ∈ closed s.

(** What is known of a node taken from the open list for expansion. *)
Definition popped_ok (c_node : Node) (g : gmap pos num) : Prop :=
  from_start game_map restricted start c_node ∧
  in_bounds (position c_node) = true ∧
  depth c_node <= manhattan start (position c_node) ∧
  g !! position c_node = Some (Fin (manhattan start (position c_node))) ∧
  manhattan start (position c_node) + manhattan (position c_node) end_
    = manhattan start end_.

(** The invariant of the whole search: the initial state, or a state
    between two iterations. *)
Definition optimal_inv (s : search_state) : Prop :=
  s = a_star_init start ∨ ∃ c0, running c0 [] s.
End optimal.

(** No cell of the grid is on a restricted tile. *)
Definition obstacle_free (game_map : grid) (restricted : list Z) : Prop :=
  forall p, in_bounds p = true -> tile_in (cell game_map p) restricted = false.


(** ** Missions *)

(** The number of outcome flags that are set. *)
Definition flags_set (g : Game) : nat :=
  (Nat.b2n (mission_complete g) + Nat.b2n (mission_failed g)
   + Nat.b2n (mission_partial g))%nat.

Definition mission_over (g : Game) : bool :=
  mission_complete g || mission_failed g || mission_partial g.

(** The states of a game: a mission is set up (again), it is ended by
    [end_mission], whatever the statistics update does at that call, or
    another method runs; no other method assigns an outcome flag or updates
    the statistics.  A call of [end_mission] that raises leaves the flags
    and the statistics as they were, which [run_other] covers. *)
Inductive mission_run : World -> Prop :=
  | run_setup now fresh recorded :
      mission_run (mkWorld (setup_new_mission now fresh) recorded)
  | run_end_mission update now result w w' :
      mission_run w -> end_mission update now result w = Ok w' -> mission_run w'
  | run_other w g' :
      mission_run w ->
      mission_complete g' = mission_complete (game w) ->
      mission_failed g' = mission_failed (game w) ->
      mission_partial g' = mission_partial (game w) ->
      mission_run (mkWorld g' (recorded w)).

(** ** Threats *)

(** The test of the threat scan on one enemy. *)
Definition is_threat (game_map : grid) (p : pos) (o : Obstacle) : bool :=
  match turns_to_reach game_map (obs_pos o) p with
  | Ok turns => num_leb turns (Fin (max_turns o))
  | _ => false
  end.

(** The threshold of an enemy in the words of the specification:
    detection radius + 2 for an aggressive enemy, one more when it is in
    attack mode, and 3 for a patrol enemy. *)
Definition threat_threshold (o : Obstacle) : Z :=
  match o with
  | AggressiveObstacle _ _ r attack => r + 2 + 1
  | AggressiveObstacle _ _ r patrol => r + 2
  | PatrolObstacle _ _ => 3
  end.

(** ** The planners *)

(** [m] is the least turns-to-reach [target] among [enemies]. *)
Definition least_turns (game_map : grid) (enemies : list Obstacle) (target : pos)
    (m : num) : Prop :=
  (∃ e, e ∈ enemies ∧ turns_to_reach game_map (obs_pos e) target = Ok m) ∧
  forall e, e ∈ enemies ->
    ∃ turns, turns_to_reach game_map (obs_pos e) target = Ok turns ∧
             num_leb m turns = true.

(** The margin of the brave planner: the agent reaches [target] more than
    one turn before the nearest of [enemies]. *)
Definition brave_margin (game_map : grid) (agent_p : pos) (enemies : list Obstacle)
    (target : pos) : Prop :=
  ∃ agent_turns enemy_turns,
    turns_to_reach game_map agent_p target = Ok agent_turns ∧
    least_turns game_map enemies target enemy_turns ∧
    num_ltb agent_turns (num_sub_int enemy_turns 1) = true.

(** A destination of the escape planner: on a ring of radius 2 to 7 around
    the agent, on the grid, neither obstacle nor water. *)
Definition escape_spot (game_map : grid) (agent_p spot : pos) : Prop :=
  2 <= manhattan spot agent_p <= 7 ∧ in_bounds spot = true ∧
  cell game_map spot ≠ TILE_TYPE_OBSTACLE ∧ cell game_map spot ≠ TILE_TYPE_WATER.

(** What the escape planner knows of its best path so far: it avoids the
    enemies and ends on one of the candidates. *)
Definition escape_ok (dynamic_obstacles : list Obstacle) (cands : list pos)
    (pth : path) : Prop :=
  (forall s o, s ∈ pth -> o ∈ dynamic_obstacles -> s ≠ obs_pos o) ∧
  ∃ spot, spot ∈ cands ∧ last pth = Some spot.

(** ** The cost map *)

Definition sumZ (l : list Z) : Z := foldr Z.add 0 l.

(** The cost of the tile. *)
Definition base_cost (game_map : grid) (p : pos) : Z := 1 + cell game_map p * 5.

(** The penalty of a dead end. *)
Definition dead_end_penalty (g : Game) (escape : bool) (p : pos) : Z :=
  match is_dead_end g p.1 p.2 with
  | Ok true => if escape then 4000 else 200
  | _ => 0
  end.

(** The radius of the influence zone of an aggressive enemy. *)
Definition extended_radius (escape : bool) (r : Z) : Z :=
  if escape then r + 4 else r + 2.

(** The ring penalty in the words of the specification, for the Manhattan
    distance [d] from the enemy. *)
Definition ring_penalty (r E d : Z) : Z :=
  if d =? 0 then 8000
  else if d =? 1 then 3000
  else if d =? 2 then 1500
  else if (3 <=? d) && (d <=? r) then 800
  else if (r <? d) && (d <=? E) then 300
  else 0.

(** The cell [p] is in the square of side [2 E + 1] around [(o_x, o_y)]. *)
Definition in_square (o_x o_y E : Z) (p : pos) : bool :=
  (Z.abs (p.1 - o_x) <=? E) && (Z.abs (p.2 - o_y) <=? E).

(** What one enemy adds to the cost of the cell [p]. *)
Definition obstacle_cost (game_map : grid) (escape : bool) (o : Obstacle) (p : pos) : Z :=
  match o with
  | AggressiveObstacle o_x o_y r mode =>
    let E := extended_radius escape r in
    if in_square o_x o_y E p then
      ring_penalty r E (manhattan p (o_x, o_y))
      + (if bool_decide (mode = attack) then 2000 else 0)
    else 0
  | PatrolObstacle o_x o_y =>
    (if bool_decide (p = (o_x, o_y)) then 2500 else 0)
    + (if bool_decide (manhattan p (o_x, o_y) = 1)
          && negb (tile_in (cell game_map p) [1; 4])
       then 1200 else 0)
  end.

(** The patrol enemies are on the grid. *)
Definition patrols_in_bounds (obstacles : list Obstacle) : Prop :=
  forall o, o ∈ obstacles -> is_aggressive o = false -> in_bounds (obs_pos o) = true.

(** The ring penalty of an aggressive enemy as the code chains its
    comparisons, for the distance [dist]. *)
Definition ring_cost (r E dist : Z) : Z :=
  if dist =? 0 then 8000
  else if dist <=? 1 then 3000
  else if dist <=? 2 then 1500
  else if dist <=? r then 800
  else if dist <=? E then 300
  else 0.

(** The map of the tile costs. *)
Definition base_map (game_map : grid) : grid :=
  (fun y => (fun x => base_cost game_map (x, y)) <$> range 0 GRID_WIDTH_CELLS)
    <$> range 0 GRID_HEIGHT_CELLS.

(** The cells of the rectangle [lo <= x < hi], [lo' <= y < hi'], row by row. *)
Definition rectangle (lo hi lo' hi' : Z) : list pos :=
  y ← range lo' hi'; x ← range lo hi; [(x, y)].

(** ** The cases of one iteration of the search *)

Section a_star_cases.
Context (game_map : grid) (end_ : pos) (restricted : list Z) (cost_map : grid).

(** What one relaxation can do. *)
Inductive relax_cases (c_node : Node) (closed : gset pos)
    (st : list entry * gmap pos num) (move : pos)
    : list entry * gmap pos num -> Prop :=
  | relax_out :
      in_bounds ((position c_node).1 + move.1, (position c_node).2 + move.2) = false ->
      relax_cases c_node closed st move st
  | relax_skip tile :
      let p := ((position c_node).1 + move.1, (position c_node).2 + move.2) in
      in_bounds p = true -> grid_get game_map p.1 p.2 = Ok tile ->
      tile_in tile restricted = true ∨ p ∈ closed ->
      relax_cases c_node closed st move st
  | relax_keep tile c :
      let p := ((position c_node).1 + move.1, (position c_node).2 + move.2) in
      in_bounds p = true -> grid_get game_map p.1 p.2 = Ok tile ->
      tile_in tile restricted = false -> p ∉ closed ->
      grid_get cost_map p.1 p.2 = Ok c ->
      num_ltb (num_add (g_get st.2 (position c_node)) (Fin c)) (g_get st.2 p) = false ->
      relax_cases c_node closed st move st
  | relax_push tile c :
      let p := ((position c_node).1 + move.1, (position c_node).2 + move.2) in
      let new_g := num_add (g_get st.2 (position c_node)) (Fin c) in
      in_bounds p = true -> grid_get game_map p.1 p.2 = Ok tile ->
      tile_in tile restricted = false -> p ∉ closed ->
      grid_get cost_map p.1 p.2 = Ok c ->
      num_ltb new_g (g_get st.2 p) = true ->
      relax_cases c_node closed st move
        (heapq.heappush entry_ltb st.1
           (num_add new_g (Fin (manhattan p end_)), mkNode p (Some c_node)),
         <[p := new_g]> st.2).

(** What one iteration can do. *)
Inductive step_cases (s : search_state)
    : search_state + (option path * num) -> Prop :=
  | step_empty :
      nodes s = [] -> step_cases s (inr (None, Inf))
  | step_goal f c_node rest :
      heapq.heappop entry_ltb (nodes s) = Some ((f, c_node), rest) ->
      position c_node = end_ ->
      step_cases s (inr (Some (rev (backtrace c_node)), g_get (g_costs s) end_))
  | step_closed f c_node rest :
      heapq.heappop entry_ltb (nodes s) = Some ((f, c_node), rest) ->
      position c_node ≠ end_ -> position c_node ∈ closed s ->
      step_cases s (inl (mkSearch rest (closed s) (g_costs s)))
  | step_expand f c_node rest nodes' g_costs' :
      heapq.heappop entry_ltb (nodes s) = Some ((f, c_node), rest) ->
      position c_node ≠ end_ -> position c_node ∉ closed s ->
      foldM (relax game_map end_ restricted cost_map c_node
               ({[position c_node]} ∪ closed s))
            (rest, g_costs s) cardinal_moves = Ok (nodes', g_costs') ->
      step_cases s (inl (mkSearch nodes' ({[position c_node]} ∪ closed s) g_costs')).

End a_star_cases.

(** A cost map is the default one or a grid of the size of the game. *)
Definition wf_cost_map (cost_map : option grid) : Prop :=
  match cost_map with
  | Some cm => wf_grid cm
  | None => True
  end.

(** ** Checks that compute *)

Definition wf_gridb (g : grid) : bool :=
  bool_decide (length g = Z.to_nat GRID_HEIGHT_CELLS) &&
  forallb (fun row => bool_decide (length row = Z.to_nat GRID_WIDTH_CELLS)) g.

Definition obstacle_freeb (game_map : grid) (restricted : list Z) : bool :=
  forallb (fun p => negb (tile_in (cell game_map p) restricted)) all_cells.

(** ** Maps of the examples *)

(** The grid with every tile free. *)
Definition empty_map : grid :=
  replicate (Z.to_nat GRID_HEIGHT_CELLS)
            (replicate (Z.to_nat GRID_WIDTH_CELLS) TILE_TYPE_FREE).

(** [g] with the tile [t] put on the cells [ps]. *)
Definition with_tiles (t : Z) (ps : list pos) (g : grid) : grid :=
  foldr (fun p g => alter (fun row => <[Z.to_nat p.1 := t]> row) (Z.to_nat p.2) g) g ps.

(** The agent's first cell, (1, 1), is an obstacle. *)
Definition blocked_start_map : grid :=
  with_tiles TILE_TYPE_OBSTACLE [(1, 1)] empty_map.

(** The cell (5, 5) is free and its four neighbours are obstacles. *)
Definition enclosed_map : grid :=
  with_tiles TILE_TYPE_OBSTACLE [(4, 5); (6, 5); (5, 4); (5, 6)] empty_map.

(** ** Games of the examples *)

Definition agent_at (p : pos) : Agent := mkAgent p.1 p.2 [] 0 0.

(** A ground mission on [game_map] with the agent on (1, 1). *)
Definition ground_game (game_map : grid) (collectibles : list pos)
    (total : Z) (enemies : list Obstacle) : Game :=
  mkGame "ground" game_map (agent_at (1, 1)) (Some collectibles) None None
         (Some enemies) (Some total) (Some 0) (Some (len enemies))
         false false false 0 0.

(** Ten collectibles at the start, three of them left. *)
Definition seventy_percent_game : Game :=
  ground_game empty_map [(3, 3); (10, 10); (20, 15)] 10 [].

(** Ten collectibles at the start, two of them left. *)
Definition eighty_percent_game : Game :=
  ground_game empty_map [(3, 3); (10, 10)] 10 [].

(** The mission of [seventy_percent_game], failed after five seconds. *)
Definition failed_world : World :=
  mkWorld (set_outcome (setup_new_mission 0 seventy_percent_game) 5 false true false)
          [mkStats "failed" 5 7 0].

(** [update_ground_robot_stats] with a statistics file that it can update:
    it returns. *)
Definition stats_file_ok : stats_update -> res unit := fun _ => Ok ().

(** [update_ground_robot_stats] with a statistics file that holds JSON of
    another shape, such as the list [[]]: it raises. *)
Definition stats_file_malformed : stats_update -> res unit :=
  fun _ => Raise TypeError.

(** An attacking enemy five cells east of the agent, a patrol far away. *)
Definition chased_game : Game :=
  ground_game empty_map [(3, 1); (10, 10)] 10
    [AggressiveObstacle 6 1 6 attack; PatrolObstacle 20 15].

(** The aggressive enemy is eight cells east of the agent, the
    collectible (3, 1) two. *)
Definition brave_game : Game :=
  ground_game empty_map [(3, 1); (10, 10)] 10 [AggressiveObstacle 9 1 6 patrol].

Definition patrols_in_boundsb (obstacles : list Obstacle) : bool :=
  forallb (fun o => is_aggressive o || in_bounds (obs_pos o)) obstacles.

(** * More of the program: the agent, the search patterns, the target
    choice *)

(** ** [class Agent] *)

Definition set_agent_path (a : Agent) (p : path) : Agent :=
  mkAgent (agent_x a) (agent_y a) p (agent_score a) (wait_timer a).

(** [Agent.set_path]: a path that begins on the agent's cell loses this
    first cell. *)
Definition Agent_set_path (a : Agent) (p : path) : Agent :=
  match p with
  | q :: rest =>
    if bool_decide (q = (agent_x a, agent_y a)) then set_agent_path a rest
    else set_agent_path a p
  | [] => set_agent_path a []
  end.

(** [Agent.move] *)
Definition Agent_move (a : Agent) : Agent :=
  if 0 <? wait_timer a then
    mkAgent (agent_x a) (agent_y a) (agent_path a) (agent_score a) (wait_timer a - 1)
  else
    match agent_path a with
    | q :: rest =>
      if Z.abs (q.1 - agent_x a) + Z.abs (q.2 - agent_y a) =? 1
      then mkAgent q.1 q.2 rest (agent_score a) (wait_timer a)
      else set_agent_path a []
    | [] => set_agent_path a []
    end.

(** ** The search patterns *)

(** A loop whose body can [return]: [inl] goes on with the state, [inr]
    leaves every loop around with the result. *)
Fixpoint foldE {A S R : Type} (f : S -> A -> res (S + R)) (s : S) (l : list A)
    : res (S + R) :=
  match l with
  | [] => Ok (inl s)
  | x :: l' =>
    r ← f s x;
    match r with
    | inl s' => foldE f s' l'
    | inr out => Ok (inr out)
    end
  end.

(** The state of [ExpandingSquarePattern.get_path]. *)
Record square_state := mkSquare {
  sq_path : path;
  sq_last_pos : pos;
  sq_length : Z;
  sq_direction : Z
}.

Definition square_moves : list pos := [(0, -1); (1, 0); (0, 1); (-1, 0)].

(** The body of [for _ in range(length)]. *)
Definition square_cell (s : square_state) (_ : Z) : res (square_state + path) :=
  move ← py_getitem square_moves (sq_direction s);
  let last_pos := ((sq_last_pos s).1 + move.1, (sq_last_pos s).2 + move.2) in
  if negb (in_bounds last_pos) then Ok (inr (sq_path s))
  else Ok (inl (mkSquare (sq_path s ++ [last_pos]) last_pos
                         (sq_length s) (sq_direction s))).

(** The body of [for _ in range(2)]. *)
Definition square_side (s : square_state) (_ : Z) : res (square_state + path) :=
  r ← foldE square_cell s (range 0 (sq_length s));
  match r with
  | inl s' => Ok (inl (mkSquare (sq_path s') (sq_last_pos s') (sq_length s')
                                ((sq_direction s' + 1) `mod` 4)))
  | inr out => Ok (inr out)
  end.

(** [while len(path) < 400] *)
Fixpoint square_loop (fuel : nat) (s : square_state) : res path :=
  match fuel with
  | O => OutOfFuel
  | S fuel' =>
    if len (sq_path s) <? 400 then
      r ← foldE square_side s (range 0 2);
      match r with
      | inl s' =>
        square_loop fuel' (mkSquare (sq_path s') (sq_last_pos s')
                                    (sq_length s' + 1) (sq_direction s'))
      | inr out => Ok out
      end
    else Ok (sq_path s)
  end.

(** [ExpandingSquarePattern(start_pos).get_path()].  Every turn of the
    [while] loop that does not return adds two cells or more, so 400 turns
    are enough. *)
Definition ExpandingSquarePattern_get_path (start_pos : pos) : res path :=
  square_loop 400 (mkSquare [start_pos] start_pos 1 0).

(** One row of [ParallelSearchPattern.get_path]. *)
Definition parallel_row (y : Z) : path :=
  if y `mod` 2 =? 0 then (fun x => (x, y)) <$> range 0 GRID_WIDTH_CELLS
  else (fun x => (x, y)) <$> reverse (range 0 GRID_WIDTH_CELLS).

(** [ParallelSearchPattern(start_pos).get_path()] *)
Definition ParallelSearchPattern_get_path (start_pos : pos) : path :=
  sorted_by (fun p => Z.abs (p.1 - start_pos.1) + Z.abs (p.2 - start_pos.2))
            (range 0 GRID_HEIGHT_CELLS ≫= parallel_row).

(** ** The choice of a target *)

(** The attributes of [Game] that the choice of a target keeps:
    [current_target], and the dictionaries [target_cooldown] and
    [target_attempts]. *)
Record Planner := mkPlanner {
  current_target : option pos;
  target_cooldown : gmap pos Z;
  target_attempts : gmap pos Z
}.

Definition set_agent (g : Game) (a : Agent) : Game :=
  mkGame (game_mode g) (game_map g) a (collectibles g)
         (land_collectibles g) (water_collectibles g) (dynamic_obstacles g)
         (total_collectibles g) (num_patrol g) (num_aggressive g)
         (mission_complete g) (mission_failed g) (mission_partial g)
         (start_time g) (final_time g).

(** The best path so far, its cost and its target. *)
Record best_choice := mkBest {
  best_path : option path;
  best_cost : num;
  best_target : option pos
}.

(** The body of [for target in available]. *)
Definition try_target (g : Game) (p : pos) (restricted_tiles : list Z)
    (cost_map : grid) (best : best_choice) (target : pos) : res best_choice :=
  '(path_res, cost) ← a_star (game_map g) p target restricted_tiles (Some cost_map);
  match path_res with
  | Some (c :: cs) =>
    if num_ltb cost (best_cost best)
    then Ok (mkBest (Some (c :: cs)) cost (Some target))
    else Ok best
  | _ => Ok best
  end.

(** [Game.find_path_to_collectible] *)
Definition find_path_to_collectible (g : Game) (pl : Planner)
    (targets : list pos) (restricted_tiles : list Z) : res (Game * Planner) :=
  match targets with
  | [] => Ok (g, pl)
  | _ :: _ =>
    let p := agent_pos (agent g) in
    cost_map ← create_dynamic_cost_map g false;
    let available :=
      filter (fun t => target_cooldown pl !! t = None) targets in
    best ← foldM (try_target g p restricted_tiles cost_map)
                 (mkBest None Inf None) available;
    match best_path best with
    | Some (c :: cs) =>
      (* [best_target] is assigned together with [best_path] *)
      let attempts :=
        match best_target best with
        | Some t => <[t := default 0 (target_attempts pl !! t) + 1]> (target_attempts pl)
        | None => target_attempts pl
        end in
      Ok (set_agent g (Agent_set_path (agent g) (c :: cs)),
          mkPlanner (best_target best) (target_cooldown pl) attempts)
    | _ =>
      Ok (set_agent g (set_agent_path (agent g) []),
          mkPlanner None (target_cooldown pl) (target_attempts pl))
    end
  end.

(** * Vocabulary for the agent, the patterns and the target choice *)

(** [k] calls of [Agent.move]. *)
Definition Agent_moves (k : nat) (a : Agent) : Agent := Nat.iter k Agent_move a.

(** The keys of a list do not decrease. *)
Definition sorted_on {A} (key : A -> Z) (l : list A) : Prop :=
  forall (i j : nat) a b, (i <= j)%nat ->
    l !! i = Some a -> l !! j = Some b -> key a <= key b.

(** The same, by recursion on the list. *)
Fixpoint sorted_rec {A} (key : A -> Z) (l : list A) : Prop :=
  match l with
  | [] => True
  | x :: l' => Forall (fun y => key x <= key y) l' ∧ sorted_rec key l'
  end.

(** What [ExpandingSquarePattern.get_path] keeps true of its state. *)
Definition square_inv (start_pos : pos) (s : square_state) : Prop :=
  (∃ rest, sq_path s = start_pos :: rest ∧
           Forall (fun p => in_bounds p = true) rest) ∧
  connected (sq_path s) ∧
  last (sq_path s) = Some (sq_last_pos s) ∧
  0 <= sq_direction s < 4 ∧ 1 <= sq_length s.

(** What it returns: a walk from the start that stays on the grid. *)
Definition square_walk (start_pos : pos) (out : path) : Prop :=
  (∃ rest, out = start_pos :: rest ∧
           Forall (fun p => in_bounds p = true) rest) ∧
  connected out.

(** A list without a cell twice, as a check that computes. *)
Fixpoint nodupb (l : path) : bool :=
  match l with
  | [] => true
  | p :: l' => negb (bool_decide (p ∈ l')) && nodupb l'
  end.

(** The cells next to [p] that are on the grid and satisfy [ok]. *)
Definition neighbours_with (ok : pos -> bool) (p : pos) (moves : list pos) : list pos :=
  filter (fun d => in_bounds (p.1 + d.1, p.2 + d.2) && ok (p.1 + d.1, p.2 + d.2) = true)
         moves.

(** The neighbours of [(x, y)] on the grid that are not obstacles. *)
Definition free_neighbors (game_map : grid) (p : pos) : list pos :=
  neighbours_with (fun q => bool_decide (cell game_map q ≠ TILE_TYPE_OBSTACLE)) p
                  [(-1, 0); (1, 0); (0, -1); (0, 1)].

(** The moves of a patrol enemy on [p]. *)
Definition allowed_moves (game_map : grid) (allowed_tiles : list Z) (p : pos) : list pos :=
  neighbours_with (fun q => tile_in (cell game_map q) allowed_tiles) p
                  [(0, 1); (0, -1); (1, 0); (-1, 0)].

(** * More checks and examples *)

(** The check of [ExpandingSquarePattern.get_path] for one start: it
    returns at most 400 cells, none of them twice. *)
Definition square_path_okb (start_pos : pos) : bool :=
  match ExpandingSquarePattern_get_path start_pos with
  | Ok out => nodupb out && (length out <=? 400)%nat
  | _ => false
  end.

(** * Vocabulary for the cheapest path *)

(** The cost of the walk that the chain of a node makes: the cost-map
    cells of every position but the first. *)
Fixpoint gcost (cost_map : grid) (n : Node) : Z :=
  match n with
  | mkNode q par =>
    match par with
    | Some n' => gcost cost_map n' + cell cost_map q
    | None => 0
    end
  end.

(** The same for a path: what the moves along it cost. *)
Definition path_cost (cost_map : grid) (pth : path) : Z :=
  sumZ (map (cell cost_map) (tail pth)).

(** A walk from [start] to [goal]: cardinal steps, each into a passable
    cell. *)
Definition walk (game_map : grid) (restricted : list Z) (start goal : pos)
    (pth : path) : Prop :=
  ∃ rest, pth = start :: rest ∧ Forall (passable game_map restricted) rest ∧
          last pth = Some goal ∧ connected pth.

(** Every passable cell costs 1 or more. *)
Definition costs_positive (game_map : grid) (restricted : list Z) (cost_map : grid) : Prop :=
  forall q, passable game_map restricted q -> 1 <= cell cost_map q.

Section cheapest.
Context (game_map : grid) (restricted : list Z) (start end_ : pos) (cost_map : grid).

(** The priority of an entry is the cost of its walk plus the heuristic,
    and the recorded cost of its cell is not above the cost of the walk. *)
Definition entries_cost (nodes : list entry) (g : gmap pos num) : Prop :=
  forall f n, (f, n) ∈ nodes ->
    from_start game_map restricted start n ∧
    f = Fin (gcost cost_map n + manhattan (position n) end_) ∧
    ∃ z, g !! position n = Some (Fin z) ∧ z <= gcost cost_map n.

(** A recorded cost is the cost of a walk, which is in the open list as
    long as the cell is not closed. *)
Definition costs_walked (nodes : list entry) (closed : gset pos)
    (g : gmap pos num) : Prop :=
  forall p v, g !! p = Some v ->
    ∃ z n, v = Fin z ∧ from_start game_map restricted start n ∧
           position n = p ∧ gcost cost_map n = z ∧
           (p ∉ closed -> (Fin (z + manhattan p end_), n) ∈ nodes).

(** The recorded cost of a closed cell is the least cost of a walk to
    it, and its passable neighbours have a recorded cost that the step from
    it does not improve; the cell [c0] is being expanded, its moves in
    [pending] are still to be made. *)
Definition closed_cheapest (c0 : pos) (pending : list pos) (closed : gset pos)
    (g : gmap pos num) : Prop :=
  forall c, c ∈ closed ->
    c ≠ end_ ∧
    ∃ z, g !! c = Some (Fin z) ∧
         (forall n', from_start game_map restricted start n' -> position n' = c ->
                     z <= gcost cost_map n') ∧
         forall m, m ∈ cardinal_moves ->
           passable game_map restricted (c.1 + m.1, c.2 + m.2) ->
           (c = c0 ∧ m ∈ pending) ∨
           ∃ z', g !! (c.1 + m.1, c.2 + m.2) = Some (Fin z') ∧
                 z' <= z + cell cost_map (c.1 + m.1, c.2 + m.2).

Definition searching (c0 : pos) (pending : list pos) (s : search_state) : Prop :=
  heap_ok entry_ltb (nodes s) ∧
  entries_cost (nodes s) (g_costs s) ∧
  costs_walked (nodes s) (closed s) (g_costs s) ∧
  closed_cheapest c0 pending (closed s) (g_costs s) ∧
  start ∈ closed s.

(** What is known of a node taken from the open list for expansion: no
    walk to its cell is cheaper than its own. *)
Definition popped_cheapest (c_node : Node) (g : gmap pos num) : Prop :=
  from_start game_map restricted start c_node ∧
  g !! position c_node = Some (Fin (gcost cost_map c_node)) ∧
  forall n', from_start game_map restricted start n' ->
             position n' = position c_node ->
             gcost cost_map c_node <= gcost cost_map n'.

(** The invariant of the whole search: the initial state, or a state
    between two iterations. *)
Definition cheapest_inv (s : search_state) : Prop :=
  s = a_star_init start ∨ ∃ c0, searching c0 [] s.

(** What the search returns: nothing when the goal cannot be reached,
    and else a cheapest walk with its cost. *)
Definition cheapest_out (out : option path * num) : Prop :=
  (out = (None, Inf) ∧ ¬ reach game_map restricted start end_) ∨
  ∃ n, out = (Some (rev (backtrace n)), Fin (gcost cost_map n)) ∧
       from_start game_map restricted start n ∧ position n = end_ ∧
       forall n', from_start game_map restricted start n' -> position n' = end_ ->
                  gcost cost_map n <= gcost cost_map n'.
End cheapest.

(** ** The choice of a target *)

(** Every recorded cost is a number, and every open node has one. *)
Definition costs_finite (s : search_state) : Prop :=
  (forall p v, g_costs s !! p = Some v -> ∃ z, v = Fin z) ∧
  (forall e, e ∈ nodes s -> is_Some (g_costs s !! position e.2)).

(** The target [t] of [available] that [find_path_to_collectible]
    settles on: the search finds the path [pth] to it, and to no target of
    [available] a path that costs less. *)
Definition chosen (g : Game) (restricted_tiles : list Z) (cost_map : grid)
    (available : list pos) (t : pos) (pth : path) (cost : num) : Prop :=
  t ∈ available ∧
  a_star (game_map g) (agent_pos (agent g)) t restricted_tiles (Some cost_map)
    = Ok (Some pth, cost) ∧
  forall t' pth' cost', t' ∈ available ->
    a_star (game_map g) (agent_pos (agent g)) t' restricted_tiles (Some cost_map)
      = Ok (Some pth', cost') ->
    num_leb cost cost' = true.

(** The state of the loop over the targets [seen] so far. *)
Definition best_so_far (g : Game) (restricted_tiles : list Z) (cost_map : grid)
    (seen : list pos) (best : best_choice) : Prop :=
  match best_path best with
  | Some pth =>
    pth ≠ [] ∧ ∃ t z, best_target best = Some t ∧ best_cost best = Fin z ∧
                       chosen g restricted_tiles cost_map seen t pth (Fin z)
  | None =>
    best_cost best = Inf ∧ best_target best = None ∧
    forall t, t ∈ seen ->
      ∃ cost, a_star (game_map g) (agent_pos (agent g)) t restricted_tiles (Some cost_map)
              = Ok (None, cost)
  end.

(** * Facts about the model *)

(** ** Indices of a binary heap *)

Lemma parent_spec (j : nat) :
  (j = 0 ∧ (j - 1) / 2 = 0 ∨ j = 2 * ((j - 1) / 2) + 1 ∨ j = 2 * ((j - 1) / 2) + 2)%nat.
Proof.
  pose proof (Nat.div_mod_eq (j - 1) 2) as E.
  pose proof (Nat.mod_upper_bound (j - 1) 2) as U.
  destruct j as [|j]; [left; split; [done | reflexivity] | right].
  lia.
Qed.

Ltac parents :=
  repeat match goal with
  | |- context [((?j - 1) / 2)%nat] =>
    lazymatch goal with
    | _ : (j = 0 ∧ (j - 1) / 2 = 0 ∨ _)%nat |- _ => fail
    | _ => pose proof (parent_spec j)
    end
  | _ : context [((?j - 1) / 2)%nat] |- _ =>
    lazymatch goal with
    | _ : (j = 0 ∧ (j - 1) / 2 = 0 ∨ _)%nat |- _ => fail
    | _ => pose proof (parent_spec j)
    end
  end.


(** ** Lists as arrays: exchanging the contents of two cells *)

Lemma delete_insert_same {A} (l : list A) (i : nat) (a : A) :
  delete i (<[i := a]> l) = delete i l.
Proof.
  revert i. induction l as [|x l IH]; intros [|i]; simpl; try done.
  by rewrite IH.
Qed.

Lemma insert_Permutation {A} (l : list A) (i : nat) (a : A) :
  (i < length l)%nat -> <[i := a]> l ≡ₚ a :: delete i l.
Proof.
  intros Hi.
  rewrite (delete_Permutation (<[i := a]> l) i a).
  - by rewrite delete_insert_same.
  - by apply list_lookup_insert_eq.
Qed.

Lemma insert_move_Permutation {A} (l : list A) (i j : nat) (a b : A) :
  i ≠ j -> (i < length l)%nat -> l !! j = Some b ->
  <[j := a]> (<[i := b]> l) ≡ₚ <[i := a]> l.
Proof.
  intros Hij Hi Hj.
  assert (Hjl : (j < length l)%nat) by (eapply lookup_lt_Some; eauto).
  rewrite (insert_Permutation (<[i := b]> l) j a) by (by rewrite length_insert).
  rewrite (insert_Permutation l i a) by done.
  apply Permutation_skip.
  apply (Permutation_cons_inv (a := b)).
  rewrite <- (delete_Permutation (<[i := b]> l) j b)
    by (by rewrite list_lookup_insert_ne).
  by apply insert_Permutation.
Qed.

(** ** The heap operations keep the entries *)

Section heapq_perm.
Context {A : Type} (lt : A -> A -> bool).

Lemma _siftdown_loop_length fuel (heap : list A) newitem startpos pos :
  length (heapq._siftdown_loop lt fuel heap newitem startpos pos) = length heap.
Proof.
  revert heap pos.
  induction fuel as [|fuel IH]; intros heap pos; simpl.
  - by rewrite length_insert.
  - repeat case_match; rewrite ?IH, ?length_insert; done.
Qed.

Lemma _siftdown_loop_perm fuel (heap : list A) newitem startpos pos :
  (pos < length heap)%nat ->
  heapq._siftdown_loop lt fuel heap newitem startpos pos ≡ₚ <[pos := newitem]> heap.
Proof.
  revert heap pos.
  induction fuel as [|fuel IH]; intros heap pos Hpos;
    cbn [heapq._siftdown_loop]; [done|].
  destruct (startpos <? pos)%nat eqn:Hlt; [|done].
  apply Nat.ltb_lt in Hlt.
  destruct (heap !! ((pos - 1) / 2)%nat) as [par|] eqn:Hpar; [|done].
  destruct (lt newitem par); [|done].
  assert (((pos - 1) / 2 < pos)%nat) by (parents; lia).
  rewrite IH by (rewrite length_insert; lia).
  apply insert_move_Permutation; [lia | done | done].
Qed.

Lemma _siftdown_perm (heap : list A) startpos pos :
  heapq._siftdown lt heap startpos pos ≡ₚ heap.
Proof.
  unfold heapq._siftdown.
  destruct (heap !! pos) as [x|] eqn:Hx; [|done].
  rewrite _siftdown_loop_perm by (eapply lookup_lt_Some; eauto).
  by rewrite list_insert_id.
Qed.

Lemma _siftup_loop_length fuel (heap : list A) endpos pos :
  length (heapq._siftup_loop lt fuel heap endpos pos).1 = length heap.
Proof.
  revert heap pos.
  induction fuel as [|fuel IH]; intros heap pos; simpl; [done|].
  repeat case_match; simpl; rewrite ?IH, ?length_insert; done.
Qed.

(** While the smaller children move up, the heap with [newitem] put in
    the hole is a permutation of what it was. *)
Lemma _siftup_loop_perm fuel (heap : list A) endpos pos newitem :
  (pos < length heap)%nat ->
  let r := heapq._siftup_loop lt fuel heap endpos pos in
  (r.2 < length heap)%nat ∧ <[r.2 := newitem]> r.1 ≡ₚ <[pos := newitem]> heap.
Proof.
  revert heap pos.
  induction fuel as [|fuel IH]; intros heap pos Hpos;
    cbn [heapq._siftup_loop]; [done|].
  destruct (2 * pos + 1 <? endpos)%nat eqn:Hlt; [|done].
  set (c := match heap !! (2 * pos + 1)%nat with
            | Some c0 => _ | None => _ end).
  destruct (heap !! c) as [x|] eqn:Hx; [|done].
  assert (Hc : (c < length heap)%nat) by (eapply lookup_lt_Some; eauto).
  assert (Hne : pos ≠ c).
  { subst c. repeat case_match; lia. }
  destruct (IH (<[pos := x]> heap) c) as [H1 H2];
    [by rewrite length_insert|].
  rewrite length_insert in H1. split; [done|].
  rewrite H2. by apply insert_move_Permutation.
Qed.

Lemma _siftup_perm (heap : list A) pos : heapq._siftup lt heap pos ≡ₚ heap.
Proof.
  unfold heapq._siftup.
  destruct (heap !! pos) as [x|] eqn:Hx; [|done].
  assert (Hpos : (pos < length heap)%nat) by (eapply lookup_lt_Some; eauto).
  pose proof (_siftup_loop_perm (length heap) heap (length heap) pos x Hpos) as H.
  destruct (heapq._siftup_loop lt (length heap) heap (length heap) pos)
    as [heap' leaf]; simpl in H.
  destruct H as [_ H]. rewrite _siftdown_perm, H.
  by rewrite list_insert_id.
Qed.

Lemma heappush_perm (heap : list A) item :
  heapq.heappush lt heap item ≡ₚ item :: heap.
Proof.
  unfold heapq.heappush. rewrite _siftdown_perm.
  by rewrite Permutation_app_comm.
Qed.

Lemma heappop_perm (heap : list A) item rest :
  heapq.heappop lt heap = Some (item, rest) -> heap ≡ₚ item :: rest.
Proof.
  unfold heapq.heappop.
  destruct (last heap) as [lastelt|] eqn:Hlast; [|done].
  apply last_Some in Hlast as [front ->].
  rewrite removelast_last.
  destruct front as [|returnitem front]; intros [= <- <-]; [done|].
  rewrite _siftup_perm. simpl.
  apply Permutation_skip. by rewrite Permutation_app_comm.
Qed.

Lemma heappop_nonempty (heap : list A) :
  heap ≠ [] -> is_Some (heapq.heappop lt heap).
Proof.
  intros Hne. unfold heapq.heappop.
  destruct (last heap) eqn:Hlast.
  - destruct (removelast heap); eauto.
  - apply last_None in Hlast. done.
Qed.
End heapq_perm.

(** ** The heap operations keep the heap order *)

Section heapq_order.
Context {A : Type} (lt : A -> A -> bool).
Hypothesis lt_asym : forall a b, lt a b = true -> lt b a = false.
Hypothesis le_trans : forall a b c,
  lt b a = false -> lt c b = false -> lt c a = false.

Lemma hole_ok_insert (h : list A) pos x :
  hole_ok lt h pos -> hole_ok lt (<[pos := x]> h) pos.
Proof.
  intros [Ha Hc]. split.
  - intros j a b Hj Nj Npj Hpa Hch.
    rewrite list_lookup_insert_ne in Hpa, Hch by done. eauto.
  - intros j a b Hpos Hj Ej Hpa Hch.
    rewrite list_lookup_insert_ne in Hpa, Hch by (parents; lia). eauto.
Qed.

Lemma place_ok (h : list A) item pos :
  (pos < length h)%nat -> hole_ok lt h pos -> above_ok lt h item pos ->
  (pos = 0%nat ∨ ∃ par, h !! ((pos - 1) / 2)%nat = Some par ∧ lt item par = false) ->
  heap_ok lt (<[pos := item]> h).
Proof.
  intros Hpos [Ha Hc] Hb Hexit j a b Hj Hpa Hch.
  apply list_lookup_insert_Some in Hpa as [(Ep & <- & _)|(Np & Hpa)];
    apply list_lookup_insert_Some in Hch as [(Ec & <- & _)|(Nc & Hch)].
  - parents; lia.
  - eapply Hb; eauto.
  - destruct Hexit as [->|(par & Hpar & Hle)]; [lia|].
    subst j. congruence.
  - eapply Ha; eauto.
Qed.

Lemma _siftdown_loop_ok fuel (h : list A) item pos :
  (pos <= fuel)%nat -> (pos < length h)%nat ->
  hole_ok lt h pos -> above_ok lt h item pos ->
  heap_ok lt (heapq._siftdown_loop lt fuel h item 0 pos).
Proof.
  revert h pos.
  induction fuel as [|fuel IH]; intros h pos Hfuel Hpos Hhole Habove;
    cbn [heapq._siftdown_loop].
  { apply place_ok; auto. left; lia. }
  destruct (0 <? pos)%nat eqn:Hlt; [|apply place_ok; auto].
  2:{ apply Nat.ltb_ge in Hlt. left; lia. }
  apply Nat.ltb_lt in Hlt.
  destruct (h !! ((pos - 1) / 2)%nat) as [par|] eqn:Hpar.
  2:{ apply lookup_ge_None in Hpar. parents; lia. }
  destruct (lt item par) eqn:Hcmp; [|apply place_ok; eauto].
  assert (Hpp : ((pos - 1) / 2 < pos)%nat) by (parents; lia).
  destruct Hhole as [Ha Hc].
  apply IH; [lia | rewrite length_insert; lia | split |].
  - intros j a b Hj Nj Npj Hpa Hch.
    apply list_lookup_insert_Some in Hch as [(Ec & <- & _)|(Nc & Hch)];
      [congruence|].
    apply list_lookup_insert_Some in Hpa as [(Ep & <- & _)|(Np & Hpa)].
    + eapply Hc; eauto.
    + eapply Ha; eauto.
  - intros j a b Hppos Hj Ej Hpa Hch.
    assert (((pos - 1) / 2 - 1) / 2 < (pos - 1) / 2)%nat by (parents; lia).
    rewrite list_lookup_insert_ne in Hpa by lia.
    assert (Hgp : lt par a = false).
    { eapply (Ha ((pos - 1) / 2)%nat); eauto; parents; lia. }
    apply list_lookup_insert_Some in Hch as [(Ec & <- & _)|(Nc & Hch)]; [done|].
    eapply le_trans; [exact Hgp|].
    eapply (Ha j); [lia | lia | parents; lia | rewrite Ej; exact Hpar | exact Hch].
  - intros j b Hj Ej Hch.
    apply list_lookup_insert_Some in Hch as [(Ec & <- & _)|(Nc & Hch)].
    + by apply lt_asym.
    + eapply le_trans; [apply lt_asym; exact Hcmp|].
      eapply (Ha j); [lia | lia | parents; lia | rewrite Ej; exact Hpar | exact Hch].
Qed.

Lemma heap_ok_hole_last (h : list A) item :
  heap_ok lt h ->
  hole_ok lt (h ++ [item]) (length h) ∧ above_ok lt (h ++ [item]) item (length h).
Proof.
  intros Hok. split; [split|].
  - intros j a b Hj Nj Npj Hpa Hch.
    assert (Hlen : (j < length (h ++ [item]))%nat) by (eapply lookup_lt_Some; eauto).
    rewrite length_app in Hlen; cbn [length] in Hlen.
    rewrite lookup_app_l in Hch by lia.
    rewrite lookup_app_l in Hpa by (parents; lia).
    eapply Hok; eauto.
  - intros j a b _ Hj Ej _ Hch.
    assert (Hlen : (j < length (h ++ [item]))%nat) by (eapply lookup_lt_Some; eauto).
    rewrite length_app in Hlen; cbn [length] in Hlen. parents; lia.
  - intros j b Hj Ej Hch.
    assert (Hlen : (j < length (h ++ [item]))%nat) by (eapply lookup_lt_Some; eauto).
    rewrite length_app in Hlen; cbn [length] in Hlen. parents; lia.
Qed.

Lemma heappush_ok (h : list A) item :
  heap_ok lt h -> heap_ok lt (heapq.heappush lt h item).
Proof.
  intros Hok. unfold heapq.heappush, heapq._siftdown.
  rewrite length_app; simpl.
  replace (length h + 1 - 1)%nat with (length h) by lia.
  rewrite lookup_app_r, Nat.sub_diag by lia; simpl.
  destruct (heap_ok_hole_last h item Hok).
  apply _siftdown_loop_ok; auto.
  rewrite length_app; simpl; lia.
Qed.

(** Moving the smaller child up keeps the hole invariant. *)
Lemma _siftup_loop_ok fuel (h : list A) pos :
  (pos < length h)%nat -> hole_ok lt h pos ->
  let r := heapq._siftup_loop lt fuel h (length h) pos in
  (length h <= fuel + pos)%nat ->
  (r.2 < length h)%nat ∧ (length h <= 2 * r.2 + 1)%nat ∧ hole_ok lt r.1 r.2.
Proof.
  revert h pos.
  induction fuel as [|fuel IH]; intros h pos Hpos Hhole;
    cbn [heapq._siftup_loop]; cbn zeta.
  { simpl. intros. split; [done|]. split; [lia|done]. }
  destruct (2 * pos + 1 <? length h)%nat eqn:Hlt.
  2:{ apply Nat.ltb_ge in Hlt. simpl. intros. split; [done|]. split; [lia|done]. }
  apply Nat.ltb_lt in Hlt.
  destruct (h !! (2 * pos + 1)%nat) as [cl|] eqn:Hcl.
  2:{ apply lookup_ge_None in Hcl. lia. }
  set (c := match h !! (2 * pos + 1 + 1)%nat with
            | Some r => _ | None => _ end).
  assert (Hc : (c = 2 * pos + 1 ∨ c = 2 * pos + 2)%nat ∧ (c < length h)%nat ∧
               forall x y, h !! c = Some x ->
                 h !! (if decide (c = 2 * pos + 1)%nat then 2 * pos + 2 else 2 * pos + 1)%nat = Some y ->
                 lt y x = false).
  { subst c. destruct (h !! (2 * pos + 1 + 1)%nat) as [cr|] eqn:Hcr.
    - assert (2 * pos + 1 + 1 < length h)%nat by (eapply lookup_lt_Some; eauto).
      destruct (2 * pos + 1 + 1 <? length h)%nat eqn:Hr; cbn [andb].
      2:{ apply Nat.ltb_ge in Hr. lia. }
      destruct (lt cl cr) eqn:Hcmp; cbn [negb].
      + split; [lia|]. split; [lia|]. intros x y Hx Hy.
        rewrite decide_True in Hy by lia.
        replace (2 * pos + 2)%nat with (2 * pos + 1 + 1)%nat in Hy by lia.
        assert (x = cl) by congruence. assert (y = cr) by congruence. subst.
        by apply lt_asym.
      + split; [lia|]. split; [lia|]. intros x y Hx Hy.
        rewrite decide_False in Hy by lia.
        assert (x = cr) by congruence. assert (y = cl) by congruence. by subst.
    - split; [lia|]. split; [lia|]. intros x y Hx Hy.
      rewrite decide_True in Hy by lia.
      replace (2 * pos + 2)%nat with (2 * pos + 1 + 1)%nat in Hy by lia.
      congruence. }
  clearbody c. destruct Hc as (Hcc & Hclen & Hsmall).
  destruct (h !! c) as [x|] eqn:Hx.
  2:{ apply lookup_ge_None in Hx. lia. }
  intros Hfuel.
  destruct Hhole as [Ha Hcg].
  destruct (IH (<[pos := x]> h) c) as (R1 & R2 & R3).
  - by rewrite length_insert.
  - split.
    + intros j a b Hj Nj Npj Hpa Hch.
      apply list_lookup_insert_Some in Hch as [(Ec & <- & _)|(Nc & Hch)].
      * subst j. rewrite list_lookup_insert_ne in Hpa by (parents; lia).
        eapply (Hcg c); [lia | lia | parents; lia | exact Hpa | exact Hx].
      * apply list_lookup_insert_Some in Hpa as [(Ep & <- & _)|(Np & Hpa)].
        -- eapply Hsmall; [done|].
           assert (j = if decide (c = 2 * pos + 1)%nat then 2 * pos + 2 else 2 * pos + 1)%nat
             as <-; [case_decide; parents; lia | done].
        -- eapply Ha; eauto.
    + intros j a b Hcpos Hj Ej Hpa Hch.
      replace ((c - 1) / 2)%nat with pos in Hpa by (parents; lia).
      rewrite list_lookup_insert_eq in Hpa by lia.
      rewrite list_lookup_insert_ne in Hch by (parents; lia).
      injection Hpa as <-.
      eapply (Ha j); [lia | parents; lia | parents; lia | rewrite Ej; exact Hx | exact Hch].
  - rewrite length_insert. lia.
  - rewrite length_insert in *. done.
Qed.

Lemma heap_ok_app (h k : list A) : heap_ok lt (h ++ k) -> heap_ok lt h.
Proof.
  intros Hok j a b Hj Hpa Hch.
  eapply Hok; eauto using lookup_app_l_Some.
Qed.

Lemma heap_ok_root (h : list A) r :
  heap_ok lt h -> h !! 0%nat = Some r -> forall x, x ∈ h -> lt x r = false.
Proof.
  intros Hok Hr x Hx. apply list_elem_of_lookup in Hx as [j Hj].
  revert x Hj. induction (lt_wf j) as [j _ IH]. intros x Hj.
  destruct (decide (j = 0)%nat) as [->|Nj].
  - assert (x = r) as -> by congruence.
    destruct (lt r r) eqn:E; [|done]. by rewrite (lt_asym _ _ E) in E.
  - assert (Hp : ((j - 1) / 2 < j)%nat) by (parents; lia).
    destruct (h !! ((j - 1) / 2)%nat) as [a|] eqn:Ha.
    2:{ apply lookup_ge_None in Ha. apply lookup_lt_Some in Hj. lia. }
    eapply le_trans; [eapply IH; eauto|].
    eapply (Hok j); [lia | done | done].
Qed.

Lemma _siftup_ok (h : list A) :
  hole_ok lt h 0 -> heap_ok lt (heapq._siftup lt h 0).
Proof.
  intros Hhole. unfold heapq._siftup.
  destruct (h !! 0%nat) as [newitem|] eqn:Hnew.
  2:{ apply lookup_ge_None in Hnew. destruct h; [|simpl in Hnew; lia].
      by intros j a b _ Hpa. }
  assert (Hpos : (0 < length h)%nat) by (eapply lookup_lt_Some; eauto).
  pose proof (_siftup_loop_ok (length h) h 0 Hpos Hhole) as H.
  pose proof (_siftup_loop_length lt (length h) h (length h) 0) as Hlen.
  destruct (heapq._siftup_loop lt (length h) h (length h) 0) as [h' leaf].
  cbn [fst snd] in H, Hlen. destruct H as (H1 & H2 & H3); [lia|].
  unfold heapq._siftdown.
  rewrite list_lookup_insert_eq by lia.
  apply _siftdown_loop_ok; auto.
  - rewrite length_insert; lia.
  - by apply hole_ok_insert.
  - intros j b Hj Ej Hch. apply lookup_lt_Some in Hch.
    rewrite length_insert in Hch. parents; lia.
Qed.

Lemma heappop_ok (h : list A) item rest :
  heap_ok lt h -> heapq.heappop lt h = Some (item, rest) ->
  heap_ok lt rest ∧ forall x, x ∈ h -> lt x item = false.
Proof.
  intros Hok. unfold heapq.heappop.
  destruct (last h) as [lastelt|] eqn:Hlast; [|done].
  apply last_Some in Hlast as [front ->].
  rewrite removelast_last.
  destruct front as [|returnitem front]; intros [= <- <-].
  - split; [by intros j a b _ Hpa|].
    intros x Hx. eapply heap_ok_root; eauto.
  - split; [|intros x Hx; eapply heap_ok_root; eauto].
    apply heap_ok_app in Hok.
    change (<[0%nat := lastelt]> (returnitem :: front)) with (lastelt :: front).
    apply _siftup_ok. split; [|intros; lia].
    intros j a b Hj _ Npj Hpa Hch.
    eapply (Hok j); eauto.
    + destruct ((j - 1) / 2)%nat; [done | exact Hpa].
    + destruct j; [lia | exact Hch].
Qed.
End heapq_order.

(** ** Outcomes *)

Lemma bind_Ok {A B} (m : res A) (f : A -> res B) (b : B) :
  m ≫= f = Ok b <-> ∃ a, m = Ok a ∧ f a = Ok b.
Proof.
  destruct m; simpl; split.
  - eauto.
  - by intros (a' & [= <-] & H).
  - done.
  - by intros (a' & [=] & H).
  - done.
  - by intros (a' & [=] & H).
Qed.

Lemma Ok_bind {A B} (a : A) (f : A -> res B) : Ok a ≫= f = f a.
Proof. done. Qed.

Ltac res_inv H :=
  let a := fresh "a" in
  let E := fresh "E" in
  apply bind_Ok in H as (a & E & H).

Lemma foldM_inv {A S} (f : S -> A -> res S) (P : S -> Prop) (l : list A) s s' :
  (forall s x s', x ∈ l -> P s -> f s x = Ok s' -> P s') ->
  P s -> foldM f s l = Ok s' -> P s'.
Proof.
  revert s. induction l as [|x l IH]; intros s Hstep Hs Hfold; simpl in Hfold.
  - by injection Hfold as <-.
  - res_inv Hfold. eapply IH; [|eapply Hstep|]; eauto using list_elem_of_here.
    intros ? ? ? ?. apply Hstep. by apply list_elem_of_further.
Qed.

Lemma foldM_total {A S} (f : S -> A -> res S) (P : S -> Prop) (l : list A) s :
  (forall s x, x ∈ l -> P s -> ∃ s', f s x = Ok s' ∧ P s') ->
  P s -> ∃ s', foldM f s l = Ok s' ∧ P s'.
Proof.
  revert s. induction l as [|x l IH]; intros s Hstep Hs; simpl; [eauto|].
  destruct (Hstep s x) as (s1 & -> & H1); [apply list_elem_of_here | done |].
  simpl. apply IH; [|done].
  intros ? ? ? ?. apply Hstep; [by apply list_elem_of_further | done].
Qed.

(** ** Grids *)

Lemma in_bounds_spec (p : pos) :
  in_bounds p = true <->
  0 <= p.1 < GRID_WIDTH_CELLS ∧ 0 <= p.2 < GRID_HEIGHT_CELLS.
Proof. unfold in_bounds. lia. Qed.

Lemma py_getitem_lookup {A} (l : list A) (i : Z) (a : A) :
  0 <= i -> l !! Z.to_nat i = Some a -> py_getitem l i = Ok a.
Proof.
  intros Hi Hl. unfold py_getitem, py_index.
  apply lookup_lt_Some in Hl as Hlen.
  replace ((0 <=? i) && (i <? Z.of_nat (length l))) with true by lia.
  by rewrite Hl.
Qed.

Lemma grid_get_wf (g : grid) (p : pos) :
  wf_grid g -> in_bounds p = true -> grid_get g p.1 p.2 = Ok (cell g p).
Proof.
  intros [Hh Hw] Hp. apply in_bounds_spec in Hp.
  unfold GRID_WIDTH_CELLS, GRID_HEIGHT_CELLS in *.
  assert (∃ t, grid_get g p.1 p.2 = Ok t) as [t Ht]; [|by unfold cell; rewrite Ht].
  unfold grid_get.
  destruct (lookup_lt_is_Some_2 g (Z.to_nat p.2)) as [row Hrow]; [lia|].
  rewrite (py_getitem_lookup g p.2 row) by (done || lia). simpl.
  assert (length row = Z.to_nat 25) as Hlen.
  { eapply (proj1 (Forall_forall _ _) Hw). by eapply list_elem_of_lookup_2. }
  destruct (lookup_lt_is_Some_2 row (Z.to_nat p.1)) as [t Ht]; [lia|].
  exists t. by apply py_getitem_lookup; [lia|].
Qed.

Lemma wf_uniform_cost_map : wf_grid uniform_cost_map.
Proof.
  unfold wf_grid, uniform_cost_map. split; [by rewrite length_replicate|].
  apply Forall_replicate. by rewrite length_replicate.
Qed.

Lemma cell_uniform_cost_map (p : pos) :
  in_bounds p = true -> cell uniform_cost_map p = 1.
Proof.
  intros Hp. apply in_bounds_spec in Hp.
  unfold GRID_WIDTH_CELLS, GRID_HEIGHT_CELLS in *.
  unfold cell, grid_get, uniform_cost_map.
  rewrite (py_getitem_lookup _ p.2 (replicate (Z.to_nat GRID_WIDTH_CELLS) 1));
    [rewrite Ok_bind | lia | apply lookup_replicate_2; unfold GRID_HEIGHT_CELLS; lia].
  rewrite (py_getitem_lookup _ p.1 1);
    [done | lia | apply lookup_replicate_2; unfold GRID_WIDTH_CELLS; lia].
Qed.

Lemma elem_of_all_cells (p : pos) : p ∈ all_cells <-> in_bounds p = true.
Proof.
  rewrite in_bounds_spec. unfold all_cells, range.
  rewrite list_elem_of_bind. split.
  - intros (y & Hx & Hy). apply list_elem_of_bind in Hx as (x & Hp & Hx).
    apply list_elem_of_singleton in Hp as ->.
    apply elem_of_seqZ in Hx, Hy. simpl. lia.
  - intros [Hx Hy]. exists p.2. split; [|apply elem_of_seqZ; lia].
    apply list_elem_of_bind. exists p.1. split; [|apply elem_of_seqZ; lia].
    destruct p. apply list_elem_of_singleton. done.
Qed.

(** ** The order of the open list *)

Lemma entry_ltb_spec (a b : entry) : entry_ltb a b = num_ltb a.1 b.1.
Proof.
  unfold entry_ltb, num_eqb, Node_ltb, Node_f.
  case_bool_decide as E; simpl; [|done].
  rewrite E.
  assert (num_ltb b.1 b.1 = false) as -> by (destruct b.1; simpl; [lia | done]).
  by destruct (negb _).
Qed.

Lemma entry_ltb_asym (a b : entry) : entry_ltb a b = true -> entry_ltb b a = false.
Proof.
  rewrite !entry_ltb_spec. destruct a.1, b.1; simpl; try done; lia.
Qed.

Lemma entry_leb_trans (a b c : entry) :
  entry_ltb b a = false -> entry_ltb c b = false -> entry_ltb c a = false.
Proof.
  rewrite !entry_ltb_spec. destruct a.1, b.1, c.1; simpl; try done; lia.
Qed.

(** ** One iteration of the search *)

Section a_star_step.
Context (game_map : grid) (end_ : pos) (restricted : list Z) (cost_map : grid).

#[local] Abbreviation relax_cases := (relax_cases game_map end_ restricted cost_map).
#[local] Abbreviation relax_out := (relax_out game_map end_ restricted cost_map).
#[local] Abbreviation relax_skip := (relax_skip game_map end_ restricted cost_map).
#[local] Abbreviation relax_keep := (relax_keep game_map end_ restricted cost_map).
#[local] Abbreviation relax_push := (relax_push game_map end_ restricted cost_map).
#[local] Abbreviation step_cases := (step_cases game_map end_ restricted cost_map).
#[local] Abbreviation step_empty := (step_empty game_map end_ restricted cost_map).
#[local] Abbreviation step_goal := (step_goal game_map end_ restricted cost_map).
#[local] Abbreviation step_closed := (step_closed game_map end_ restricted cost_map).
#[local] Abbreviation step_expand := (step_expand game_map end_ restricted cost_map).

Lemma relax_spec c_node closed st move st' :
  relax game_map end_ restricted cost_map c_node closed st move = Ok st' ->
  relax_cases c_node closed st move st'.
Proof.
  unfold relax. destruct st as [nodes g_costs].
  set (p := ((position c_node).1 + move.1, (position c_node).2 + move.2)).
  destruct (in_bounds p) eqn:Hin; simpl.
  2:{ intros [= <-]. by apply relax_out. }
  intros H. res_inv H. rename a into tile.
  destruct (tile_in tile restricted) eqn:Htile; simpl in H.
  { injection H as <-. eapply relax_skip; eauto. }
  case_bool_decide as Hcl.
  { injection H as <-. eapply relax_skip; eauto. }
  res_inv H. rename a into c.
  destruct (num_ltb _ _) eqn:Hlt; injection H as <-.
  - eapply (relax_push _ _ (nodes, g_costs)); eauto.
  - eapply (relax_keep _ _ (nodes, g_costs)); eauto.
Qed.

Lemma relax_total c_node closed st move :
  wf_grid game_map -> wf_grid cost_map ->
  ∃ st', relax game_map end_ restricted cost_map c_node closed st move = Ok st'.
Proof.
  intros Hg Hc. unfold relax. destruct st as [nodes g_costs].
  set (p := ((position c_node).1 + move.1, (position c_node).2 + move.2)).
  destruct (in_bounds p) eqn:Hin; cbn [negb]; [|eauto].
  rewrite (grid_get_wf game_map p), Ok_bind by done.
  destruct (_ || _); [eauto|].
  rewrite (grid_get_wf cost_map p), Ok_bind by done.
  destruct (num_ltb _ _); eauto.
Qed.

Lemma a_star_step_spec s r :
  a_star_step game_map end_ restricted cost_map s = Ok r -> step_cases s r.
Proof.
  unfold a_star_step.
  destruct (nodes s) as [|e l] eqn:Hnodes.
  { intros [= <-]. by apply step_empty. }
  rewrite <- Hnodes.
  destruct (heapq.heappop entry_ltb (nodes s)) as [[[f c_node] rest]|] eqn:Hpop;
    [|done].
  case_bool_decide as Hend.
  { intros [= <-]. eapply step_goal; eauto. }
  case_bool_decide as Hcl.
  { intros [= <-]. eapply step_closed; eauto. }
  intros H. res_inv H. destruct a as [nodes' g_costs'].
  injection H as <-. eapply step_expand; eauto.
Qed.

Lemma a_star_step_total s :
  wf_grid game_map -> wf_grid cost_map ->
  ∃ r, a_star_step game_map end_ restricted cost_map s = Ok r.
Proof.
  intros Hg Hc. unfold a_star_step.
  destruct (nodes s) as [|e l] eqn:Hnodes; [eauto|].
  rewrite <- Hnodes.
  destruct (heappop_nonempty entry_ltb (nodes s)) as [[[f c_node] rest] ->];
    [by rewrite Hnodes|].
  repeat case_bool_decide; eauto.
  edestruct (foldM_total
    (relax game_map end_ restricted cost_map c_node ({[position c_node]} ∪ closed s))
    (fun _ => True) cardinal_moves (rest, g_costs s)) as (st' & -> & _); [|done|].
  - intros st m _ _. destruct (relax_total c_node ({[position c_node]} ∪ closed s) st m)
      as [st' ->]; eauto.
  - destruct st'. simpl. eauto.
Qed.

(** Invariants of the loop. *)
Lemma a_star_loop_inv (Inv : search_state -> Prop) (Post : option path * num -> Prop) :
  (forall s s', Inv s ->
     a_star_step game_map end_ restricted cost_map s = Ok (inl s') -> Inv s') ->
  (forall s out, Inv s ->
     a_star_step game_map end_ restricted cost_map s = Ok (inr out) -> Post out) ->
  forall fuel s out, Inv s ->
    a_star_loop game_map end_ restricted cost_map fuel s = Ok out -> Post out.
Proof.
  intros Hstep Hout. induction fuel as [|fuel IH]; intros s out Hs Hloop;
    simpl in Hloop; [done|].
  res_inv Hloop. destruct a as [s'|out']; [eauto|].
  injection Hloop as <-. eauto.
Qed.

(** The loop returns when it is given more fuel than the measure. *)
Lemma a_star_loop_total (Inv : search_state -> Prop) (mu : search_state -> nat) :
  (forall s, Inv s -> ∃ r, a_star_step game_map end_ restricted cost_map s = Ok r) ->
  (forall s s', Inv s ->
     a_star_step game_map end_ restricted cost_map s = Ok (inl s') ->
     Inv s' ∧ (mu s' < mu s)%nat) ->
  forall fuel s, Inv s -> (mu s < fuel)%nat ->
    ∃ out, a_star_loop game_map end_ restricted cost_map fuel s = Ok out.
Proof.
  intros Htot Hstep. induction fuel as [|fuel IH]; intros s Hs Hmu; [lia|].
  simpl. destruct (Htot s Hs) as [[s'|out] Hr]; rewrite Hr; simpl; [|eauto].
  destruct (Hstep s s' Hs Hr). apply IH; [done|lia].
Qed.
End a_star_step.

(** ** Walks from the start *)

Lemma connected_snoc (l : path) (p q : pos) :
  connected l -> last l = Some p -> adjacent p q -> connected (l ++ [q]).
Proof.
  induction l as [|a [|b l] IH]; intros Hc Hl Ha; [done | |].
  - injection Hl as ->. simpl. done.
  - destruct Hc as [Hab Hc]. split; [done|]. apply IH; auto.
Qed.

Section walks.
Context (game_map : grid) (restricted : list Z) (start : pos).

Lemma from_start_path (n : Node) :
  from_start game_map restricted start n ->
  ∃ rest, rev (backtrace n) = start :: rest ∧
          Forall (passable game_map restricted) rest ∧
          last (rev (backtrace n)) = Some (position n) ∧
          connected (rev (backtrace n)).
Proof.
  induction 1 as [|n q Hn (rest & E & Hrest & Hlast & Hconn) Hadj Hq].
  - exists []. simpl. done.
  - exists (rest ++ [q]).
    change (rev (backtrace (mkNode q (Some n))))
      with (rev (backtrace n) ++ [q]).
    rewrite E. repeat split.
    + apply Forall_app. split; [done|]. by apply Forall_singleton.
    + rewrite <- E. by rewrite last_snoc.
    + rewrite <- E. eapply connected_snoc; eauto.
Qed.

Lemma from_start_reach (n : Node) :
  from_start game_map restricted start n ->
  reach game_map restricted start (position n).
Proof.
  induction 1; [apply reach_start | eapply reach_move; eauto].
Qed.

Lemma from_start_bounds (n : Node) :
  from_start game_map restricted start n ->
  position n = start ∨ in_bounds (position n) = true.
Proof. destruct 1 as [|? ? ? ? [? ?]]; auto. Qed.
End walks.

(** ** The invariant of the search *)

Lemma cell_grid_get (g : grid) (p : pos) (t : Z) :
  grid_get g p.1 p.2 = Ok t -> cell g p = t.
Proof. unfold cell. by intros ->. Qed.

Section search.
Context (game_map : grid) (end_ : pos) (restricted : list Z) (cost_map : grid).
Context (start : pos).

Lemma search_inv_init :
  search_inv game_map restricted start (a_star_init start).
Proof.
  split; simpl.
  - intros e He. apply list_elem_of_singleton in He as ->. constructor.
  - intros p Hp. set_solver.
Qed.

Lemma relax_from_start (c_node : Node) (closed : gset pos) st move st' :
  move ∈ cardinal_moves ->
  from_start game_map restricted start c_node ->
  (forall e, e ∈ st.1 -> from_start game_map restricted start e.2) ->
  relax game_map end_ restricted cost_map c_node closed st move = Ok st' ->
  (forall e, e ∈ st'.1 -> from_start game_map restricted start e.2) ∧
  (length st'.1 <= S (length st.1))%nat.
Proof.
  intros Hmove Hc Hst Hrelax. apply relax_spec in Hrelax.
  destruct Hrelax as [| | |tile c p new_g Hin Htile Hfree Hcl Hc' Hlt];
    try (split; [done | lia]).
  cbn [fst snd]. split.
  - intros e He. rewrite heappush_perm in He.
    apply elem_of_cons in He as [->|He]; [|by apply Hst].
    apply from_start_child; [done | by exists move |].
    split; [done|]. by rewrite (cell_grid_get _ _ _ Htile).
  - rewrite heappush_perm. simpl. lia.
Qed.

Lemma expand_from_start (c_node : Node) (closed : gset pos) moves st st' :
  moves ⊆ cardinal_moves ->
  from_start game_map restricted start c_node ->
  (forall e, e ∈ st.1 -> from_start game_map restricted start e.2) ->
  foldM (relax game_map end_ restricted cost_map c_node closed) st moves = Ok st' ->
  (forall e, e ∈ st'.1 -> from_start game_map restricted start e.2) ∧
  (length st'.1 <= length moves + length st.1)%nat.
Proof.
  intros Hsub Hc. revert st.
  induction moves as [|m moves IH]; intros st Hst Hfold; simpl in Hfold.
  - injection Hfold as <-. split; [done | simpl; lia].
  - res_inv Hfold.
    destruct (relax_from_start c_node closed st m a) as [H1 H2]; auto.
    { apply Hsub, list_elem_of_here. }
    destruct (IH ltac:(set_solver -IH) a H1 Hfold) as [H3 H4].
    split; [done | simpl; lia].
Qed.

Lemma heappop_elem_of (h : list entry) e rest x :
  heapq.heappop entry_ltb h = Some (e, rest) -> x ∈ h <-> x = e ∨ x ∈ rest.
Proof.
  intros Hpop. rewrite (heappop_perm _ _ _ _ Hpop). apply elem_of_cons.
Qed.

Lemma heappop_length (h : list entry) e rest :
  heapq.heappop entry_ltb h = Some (e, rest) -> length h = S (length rest).
Proof. intros Hpop. by rewrite (heappop_perm _ _ _ _ Hpop). Qed.

Lemma search_inv_step s s' :
  search_inv game_map restricted start s ->
  a_star_step game_map end_ restricted cost_map s = Ok (inl s') ->
  search_inv game_map restricted start s'.
Proof.
  intros [Hn Hc] Hstep. apply a_star_step_spec in Hstep.
  inversion Hstep as [| |f c rest Hpop Hend Hcl|f c rest nodes' g' Hpop Hend Hcl Hfold];
    subst; split; cbn [nodes closed].
  - intros e He. apply Hn. rewrite (heappop_elem_of _ _ _ _ Hpop). auto.
  - done.
  - assert (Hcn : from_start game_map restricted start c).
    { apply (Hn (f, c)). rewrite (heappop_elem_of _ _ _ _ Hpop). auto. }
    destruct (expand_from_start c ({[position c]} ∪ closed s) cardinal_moves
               (rest, g_costs s) (nodes', g'))
      as [H1 _]; [done | exact Hcn | | exact Hfold | exact H1].
    intros e He. apply Hn. rewrite (heappop_elem_of _ _ _ _ Hpop). auto.
  - intros p Hp. apply elem_of_union in Hp as [Hp|Hp]; [|auto].
    apply elem_of_singleton in Hp as ->.
    eapply from_start_bounds, (Hn (f, c)).
    rewrite (heappop_elem_of _ _ _ _ Hpop). auto.
Qed.

Lemma search_inv_out s out :
  search_inv game_map restricted start s ->
  a_star_step game_map end_ restricted cost_map s = Ok (inr out) ->
  out = (None, Inf) ∨
  ∃ n, from_start game_map restricted start n ∧ position n = end_ ∧
       out.1 = Some (rev (backtrace n)).
Proof.
  intros [Hn Hc] Hstep. apply a_star_step_spec in Hstep.
  inversion Hstep as [|f c rest Hpop Hend| |]; subst; [by left|right].
  exists c. split; [|done].
  apply (Hn (f, c)). rewrite (heappop_elem_of _ _ _ _ Hpop). auto.
Qed.

(** *** Termination *)

Lemma size_list_to_set_le (l : list pos) :
  (size (list_to_set l : gset pos) <= length l)%nat.
Proof.
  induction l as [|x l IH].
  { rewrite list_to_set_nil, size_empty. simpl. lia. }
  rewrite list_to_set_cons, size_union_alt, size_singleton. simpl length.
  assert (size (list_to_set l ∖ {[x]} : gset pos) <= size (list_to_set l : gset pos))%nat
    by (apply subseteq_size, subseteq_difference_l; done).
  lia.
Qed.

Lemma size_closable : (size (closable start) <= 501)%nat.
Proof.
  unfold closable. rewrite size_union_alt, size_singleton.
  generalize (size_list_to_set_le all_cells).
  change (length all_cells) with 500%nat.
  generalize all_cells. intros l Hl.
  assert (size (list_to_set l ∖ {[start]} : gset pos) <= size (list_to_set l : gset pos))%nat
    by (apply subseteq_size, subseteq_difference_l; done).
  lia.
Qed.

Lemma closed_closable s :
  search_inv game_map restricted start s -> closed s ⊆ closable start.
Proof.
  intros [_ Hc] p Hp. unfold closable.
  destruct (Hc p Hp) as [Hs|Hin].
  - apply elem_of_union_l, elem_of_singleton. done.
  - apply elem_of_union_r, elem_of_list_to_set. by apply elem_of_all_cells.
Qed.

Lemma search_measure_step s s' :
  search_inv game_map restricted start s ->
  a_star_step game_map end_ restricted cost_map s = Ok (inl s') ->
  (search_measure start s' < search_measure start s)%nat.
Proof.
  intros Hinv Hstep.
  pose proof (search_inv_step s s' Hinv Hstep) as Hinv'.
  apply closed_closable, subseteq_size in Hinv'.
  destruct Hinv as [Hn Hc]. apply a_star_step_spec in Hstep.
  unfold search_measure. generalize dependent (size (closable start)). intros U HU.
  inversion Hstep as [| |f c rest Hpop Hend Hcl|f c rest nodes' g' Hpop Hend Hcl Hfold];
    subst; cbn [nodes closed] in *.
  - rewrite (heappop_length _ _ _ Hpop). lia.
  - rewrite (heappop_length _ _ _ Hpop).
    assert (size ({[position c]} ∪ closed s) = S (size (closed s))) as Hsz.
    { rewrite size_union, size_singleton; [done|].
      clear -Hcl. set_solver. }
    rewrite Hsz in *.
    assert (Hcn : from_start game_map restricted start c).
    { apply (Hn (f, c)). rewrite (heappop_elem_of _ _ _ _ Hpop). auto. }
    destruct (expand_from_start c ({[position c]} ∪ closed s) cardinal_moves
                (rest, g_costs s) (nodes', g')) as [_ Hlen];
      [done | exact Hcn | | exact Hfold |].
    { intros e He. apply Hn. rewrite (heappop_elem_of _ _ _ _ Hpop). auto. }
    cbn [fst snd length cardinal_moves] in Hlen. lia.
Qed.

Lemma a_star_loop_returns fuel s :
  wf_grid game_map -> wf_grid cost_map ->
  search_inv game_map restricted start s ->
  (search_measure start s < fuel)%nat ->
  ∃ out, a_star_loop game_map end_ restricted cost_map fuel s = Ok out.
Proof.
  intros Hg Hc.
  apply (a_star_loop_total game_map end_ restricted cost_map
           (search_inv game_map restricted start) (search_measure start)).
  - intros. by apply a_star_step_total.
  - intros s1 s2 H1 H2. split; [eapply search_inv_step | apply search_measure_step]; eauto.
Qed.
End search.

Lemma wf_cost_map_default (cost_map : option grid) :
  wf_cost_map cost_map -> wf_grid (default uniform_cost_map cost_map).
Proof. destruct cost_map; simpl; [done | intros; apply wf_uniform_cost_map]. Qed.

(** [a_star] returns, without an exception, on maps of the right size. *)
Lemma a_star_returns game_map start end_ restricted cost_map :
  wf_grid game_map -> wf_cost_map cost_map ->
  ∃ out, a_star game_map start end_ restricted cost_map = Ok out.
Proof.
  intros Hg Hc. unfold a_star.
  apply (a_star_loop_returns game_map end_ restricted _ start);
    auto using wf_cost_map_default, search_inv_init.
  unfold search_measure, a_star_init; cbn [nodes closed length].
  pose proof (size_closable start) as HU.
  generalize dependent (size (closable start)). intros U HU.
  rewrite size_empty. change a_star_fuel with 2006%nat. lia.
Qed.

(** What [a_star] returns is no path and [inf], or a walk from [start]
    to [end_]. *)
Lemma a_star_out game_map start end_ restricted cost_map out :
  a_star game_map start end_ restricted cost_map = Ok out ->
  out = (None, Inf) ∨
  ∃ n, from_start game_map restricted start n ∧ position n = end_ ∧
       out.1 = Some (rev (backtrace n)).
Proof.
  unfold a_star. intros H.
  eapply (a_star_loop_inv game_map end_ restricted _
            (search_inv game_map restricted start)
            (fun out => out = (None, Inf) ∨
               ∃ n, from_start game_map restricted start n ∧ position n = end_ ∧
                    out.1 = Some (rev (backtrace n)))); [| | |exact H].
  - intros s s'. apply search_inv_step.
  - intros s o. apply search_inv_out.
  - apply search_inv_init.
Qed.

(** ** Manhattan distance and cardinal moves *)

Lemma moves_cases (m : pos) :
  m ∈ cardinal_moves -> m = (0, -1) ∨ m = (0, 1) ∨ m = (-1, 0) ∨ m = (1, 0).
Proof.
  unfold cardinal_moves. rewrite !elem_of_cons, elem_of_nil. tauto.
Qed.

Lemma manhattan_refl (p : pos) : manhattan p p = 0.
Proof. unfold manhattan. lia. Qed.

Lemma manhattan_triangle (a b c : pos) :
  manhattan a c <= manhattan a b + manhattan b c.
Proof. unfold manhattan. lia. Qed.

Lemma manhattan_zero (p q : pos) : manhattan p q = 0 -> p = q.
Proof.
  destruct p, q. unfold manhattan. simpl. intros. f_equal; lia.
Qed.

Lemma manhattan_move_r (x p m : pos) :
  m ∈ cardinal_moves ->
  manhattan x (p.1 + m.1, p.2 + m.2) <= manhattan x p + 1 ∧
  manhattan x p <= manhattan x (p.1 + m.1, p.2 + m.2) + 1.
Proof.
  intros Hm. apply moves_cases in Hm as [->|[->|[->| ->]]];
    unfold manhattan; simpl; lia.
Qed.

Lemma manhattan_move_l (x p m : pos) :
  m ∈ cardinal_moves ->
  manhattan (p.1 + m.1, p.2 + m.2) x <= manhattan p x + 1 ∧
  manhattan p x <= manhattan (p.1 + m.1, p.2 + m.2) x + 1.
Proof.
  intros Hm. apply moves_cases in Hm as [->|[->|[->| ->]]];
    unfold manhattan; simpl; lia.
Qed.

Ltac in_moves :=
  unfold cardinal_moves;
  repeat first [apply list_elem_of_here | apply list_elem_of_further].

(** From a cell of the grid other than [e] some move leads, on the grid,
    one step closer to the cell [e] of the grid. *)
Lemma step_toward (c e : pos) :
  c ≠ e -> in_bounds c = true -> in_bounds e = true ->
  ∃ m, m ∈ cardinal_moves ∧ in_bounds (c.1 + m.1, c.2 + m.2) = true ∧
       manhattan (c.1 + m.1, c.2 + m.2) e = manhattan c e - 1.
Proof.
  intros Hne Hc He. apply in_bounds_spec in Hc, He.
  destruct c as [cx cy], e as [ex ey]. simpl in *.
  assert (cx < ex ∨ ex < cx ∨ cx = ex ∧ cy < ey ∨ cx = ex ∧ ey < cy)
    as [H|[H|[[-> H]|[-> H]]]] by (destruct (decide (cx = ex)); [|lia];
      destruct (decide (cy = ey)); [congruence | lia]).
  - exists (1, 0). split; [in_moves|]. rewrite in_bounds_spec.
    unfold manhattan; simpl. lia.
  - exists (-1, 0). split; [in_moves|]. rewrite in_bounds_spec.
    unfold manhattan; simpl. lia.
  - exists (0, 1). split; [in_moves|]. rewrite in_bounds_spec.
    unfold manhattan; simpl. lia.
  - exists (0, -1). split; [in_moves|]. rewrite in_bounds_spec.
    unfold manhattan; simpl. lia.
Qed.

Lemma depth_child (q : pos) (n : Node) : depth (mkNode q (Some n)) = depth n + 1.
Proof. unfold depth. simpl. lia. Qed.

Lemma from_start_depth game_map restricted start (n : Node) :
  from_start game_map restricted start n ->
  manhattan start (position n) <= depth n.
Proof.
  induction 1 as [|n q Hn IH [m [Hm ->]] Hq].
  - simpl. rewrite manhattan_refl. unfold depth. simpl. lia.
  - rewrite depth_child. simpl.
    pose proof (manhattan_move_r start (position n) m Hm). lia.
Qed.

Lemma length_backtrace (n : Node) : Z.of_nat (length (backtrace n)) = depth n + 1.
Proof. unfold depth. lia. Qed.

(** ** Numbers *)

Lemma num_ltb_Fin_false (x : Z) (v : num) :
  num_ltb (Fin x) v = false -> ∃ z, v = Fin z ∧ z <= x.
Proof. destruct v as [z|]; simpl; [|done]. exists z. split; [done | lia]. Qed.

(** ** The search on a grid without forbidden cells *)

Section optimal.
Context (game_map : grid) (restricted : list Z) (start end_ : pos).
Hypothesis wf_map : wf_grid game_map.
Hypothesis free_map :
  forall p, in_bounds p = true -> tile_in (cell game_map p) restricted = false.
Hypothesis start_in : in_bounds start = true.
Hypothesis end_in : in_bounds end_ = true.

#[local] Abbreviation running := (running game_map restricted start end_).
#[local] Abbreviation popped_ok := (popped_ok game_map restricted start end_).
#[local] Abbreviation relax := (relax game_map end_ restricted uniform_cost_map).
#[local] Abbreviation optimal_inv := (optimal_inv game_map restricted start end_).

Lemma uniform_cost (p : pos) (c : Z) :
  in_bounds p = true -> grid_get uniform_cost_map p.1 p.2 = Ok c -> c = 1.
Proof.
  intros Hp Hc. apply cell_grid_get in Hc.
  by rewrite cell_uniform_cost_map in Hc.
Qed.

(** One relaxation, while the node [c_node] is expanded. *)
Lemma running_relax (c_node : Node) (cl : gset pos) m ms st st' :
  popped_ok c_node st.2 ->
  m ∈ cardinal_moves ->
  running (position c_node) (m :: ms) (mkSearch st.1 cl st.2) ->
  position c_node ∈ cl ->
  relax c_node cl st m = Ok st' ->
  running (position c_node) ms (mkSearch st'.1 cl st'.2) ∧ popped_ok c_node st'.2.
Proof.
  intros Hpop Hm (Hheap & Hfrom & Hent & Habove & Hopen & Hclosed & Hstart) Hc0 Hrelax.
  destruct Hpop as (Hcfrom & Hcin & Hcdepth & Hcg & Hcgood).
  apply relax_spec in Hrelax.
  remember ((position c_node).1 + m.1, (position c_node).2 + m.2) as q eqn:Eq.
  cbn [nodes closed g_costs] in *.
  (* the closed cells keep their properties when only [pending] shrinks *)
  assert (Hshrink :
    (in_bounds q = true ->
       ∃ z, st.2 !! q = Some (Fin z) ∧ z <= manhattan start (position c_node) + 1) ->
    closed_ok start end_ (position c_node) ms cl st.2).
  { intros Hq c Hc. destruct (Hclosed c Hc) as (H1 & H2 & H3 & H4 & H5).
    repeat split; auto. intros m' Hm' Hin'.
    destruct (H5 m' Hm' Hin') as [[-> Hpend]|Hz]; [|by right].
    apply elem_of_cons in Hpend as [->|Hpend]; [right | left; done].
    rewrite <- Eq in *. by apply Hq. }
  inversion Hrelax as [Hout|tile p Hin Htile Hskip|tile c p Hin Htile Hfree Hncl Hcost Hlt
                       |tile c p new_g Hin Htile Hfree Hncl Hcost Hlt];
    try subst p; try subst new_g; subst st';
    repeat match goal with
           | H : context [((position c_node).1 + m.1, (position c_node).2 + m.2)] |- _ =>
             lazymatch H with Eq => fail | _ => rewrite <- Eq in H end
           end; rewrite <- ?Eq.
  - (* off the grid *)
    split; [|done]. unfold running; cbn [nodes closed g_costs].
    split_and!; auto.
    apply Hshrink. intros Hin. congruence.
  - (* closed already *)
    split; [|done]. unfold running; cbn [nodes closed g_costs].
    split_and!; auto.
    apply Hshrink. intros _.
    destruct Hskip as [Hr|Hq].
    { apply cell_grid_get in Htile. rewrite <- Htile, free_map in Hr; done. }
    destruct (Hclosed q Hq) as (_ & _ & Hgq & _).
    exists (manhattan start q). split; [done|]. subst q.
    apply (manhattan_move_r start (position c_node) m Hm).
  - (* no improvement *)
    split; [|done]. unfold running; cbn [nodes closed g_costs].
    split_and!; auto.
    apply Hshrink. intros _.
    apply uniform_cost in Hcost as ->; [|done].
    unfold g_get in Hlt. rewrite Hcg in Hlt. simpl in Hlt.
    apply num_ltb_Fin_false in Hlt as (z & Hz & Hle).
    exists z. split; [|done].
    destruct (st.2 !! q) as [v|] eqn:Hv; simpl in Hz; [by subst | done].
  - (* a better cost for [q] *)
    apply uniform_cost in Hcost as ->; [|done].
    unfold g_get in Hlt |- *. rewrite Hcg in Hlt |- *.
    cbn [default from_option id num_add fst snd] in *.
    set (gq := manhattan start (position c_node) + 1) in *.
    assert (Hqc : q ≠ position c_node) by (intros E; rewrite E in Hncl; done).
    assert (Hold : forall g0, st.2 !! q = Some (Fin g0) -> gq < g0).
    { intros g0 Hg0. rewrite Hg0 in Hlt. simpl in Hlt. lia. }
    split.
    2:{ unfold popped_ok. split_and!; auto. by rewrite lookup_insert_ne. }
    unfold running; cbn [nodes closed g_costs].
    split.
    { apply heappush_ok; [apply entry_ltb_asym | apply entry_leb_trans | done]. }
    split.
    { intros e He. rewrite heappush_perm in He.
      apply elem_of_cons in He as [->|He]; [|by apply Hfrom].
      apply from_start_child; [done | by exists m; subst q |].
      split; [done | by apply free_map]. }
    split.
    { intros f n Hn. rewrite heappush_perm in Hn.
      apply elem_of_cons in Hn as [[= -> ->]|Hn].
      - exists gq, gq. cbn [position]. rewrite lookup_insert_eq, depth_child.
        split_and!; try done; subst gq; lia.
      - destruct (Hent f n Hn) as (g1 & g2 & Hf & Hd & Hg & Hle).
        destruct (decide (position n = q)) as [Epq|Nq].
        + exists g1, gq. rewrite Epq, lookup_insert_eq. rewrite Epq in Hf, Hg.
          specialize (Hold _ Hg). split_and!; try done; lia.
        + exists g1, g2. rewrite lookup_insert_ne by done. done. }
    split.
    { intros p v Hp. apply lookup_insert_Some in Hp as [[<- <-]|[Np Hp]];
        [|by eapply Habove].
      exists gq. split; [done|].
      pose proof (manhattan_move_r start (position c_node) m Hm). subst gq q. lia. }
    split.
    { intros p z Hp Hpcl. apply lookup_insert_Some in Hp as [[<- [= <-]]|[Np Hp]].
      - exists (mkNode q (Some c_node)). split; [|done].
        rewrite heappush_perm. apply list_elem_of_here.
      - destruct (Hopen p z Hp Hpcl) as (n & Hn & Hpn).
        exists n. split; [|done]. rewrite heappush_perm. by apply list_elem_of_further. }
    split; [|done].
    intros c Hc. destruct (Hclosed c Hc) as (H1 & H2 & H3 & H4 & H5).
    assert (c ≠ q) by (intros ->; done).
    rewrite lookup_insert_ne by done.
    repeat split; auto. intros m' Hm' Hin'.
    destruct (decide ((c.1 + m'.1, c.2 + m'.2) = q)) as [Ecq|Nq].
    + right. rewrite Ecq, lookup_insert_eq. exists gq. split; [done|].
      destruct (H5 m' Hm' Hin') as [[-> _]|(z & Hz & Hle)]; [subst gq; lia|].
      rewrite Ecq in Hz. specialize (Hold _ Hz). lia.
    + rewrite lookup_insert_ne by done.
      destruct (H5 m' Hm' Hin') as [[-> Hpend]|Hz]; [|by right].
      apply elem_of_cons in Hpend as [->|Hpend]; [done | left; done].
Qed.

Lemma running_expand (c_node : Node) (cl : gset pos) ms st st' :
  popped_ok c_node st.2 ->
  (forall m, m ∈ ms -> m ∈ cardinal_moves) ->
  running (position c_node) ms (mkSearch st.1 cl st.2) ->
  position c_node ∈ cl ->
  foldM (relax c_node cl) st ms = Ok st' ->
  running (position c_node) [] (mkSearch st'.1 cl st'.2).
Proof.
  revert st. induction ms as [|m ms IH]; intros st Hpop Hsub Hrun Hc Hfold;
    simpl in Hfold.
  - by injection Hfold as <-.
  - res_inv Hfold.
    destruct (running_relax c_node cl m ms st a) as [Hrun' Hpop']; auto.
    { apply Hsub, list_elem_of_here. }
    apply (IH a); auto.
    intros m' Hm'. by apply Hsub, list_elem_of_further.
Qed.

(** Some cell on a shortest way is open, with its distance as cost. *)
Lemma running_live c0 s :
  running c0 [] s ->
  ∃ p, (p ∉ closed s) ∧ (g_costs s) !! p = Some (Fin (manhattan start p)) ∧
       manhattan start p + manhattan p end_ = manhattan start end_.
Proof.
  intros (Hheap & Hfrom & Hent & Habove & Hopen & Hclosed & Hstart).
  assert (forall (k : nat) c, Z.to_nat (manhattan c end_) = k -> c ∈ closed s ->
    ∃ p, (p ∉ closed s) ∧ (g_costs s) !! p = Some (Fin (manhattan start p)) ∧
         manhattan start p + manhattan p end_ = manhattan start end_) as Hwalk.
  { induction k as [k IH] using lt_wf_ind. intros c Hk Hc.
    destruct (Hclosed c Hc) as (Hne & Hin & Hg & Hgood & Hmoves).
    destruct (step_toward c end_ Hne Hin end_in) as (m & Hm & Hqin & Hq).
    set (q := (c.1 + m.1, c.2 + m.2)) in *.
    destruct (Hmoves m Hm Hqin) as [[_ Hnil]|(z & Hz & Hle)];
      [by apply elem_of_nil in Hnil|].
    destruct (Habove q _ Hz) as (z' & [= <-] & Hlow).
    pose proof (manhattan_triangle start q end_) as Htri.
    assert (z = manhattan start q) as -> by lia.
    destruct (decide (q ∈ closed s)) as [Hqc|Hqc].
    - apply (IH (Z.to_nat (manhattan q end_))) with q; [|done|done].
      assert (0 <= manhattan q end_) by (unfold manhattan; lia). lia.
    - exists q. split; [done|]. split; [done | lia]. }
  eapply Hwalk; [reflexivity | exact Hstart].
Qed.

(** The entry that [heappop] returns is on a shortest way. *)
Lemma running_pop c0 s f c_node rest :
  running c0 [] s ->
  heapq.heappop entry_ltb (nodes s) = Some ((f, c_node), rest) ->
  popped_ok c_node (g_costs s).
Proof.
  intros Hrun Hpop.
  destruct (running_live c0 s Hrun) as (p & Hpcl & Hpg & Hpgood).
  destruct Hrun as (Hheap & Hfrom & Hent & Habove & Hopen & Hclosed & Hstart).
  destruct (Hopen p _ Hpg Hpcl) as (n & Hn & _).
  assert (Hin : (f, c_node) ∈ nodes s).
  { rewrite (heappop_elem_of _ _ _ _ Hpop). by left. }
  destruct (heappop_ok entry_ltb entry_ltb_asym entry_leb_trans _ _ _ Hheap Hpop)
    as [_ Hmin].
  specialize (Hmin _ Hn). rewrite entry_ltb_spec in Hmin. cbn [fst] in Hmin.
  destruct (Hent f c_node Hin) as (gq & g' & -> & Hd & Hg & Hle).
  destruct (Habove _ _ Hg) as (z & [= <-] & Hlow).
  pose proof (manhattan_triangle start (position c_node) end_) as Htri.
  simpl in Hmin.
  assert (g' = manhattan start (position c_node)) as -> by lia.
  pose proof (Hfrom _ Hin) as Hcf. cbn [snd] in Hcf.
  unfold popped_ok. split_and!; [done | | lia | done | lia].
  destruct (from_start_bounds _ _ _ _ Hcf) as [->|]; done.
Qed.

Lemma heappop_rest (h : list entry) e rest x :
  heapq.heappop entry_ltb h = Some (e, rest) -> x ∈ h -> x ≠ e -> x ∈ rest.
Proof.
  intros Hpop Hx Hne. apply (heappop_elem_of _ _ _ x Hpop) in Hx as [->|]; done.
Qed.

(** The state in which the relaxations of a popped node start. *)
Lemma running_closing c0 s f c_node rest :
  running c0 [] s ->
  heapq.heappop entry_ltb (nodes s) = Some ((f, c_node), rest) ->
  position c_node ≠ end_ ->
  running (position c_node) cardinal_moves
    (mkSearch rest ({[position c_node]} ∪ closed s) (g_costs s)).
Proof.
  intros Hrun Hpop Hend.
  pose proof (running_pop c0 s f c_node rest Hrun Hpop)
    as (Hcfrom & Hcin & Hcdepth & Hcg & Hcgood).
  destruct Hrun as (Hheap & Hfrom & Hent & Habove & Hopen & Hclosed & Hstart).
  destruct (heappop_ok entry_ltb entry_ltb_asym entry_leb_trans _ _ _ Hheap Hpop)
    as [Hheap' _].
  assert (Hsub : forall x, x ∈ rest -> x ∈ nodes s).
  { intros x Hx. rewrite (heappop_elem_of _ _ _ _ Hpop). by right. }
  unfold running; cbn [nodes closed g_costs]. split_and!; auto.
  - intros g n Hn. apply Hent. auto.
  - intros p z Hp Hpcl. apply not_elem_of_union in Hpcl as [Hpc Hpcl].
    apply not_elem_of_singleton in Hpc.
    destruct (Hopen p z Hp Hpcl) as (n & Hn & Hpn). exists n. split; [|done].
    eapply heappop_rest; eauto. intros [= _ ->]. done.
  - intros c Hc. apply elem_of_union in Hc as [Hc|Hc].
    + apply elem_of_singleton in Hc as ->. split_and!; auto.
    + destruct (Hclosed c Hc) as (H1 & H2 & H3 & H4 & H5). split_and!; auto.
      intros m Hm Hin. destruct (H5 m Hm Hin) as [[_ Hnil]|Hz]; [|by right].
      by apply elem_of_nil in Hnil.
  - by apply elem_of_union_r.
Qed.

(** The same for the first iteration. *)
Lemma running_first :
  start ≠ end_ ->
  running start cardinal_moves (mkSearch [] ({[start]} ∪ ∅) {[start := Fin 0]}) ∧
  popped_ok (mkNode start None) {[start := Fin 0]}.
Proof.
  intros Hne. split.
  - unfold running; cbn [nodes closed g_costs]. split_and!.
    + by intros j a b _ Ha.
    + intros e He. by apply elem_of_nil in He.
    + intros f n Hn. by apply elem_of_nil in Hn.
    + intros p v Hp. apply lookup_singleton_Some in Hp as [<- <-].
      exists 0. by rewrite manhattan_refl.
    + intros p z Hp Hpcl. apply lookup_singleton_Some in Hp as [<- _].
      exfalso. apply Hpcl, elem_of_union_l, elem_of_singleton. done.
    + intros c Hc. apply elem_of_union in Hc as [Hc|Hc];
        [|by apply elem_of_empty in Hc].
      apply elem_of_singleton in Hc as ->.
      rewrite manhattan_refl, lookup_singleton_eq. split_and!; auto.
    + apply elem_of_union_l, elem_of_singleton. done.
  - unfold popped_ok. cbn [position].
    rewrite manhattan_refl, lookup_singleton_eq. split_and!; auto.
    + constructor.
    + unfold depth. simpl. lia.
Qed.

Lemma heappop_singleton (e e' : entry) rest :
  heapq.heappop entry_ltb [e] = Some (e', rest) -> e' = e ∧ rest = [].
Proof. by intros [= <- <-]. Qed.

Lemma optimal_inv_step s s' :
  optimal_inv s ->
  a_star_step game_map end_ restricted uniform_cost_map s = Ok (inl s') ->
  optimal_inv s'.
Proof.
  intros Hinv Hstep. apply a_star_step_spec in Hstep. right.
  inversion Hstep as [| |f c rest Hpop Hend Hcl|f c rest nodes' g' Hpop Hend Hcl Hfold];
    subst.
  - (* the popped cell is closed already *)
    destruct Hinv as [->|[c0 Hrun]]; [by apply elem_of_empty in Hcl|].
    exists c0.
    destruct Hrun as (Hheap & Hfrom & Hent & Habove & Hopen & Hclosed & Hstart).
    destruct (heappop_ok entry_ltb entry_ltb_asym entry_leb_trans _ _ _ Hheap Hpop)
      as [Hheap' _].
    assert (Hsub : forall x, x ∈ rest -> x ∈ nodes s).
    { intros x Hx. rewrite (heappop_elem_of _ _ _ _ Hpop). by right. }
    unfold running; cbn [nodes closed g_costs]. split_and!; auto.
    + intros g n Hn. apply Hent. auto.
    + intros p z Hp Hpcl.
      destruct (Hopen p z Hp Hpcl) as (n & Hn & Hpn). exists n. split; [|done].
      eapply heappop_rest; eauto. intros [= _ ->]. by rewrite Hpn in Hcl.
  - (* the popped cell is expanded *)
    exists (position c).
    assert (running (position c) cardinal_moves
              (mkSearch rest ({[position c]} ∪ closed s) (g_costs s)) ∧
            popped_ok c (g_costs s)) as [Hrun Hc].
    { destruct Hinv as [->|[c0 Hrun]].
      - unfold a_star_init in *; cbn [nodes closed g_costs] in *.
        apply heappop_singleton in Hpop as [[= -> ->] ->].
        by apply running_first.
      - split; [eapply running_closing | eapply running_pop]; eauto. }
    apply (running_expand c ({[position c]} ∪ closed s) cardinal_moves
             (rest, g_costs s) (nodes', g')); auto.
    apply elem_of_union_l, elem_of_singleton. done.
Qed.

Lemma optimal_inv_out s out :
  optimal_inv s ->
  a_star_step game_map end_ restricted uniform_cost_map s = Ok (inr out) ->
  ∃ pth, out = (Some pth, Fin (manhattan start end_)) ∧
         Z.of_nat (length pth) = manhattan start end_ + 1.
Proof.
  intros Hinv Hstep. apply a_star_step_spec in Hstep.
  remember (inr out) as r eqn:Er.
  destruct Hstep as [Hnil|f c rest Hpop Hend|f c rest Hpop Hend Hcl
                     |f c rest nodes' g' Hpop Hend Hcl Hfold];
    [injection Er as <- | injection Er as <- | discriminate Er | discriminate Er].
  - (* the open list cannot be empty *)
    destruct Hinv as [->|[c0 Hrun]]; [done|].
    destruct (running_live c0 s Hrun) as (p & Hpcl & Hpg & _).
    destruct Hrun as (_ & _ & _ & _ & Hopen & _).
    destruct (Hopen p _ Hpg Hpcl) as (n & Hn & _).
    rewrite Hnil in Hn. by apply elem_of_nil in Hn.
  - assert (popped_ok c (g_costs s)) as (Hcfrom & Hcin & Hcdepth & Hcg & Hcgood).
    { destruct Hinv as [->|[c0 Hrun]]; [|eapply running_pop; eauto].
      unfold a_star_init in *; cbn [nodes closed g_costs] in *.
      apply heappop_singleton in Hpop as [[= -> ->] ->].
      unfold popped_ok. cbn [position].
      rewrite manhattan_refl, lookup_singleton_eq. split_and!; auto.
      + constructor.
      + unfold depth. simpl. lia. }
    rewrite Hend in Hcg, Hcdepth.
    exists (rev (backtrace c)). unfold g_get. rewrite Hcg. split; [done|].
    rewrite length_rev, length_backtrace.
    pose proof (from_start_depth _ _ _ _ Hcfrom) as Hd. rewrite Hend in Hd. lia.
Qed.
End optimal.

(** On a grid without forbidden cells and with the default cost map the
    search returns a path with as many moves as the Manhattan distance. *)
Lemma a_star_shortest game_map start end_ restricted :
  wf_grid game_map -> obstacle_free game_map restricted ->
  in_bounds start = true -> in_bounds end_ = true ->
  ∃ pth, a_star game_map start end_ restricted None
           = Ok (Some pth, Fin (manhattan start end_)) ∧
         Z.of_nat (length pth) = manhattan start end_ + 1.
Proof.
  intros Hwf Hfree Hs He.
  destruct (a_star_returns game_map start end_ restricted None Hwf I) as [out Hout].
  rewrite Hout. unfold a_star in Hout. cbn [default from_option id] in Hout.
  destruct (a_star_loop_inv game_map end_ restricted uniform_cost_map
              (optimal_inv game_map restricted start end_)
              (fun out => ∃ pth, out = (Some pth, Fin (manhattan start end_)) ∧
                                 Z.of_nat (length pth) = manhattan start end_ + 1))
    with (fuel := a_star_fuel) (s := a_star_init start) (out := out)
    as (pth & -> & Hlen).
  - intros s s'. by apply optimal_inv_step.
  - intros s o. by apply optimal_inv_out.
  - by left.
  - done.
  - eauto.
Qed.

(** * The claims on [a_star] *)

Lemma wf_gridb_spec (g : grid) : wf_gridb g = true -> wf_grid g.
Proof.
  unfold wf_gridb, wf_grid. intros [H1 H2]%andb_prop.
  split; [by apply bool_decide_eq_true in H1|].
  apply Forall_forall. intros row Hrow.
  rewrite forallb_forall in H2. apply list_elem_of_In, H2 in Hrow.
  by apply bool_decide_eq_true in Hrow.
Qed.

Lemma obstacle_freeb_spec (g : grid) (restricted : list Z) :
  obstacle_freeb g restricted = true -> obstacle_free g restricted.
Proof.
  unfold obstacle_freeb, obstacle_free. intros H p Hp.
  rewrite forallb_forall in H. apply elem_of_all_cells, list_elem_of_In, H in Hp.
  by apply negb_true_iff in Hp.
Qed.

(** C1.  On the 25x20 grid with no forbidden cell and the default uniform
    cost map, [a_star] returns, for every start and goal on the grid, a path
    of Manhattan distance + 1 positions and the Manhattan distance as its
    cost; the path begins at the start, ends at the goal, moves by one
    cardinal step at a time and stays on the grid.  From (1, 1) to (5, 5)
    these are 9 positions and the cost 8. *)
Theorem a_star_obstacle_free_manhattan
    (game_map : grid) (start end_ : pos) (restricted : list Z) :
  wf_grid game_map -> obstacle_free game_map restricted ->
  in_bounds start = true -> in_bounds end_ = true ->
  ∃ pth, a_star game_map start end_ restricted None
           = Ok (Some pth, Fin (manhattan start end_)) ∧
         Z.of_nat (length pth) = manhattan start end_ + 1 ∧
         head pth = Some start ∧ last pth = Some end_ ∧ connected pth ∧
         Forall (passable game_map restricted) pth.
Proof.
  intros Hwf Hfree Hs He.
  destruct (a_star_shortest game_map start end_ restricted Hwf Hfree Hs He)
    as (pth & Hstar & Hlen).
  exists pth. split; [done|]. split; [done|].
  apply a_star_out in Hstar as [[=]|(n & Hn & Hend & [= ->])].
  destruct (from_start_path _ _ _ _ Hn) as (rest & E & Hrest & Hlast & Hconn).
  rewrite Hend in Hlast. rewrite E in *. split_and!; try done.
  constructor; [|done]. split; [done|]. by apply Hfree.
Qed.

Lemma a_star_obstacle_free_manhattan_witness :
  ∃ pth, a_star empty_map (1, 1) (5, 5) [TILE_TYPE_OBSTACLE; TILE_TYPE_WATER] None
           = Ok (Some pth, Fin 8) ∧
         Z.of_nat (length pth) = 9 ∧
         head pth = Some (1, 1) ∧ last pth = Some (5, 5) ∧ connected pth ∧
         Forall (passable empty_map [TILE_TYPE_OBSTACLE; TILE_TYPE_WATER]) pth.
Proof.
  apply (a_star_obstacle_free_manhattan empty_map (1, 1) (5, 5)
           [TILE_TYPE_OBSTACLE; TILE_TYPE_WATER]).
  - apply wf_gridb_spec. vm_compute. reflexivity.
  - apply obstacle_freeb_spec. vm_compute. reflexivity.
  - reflexivity.
  - reflexivity.
Defined.

(** C2, as stated, fails: the start cell is never checked.  With the agent
    on an obstacle tile, or off the grid, the returned path begins there. *)
Lemma a_star_start_unchecked :
  a_star blocked_start_map (1, 1) (2, 1) [TILE_TYPE_WATER; TILE_TYPE_OBSTACLE] None
    = Ok (Some [(1, 1); (2, 1)], Fin 1) ∧
  grid_get blocked_start_map 1 1 = Ok TILE_TYPE_OBSTACLE ∧
  a_star empty_map (-1, 0) (0, 0) [TILE_TYPE_WATER; TILE_TYPE_OBSTACLE] None
    = Ok (Some [(-1, 0); (0, 0)], Fin 1) ∧
  in_bounds (-1, 0) = false.
Proof. vm_compute. done. Qed.

(** C2, amended.  A path that [a_star] returns begins with the start cell
    and ends with the goal; every cell after the first is on the grid and on
    a tile that is not in the forbidden set; consecutive cells are one
    cardinal move apart.  So the whole path is on permitted cells of the
    grid as soon as the start cell is. *)
Theorem a_star_path_cells
    (game_map : grid) (start end_ : pos) (restricted : list Z)
    (cost_map : option grid) (pth : path) (cost : num) :
  a_star game_map start end_ restricted cost_map = Ok (Some pth, cost) ->
  (∃ rest, pth = start :: rest ∧ Forall (passable game_map restricted) rest) ∧
  last pth = Some end_ ∧ connected pth ∧
  (passable game_map restricted start -> Forall (passable game_map restricted) pth).
Proof.
  intros H. apply a_star_out in H as [[=]|(n & Hn & Hend & [= ->])].
  destruct (from_start_path _ _ _ _ Hn) as (rest & E & Hrest & Hlast & Hconn).
  rewrite Hend in Hlast. split_and!; eauto.
  intros Hs. rewrite E. by constructor.
Qed.

Lemma a_star_path_cells_witness :
  (∃ rest, [(1, 1); (2, 1); (3, 1)] = (1, 1) :: rest ∧
           Forall (passable empty_map [TILE_TYPE_WATER; TILE_TYPE_OBSTACLE]) rest) ∧
  last [(1, 1); (2, 1); (3, 1)] = Some (3, 1) ∧
  connected [(1, 1); (2, 1); (3, 1)] ∧
  (passable empty_map [TILE_TYPE_WATER; TILE_TYPE_OBSTACLE] (1, 1) ->
   Forall (passable empty_map [TILE_TYPE_WATER; TILE_TYPE_OBSTACLE])
          [(1, 1); (2, 1); (3, 1)]).
Proof.
  apply (a_star_path_cells empty_map (1, 1) (3, 1)
           [TILE_TYPE_WATER; TILE_TYPE_OBSTACLE] None _ (Fin 2)).
  vm_compute. reflexivity.
Defined.

(** C3.  When the goal cannot be reached from the start by cardinal moves
    into cells of the grid that are not forbidden, [a_star] returns, without
    raising, no path ([None]) and the cost [inf]. *)
Theorem a_star_unreachable
    (game_map : grid) (start end_ : pos) (restricted : list Z)
    (cost_map : option grid) :
  wf_grid game_map -> wf_cost_map cost_map ->
  ¬ reach game_map restricted start end_ ->
  a_star game_map start end_ restricted cost_map = Ok (None, Inf).
Proof.
  intros Hwf Hcm Hreach.
  destruct (a_star_returns game_map start end_ restricted cost_map Hwf Hcm)
    as [out Hout].
  rewrite Hout. f_equal.
  apply a_star_out in Hout as [->|(n & Hn & Hend & _)]; [done|].
  exfalso. apply Hreach. rewrite <- Hend. by eapply from_start_reach.
Qed.

Lemma enclosed_unreachable :
  ¬ reach enclosed_map [TILE_TYPE_OBSTACLE; TILE_TYPE_WATER] (1, 1) (5, 5).
Proof.
  intros H. inversion H as [|p q Hp [m [Hm Eq]] Hq]; subst.
  destruct p as [x y]. injection Eq as Hx Hy. simpl in Hx, Hy.
  assert (¬ passable enclosed_map [TILE_TYPE_OBSTACLE; TILE_TYPE_WATER] (x, y) ∧
          (x, y) ≠ (1, 1)) as [Hwall Hne].
  { apply moves_cases in Hm as [->|[->|[->| ->]]]; simpl in Hx, Hy.
    - assert (x = 5 ∧ y = 6) as [-> ->] by lia. split; [by intros [_ [=]] | done].
    - assert (x = 5 ∧ y = 4) as [-> ->] by lia. split; [by intros [_ [=]] | done].
    - assert (x = 6 ∧ y = 5) as [-> ->] by lia. split; [by intros [_ [=]] | done].
    - assert (x = 4 ∧ y = 5) as [-> ->] by lia. split; [by intros [_ [=]] | done]. }
  inversion Hp; subst; done.
Qed.

Lemma a_star_unreachable_witness :
  a_star enclosed_map (1, 1) (5, 5) [TILE_TYPE_OBSTACLE; TILE_TYPE_WATER] None
    = Ok (None, Inf).
Proof.
  apply a_star_unreachable.
  - apply wf_gridb_spec. vm_compute. reflexivity.
  - exact I.
  - exact enclosed_unreachable.
Defined.

(** * The claims on [end_mission] *)





(** The same mission with a statistics file of another shape: the
    [TypeError] of the update escapes [end_mission]. *)
Lemma end_mission_stats_raise :
  end_mission stats_file_malformed 5000 "failed" (mkWorld eighty_percent_game [])
  = Raise TypeError.
Proof. vm_compute. reflexivity. Qed.

(** C10.  In every state of a game at most one of [mission_complete],
    [mission_failed] and [mission_partial] is set, and once one is set a
    call of [end_mission] returns the state as it is: no flag, no final time
    and no statistics change. *)
Theorem mission_flags_exclusive (w : World) :
  mission_run w ->
  (flags_set (game w) <= 1)%nat ∧
  (mission_over (game w) = true ->
   forall update now result, end_mission update now result w = Ok w).
Proof.
  intros Hrun. split.
  - induction Hrun as [now fresh rec|update now result w w' Hrun IH Hend
                      |w g' Hrun IH H1 H2 H3].
    + cbn. lia.
    + unfold end_mission in Hend.
      destruct (mission_complete (game w) || mission_failed (game w)
                || mission_partial (game w)) eqn:Hover.
      * by injection Hend as <-.
      * res_inv Hend. res_inv Hend.
        repeat case_bool_decide; injection Hend as <-; cbn; lia.
    + unfold flags_set in *. cbn [game]. rewrite H1, H2, H3. done.
  - intros Hover update now result. unfold mission_over in Hover.
    unfold end_mission. by rewrite Hover.
Qed.

Lemma mission_flags_exclusive_witness :
  (flags_set (game failed_world) <= 1)%nat ∧
  (mission_over (game failed_world) = true ->
   forall update now result, end_mission update now result failed_world = Ok failed_world).
Proof.
  apply (mission_flags_exclusive failed_world).
  apply (run_end_mission stats_file_ok 5000 "failed"
           (mkWorld (setup_new_mission 0 seventy_percent_game) [])).
  - apply run_setup.
  - vm_compute. reflexivity.
Defined.

(** * The claims on the enemies *)

Lemma turns_to_reach_returns (game_map : grid) (p q : pos) :
  wf_grid game_map -> ∃ turns, turns_to_reach game_map p q = Ok turns.
Proof.
  intros Hwf. unfold turns_to_reach.
  destruct (a_star_returns game_map p q [1; 4] None Hwf I) as [[pth cost] ->].
  simpl. eauto.
Qed.

Lemma max_turns_threshold (o : Obstacle) : max_turns o = threat_threshold o.
Proof. destruct o as [|x y r []]; simpl; [done | done | lia]. Qed.

Lemma threat_scan_filter (game_map : grid) (p : pos) (obstacles acc : list Obstacle) :
  wf_grid game_map ->
  foldM (fun (threats : list Obstacle) (o : Obstacle) =>
           turns ← turns_to_reach game_map (obs_pos o) p;
           Ok (if num_leb turns (Fin (max_turns o)) then threats ++ [o] else threats))
        acc obstacles
  = Ok (acc ++ filter (fun o => is_threat game_map p o = true) obstacles).
Proof.
  intros Hwf. revert acc.
  induction obstacles as [|o obstacles IH]; intros acc; cbn [foldM].
  - by rewrite filter_nil, app_nil_r.
  - destruct (turns_to_reach_returns game_map (obs_pos o) p Hwf) as [turns Ht].
    rewrite Ht, !Ok_bind, IH. rewrite filter_cons.
    assert (is_threat game_map p o = num_leb turns (Fin (max_turns o))) as ->
      by (unfold is_threat; by rewrite Ht).
    destruct (num_leb turns (Fin (max_turns o))).
    + rewrite decide_True by done. by rewrite <- app_assoc.
    + rewrite decide_False by done. done.
Qed.

(** C4.  The threat scan of the ground mission keeps exactly the enemies
    whose turns-to-reach the agent is at most their threshold: the detection
    radius + 2 for an aggressive enemy, one more in attack mode, and 3 for a
    patrol enemy. *)
Theorem threat_scan_spec (game_map : grid) (obstacles : list Obstacle) (p : pos) :
  wf_grid game_map ->
  ∃ threats, threat_scan game_map obstacles p = Ok threats ∧
    forall o, o ∈ threats <->
      o ∈ obstacles ∧
      ∃ turns, turns_to_reach game_map (obs_pos o) p = Ok turns ∧
               num_leb turns (Fin (threat_threshold o)) = true.
Proof.
  intros Hwf. unfold threat_scan. rewrite threat_scan_filter by done.
  eexists. split; [reflexivity|]. intros o. simpl.
  rewrite list_elem_of_filter. unfold is_threat. rewrite max_turns_threshold.
  destruct (turns_to_reach_returns game_map (obs_pos o) p Hwf) as [turns ->].
  split.
  - intros [H1 H2]. eauto.
  - intros [H1 (t & [= <-] & H2)]. done.
Qed.

(** The scenario of the specification: an aggressive enemy of radius 6
    three turns away is a threat, one nine turns away, in patrol mode,
    is not. *)
Lemma threat_scan_example :
  threat_scan empty_map
    [AggressiveObstacle 4 1 6 attack; AggressiveObstacle 10 1 6 patrol] (1, 1)
  = Ok [AggressiveObstacle 4 1 6 attack] ∧
  turns_to_reach empty_map (4, 1) (1, 1) = Ok (Fin 3) ∧
  turns_to_reach empty_map (10, 1) (1, 1) = Ok (Fin 9).
Proof. vm_compute. done. Qed.

Lemma threat_scan_spec_witness :
  ∃ threats,
    threat_scan empty_map
      [AggressiveObstacle 4 1 6 attack; AggressiveObstacle 10 1 6 patrol] (1, 1)
    = Ok threats ∧
    forall o, o ∈ threats <->
      o ∈ [AggressiveObstacle 4 1 6 attack; AggressiveObstacle 10 1 6 patrol] ∧
      ∃ turns, turns_to_reach empty_map (obs_pos o) (1, 1) = Ok turns ∧
               num_leb turns (Fin (threat_threshold o)) = true.
Proof.
  apply (threat_scan_spec empty_map).
  apply wf_gridb_spec. vm_compute. reflexivity.
Defined.

Lemma PatrolObstacle_update_kind game_map rnd allowed_tiles x y r m o' :
  PatrolObstacle_update game_map rnd allowed_tiles (AggressiveObstacle x y r m) = Ok o' ->
  ∃ x' y', o' = AggressiveObstacle x' y' r m.
Proof.
  unfold PatrolObstacle_update. intros H. res_inv H.
  destruct (random_choice rnd a); injection H as <-; simpl; eauto.
Qed.

(** C8, as stated, fails: the plan is asked from the enemy to the agent.
    An enemy on (5, 1) that attacks the agent on (1, 1) steps to (4, 1),
    while the plan from the agent to the enemy has (2, 1) at index 1. *)
Lemma AggressiveObstacle_update_direction :
  AggressiveObstacle_update (Some empty_map) empty_map (agent_at (1, 1)) 0
    [TILE_TYPE_FREE; TILE_TYPE_DIFFICULT; TILE_TYPE_HAZARD] 5 1 6
  = Ok (AggressiveObstacle 4 1 6 attack) ∧
  a_star empty_map (1, 1) (5, 1) [TILE_TYPE_OBSTACLE; TILE_TYPE_WATER] None
  = Ok (Some [(1, 1); (2, 1); (3, 1); (4, 1); (5, 1)], Fin 4) ∧
  a_star empty_map (5, 1) (1, 1) [TILE_TYPE_OBSTACLE; TILE_TYPE_WATER] None
  = Ok (Some [(5, 1); (4, 1); (3, 1); (2, 1); (1, 1)], Fin 4).
Proof. vm_compute. done. Qed.

(** C8, amended.  The update of an aggressive enemy, with a game present
    and the enemy and the agent on the grid (where the float comparison of
    the source is the exact one), sets its mode to attack exactly when its
    Euclidean distance to the agent is at most the detection radius.  In
    attack mode it asks for a plan from its own position to the agent's
    position with obstacle and water forbidden; a path of more than one
    position moves it to the second position, which is one cardinal move
    from the enemy's cell, on the grid and neither obstacle nor water;
    anything else leaves the move to the patrol random walk, which is also
    what patrol mode does. *)
Theorem AggressiveObstacle_update_spec
    (game game_map : grid) (agent : Agent) (rnd : nat) (allowed_tiles : list Z)
    (x y r : Z) (o' : Obstacle) :
  in_bounds (x, y) = true -> in_bounds (agent_pos agent) = true ->
  AggressiveObstacle_update (Some game) game_map agent rnd allowed_tiles x y r = Ok o' ->
  let near := 0 <= r ∧ (x - agent_x agent) ^ 2 + (y - agent_y agent) ^ 2 <= r ^ 2 in
  let random_walk mode :=
    PatrolObstacle_update game_map rnd allowed_tiles (AggressiveObstacle x y r mode)
    = Ok o' in
  (∃ x' y' mode, o' = AggressiveObstacle x' y' r mode ∧ (mode = attack <-> near)) ∧
  (near ->
   ∃ path_res cost,
     a_star game (x, y) (agent_pos agent) [TILE_TYPE_OBSTACLE; TILE_TYPE_WATER] None
     = Ok (path_res, cost) ∧
     match path_res with
     | Some pth =>
       if 1 <? len pth
       then pth !! 1%nat = Some (obs_pos o') ∧ adjacent (x, y) (obs_pos o') ∧
            passable game [TILE_TYPE_OBSTACLE; TILE_TYPE_WATER] (obs_pos o')
       else random_walk attack
     | None => random_walk attack
     end) ∧
  (¬ near -> random_walk patrol).
Proof.
  intros _ _ H near random_walk. subst random_walk.
  unfold AggressiveObstacle_update in H.
  assert (Hnear : hypot_le (x - agent_x agent) (y - agent_y agent) r = true <-> near)
    by (unfold near, hypot_le; lia).
  destruct (hypot_le (x - agent_x agent) (y - agent_y agent) r) eqn:Hatt.
  - assert (near) as Hn by (by apply Hnear).
    assert (Hkind : forall x' y', o' = AggressiveObstacle x' y' r attack ->
              ∃ x' y' mode, o' = AggressiveObstacle x' y' r mode ∧
                            (mode = attack <-> near))
      by (intros x' y' ->; exists x', y', attack; done).
    split; [|split; [|done]].
    + res_inv H. destruct a as [path_res cost].
      destruct path_res as [[|p0 [|p1 pth]]|];
        try (apply PatrolObstacle_update_kind in H as (x' & y' & ->); by eapply Hkind).
      injection H as <-. by eapply Hkind.
    + intros _. res_inv H. destruct a as [path_res cost].
      exists path_res, cost. split; [done|].
      destruct path_res as [[|p0 [|p1 pth]]|]; try done.
      injection H as <-.
      assert ((1 <? len (p0 :: p1 :: pth)) = true) as ->
        by (apply Z.ltb_lt; unfold len; cbn [length]; lia).
      apply a_star_out in E as [[=]|(n & Hfrom & _ & [= Hpth])].
      destruct (from_start_path _ _ _ _ Hfrom) as (rest & Hrest & Hpass & _ & Hconn).
      rewrite <- Hpth in Hrest, Hconn. injection Hrest as -> <-.
      apply Forall_cons in Hpass as [Hp1 _]. destruct Hconn as [Hadj _].
      destruct p1 as [x1 y1]. done.
  - assert (¬ near) as Hn by (rewrite <- Hnear; done).
    split; [|split; [done|by intros _]].
    apply PatrolObstacle_update_kind in H as (x' & y' & ->).
    exists x', y', patrol. split; [done|]. split; [done|]. intros ?. done.
Qed.

Lemma AggressiveObstacle_update_spec_witness :
  let o' := AggressiveObstacle 4 1 6 attack in
  let near := 0 <= 6 ∧ (5 - 1) ^ 2 + (1 - 1) ^ 2 <= 6 ^ 2 in
  let random_walk mode :=
    PatrolObstacle_update empty_map 0
      [TILE_TYPE_FREE; TILE_TYPE_DIFFICULT; TILE_TYPE_HAZARD]
      (AggressiveObstacle 5 1 6 mode) = Ok o' in
  (∃ x' y' mode, o' = AggressiveObstacle x' y' 6 mode ∧ (mode = attack <-> near)) ∧
  (near ->
   ∃ path_res cost,
     a_star empty_map (5, 1) (1, 1) [TILE_TYPE_OBSTACLE; TILE_TYPE_WATER] None
     = Ok (path_res, cost) ∧
     match path_res with
     | Some pth =>
       if 1 <? len pth
       then pth !! 1%nat = Some (obs_pos o') ∧ adjacent (5, 1) (obs_pos o') ∧
            passable empty_map [TILE_TYPE_OBSTACLE; TILE_TYPE_WATER] (obs_pos o')
       else random_walk attack
     | None => random_walk attack
     end) ∧
  (¬ near -> random_walk patrol).
Proof.
  apply (AggressiveObstacle_update_spec empty_map empty_map (agent_at (1, 1)) 0
           [TILE_TYPE_FREE; TILE_TYPE_DIFFICULT; TILE_TYPE_HAZARD] 5 1 6).
  - reflexivity.
  - reflexivity.
  - vm_compute. reflexivity.
Defined.

(** * The claims on the planners *)

(** ** Helpers *)

Lemma mapM_Ok {A B} (f : A -> res B) (l : list A) (r : list B) :
  mapM f l = Ok r -> Forall2 (fun a b => f a = Ok b) l r.
Proof.
  revert r. induction l as [|x l IH]; intros r H; simpl in H.
  - injection H as <-. constructor.
  - res_inv H. res_inv H. injection H as <-. constructor; auto.
Qed.

Lemma mapM_total {A B} (f : A -> res B) (l : list A) :
  (forall a, a ∈ l -> ∃ b, f a = Ok b) -> ∃ r, mapM f l = Ok r.
Proof.
  induction l as [|x l IH]; intros H; simpl; [eauto|].
  destruct (H x) as [y ->]; [apply list_elem_of_here|].
  destruct IH as [ys ->]; [|rewrite !Ok_bind; eauto].
  intros a Ha. apply H. by apply list_elem_of_further.
Qed.

Lemma num_leb_refl (a : num) : num_leb a a = true.
Proof. destruct a; simpl; [lia | done]. Qed.

Lemma num_leb_trans (a b c : num) :
  num_leb a b = true -> num_leb b c = true -> num_leb a c = true.
Proof. destruct a, b, c; simpl; try done; lia. Qed.

Lemma num_ltb_leb (a b : num) : num_ltb a b = false -> num_leb b a = true.
Proof. destruct a, b; simpl; try done; lia. Qed.

Lemma num_ltb_leb' (a b : num) : num_ltb a b = true -> num_leb a b = true.
Proof. destruct a, b; simpl; try done; lia. Qed.

(** [fold_left] of the step of [min] returns a least element. *)
Lemma min_fold (l : list num) (x : num) :
  let m := fold_left (fun m y => if num_ltb y m then y else m) l x in
  m ∈ x :: l ∧ forall y, y ∈ x :: l -> num_leb m y = true.
Proof.
  revert x. induction l as [|y l IH]; intros x; simpl.
  - split; [apply list_elem_of_here|].
    intros z Hz. apply list_elem_of_singleton in Hz as ->. apply num_leb_refl.
  - destruct (IH (if num_ltb y x then y else x)) as [H1 H2].
    split.
    + apply elem_of_cons in H1 as [H1|H1].
      * rewrite H1. destruct (num_ltb y x); set_solver.
      * set_solver.
    + intros z Hz.
      destruct (num_ltb y x) eqn:Hlt.
      * apply elem_of_cons in Hz as [->|Hz]; [|by apply H2].
        eapply num_leb_trans; [apply H2, list_elem_of_here|]. by apply num_ltb_leb'.
      * apply elem_of_cons in Hz as [->|Hz]; [by apply H2, list_elem_of_here|].
        apply elem_of_cons in Hz as [->|Hz].
        -- eapply num_leb_trans; [apply H2, list_elem_of_here|]. by apply num_ltb_leb.
        -- by apply H2, list_elem_of_further.
Qed.

Lemma py_min_spec (l : list num) (m : num) :
  py_min l = Ok m -> m ∈ l ∧ forall y, y ∈ l -> num_leb m y = true.
Proof.
  destruct l as [|x l]; [done|]. intros [= <-]. apply min_fold.
Qed.

Lemma Forall2_elem_of_l {A B} (R : A -> B -> Prop) l r a :
  Forall2 R l r -> a ∈ l -> ∃ b, b ∈ r ∧ R a b.
Proof.
  induction 1 as [|x y l r Hxy _ IH]; intros Ha; [by apply elem_of_nil in Ha|].
  apply elem_of_cons in Ha as [->|Ha].
  - exists y. split; [apply list_elem_of_here | done].
  - destruct (IH Ha) as (b & Hb & Hab). exists b.
    split; [by apply list_elem_of_further | done].
Qed.

Lemma Forall2_elem_of_r {A B} (R : A -> B -> Prop) l r b :
  Forall2 R l r -> b ∈ r -> ∃ a, a ∈ l ∧ R a b.
Proof.
  induction 1 as [|x y l r Hxy _ IH]; intros Hb; [by apply elem_of_nil in Hb|].
  apply elem_of_cons in Hb as [->|Hb].
  - exists x. split; [apply list_elem_of_here | done].
  - destruct (IH Hb) as (a & Ha & Hab). exists a.
    split; [by apply list_elem_of_further | done].
Qed.

Lemma min_turns_spec (game_map : grid) (enemies : list Obstacle) (target : pos) m :
  min_turns game_map enemies target = Ok m ->
  least_turns game_map enemies target m.
Proof.
  unfold min_turns. intros H. res_inv H. rename a into turns.
  apply mapM_Ok in E. apply py_min_spec in H as [Hin Hmin]. split.
  - destruct (Forall2_elem_of_r _ _ _ _ E Hin) as (e & He & Hem). eauto.
  - intros e He. destruct (Forall2_elem_of_l _ _ _ _ E He) as (t & Ht & Het).
    exists t. split; [done | by apply Hmin].
Qed.

Lemma min_turns_returns (game_map : grid) (enemies : list Obstacle) (target : pos) :
  wf_grid game_map -> enemies ≠ [] ->
  ∃ m, min_turns game_map enemies target = Ok m.
Proof.
  intros Hwf Hne. unfold min_turns.
  destruct (mapM_total (fun t => turns_to_reach game_map (obs_pos t) target) enemies)
    as [turns Ht].
  { intros a _. by apply turns_to_reach_returns. }
  rewrite Ht, Ok_bind. destruct turns as [|x turns]; [|simpl; eauto].
  apply mapM_Ok in Ht. inversion Ht. by subst.
Qed.

Lemma least_turns_unique (game_map : grid) enemies target m m' :
  least_turns game_map enemies target m ->
  least_turns game_map enemies target m' -> m = m'.
Proof.
  intros [(e & He & Hm) Hmin] [(e' & He' & Hm') Hmin'].
  destruct (Hmin e' He') as (t & Ht & Hle). rewrite Hm' in Ht. injection Ht as <-.
  destruct (Hmin' e He) as (t & Ht & Hle'). rewrite Hm in Ht. injection Ht as <-.
  destruct m, m'; simpl in *; try done. f_equal. lia.
Qed.

Lemma insert_by_elem_of {A} (key : A -> Z) (x y : A) (l : list A) :
  y ∈ insert_by key x l <-> y = x ∨ y ∈ l.
Proof.
  induction l as [|z l IH]; simpl; [by rewrite list_elem_of_singleton, elem_of_nil; tauto|].
  destruct (key x <=? key z); rewrite !elem_of_cons; [tauto|].
  rewrite IH. tauto.
Qed.

Lemma sorted_by_elem_of {A} (key : A -> Z) (y : A) (l : list A) :
  y ∈ sorted_by key l <-> y ∈ l.
Proof.
  unfold sorted_by. induction l as [|x l IH]; simpl; [done|].
  by rewrite insert_by_elem_of, elem_of_cons, IH.
Qed.

Lemma is_dead_end_returns (g : Game) (x y : Z) :
  wf_grid (game_map g) -> ∃ b, is_dead_end g x y = Ok b.
Proof.
  intros Hwf. unfold is_dead_end. case_bool_decide; [eauto|].
  edestruct (foldM_total
    (fun (n : Z) (d : pos) =>
       let q := (x + d.1, y + d.2) in
       if in_bounds q then
         tile ← grid_get (game_map g) q.1 q.2;
         Ok (if bool_decide (tile ≠ TILE_TYPE_OBSTACLE) then n + 1 else n)
       else Ok n) (fun _ => True)) as (n & -> & _); [|done|rewrite Ok_bind; eauto].
  intros n d _ _. cbv zeta. destruct (in_bounds _) eqn:Hin; [|eauto].
  rewrite (grid_get_wf _ (x + d.1, y + d.2)) by done. rewrite Ok_bind. eauto.
Qed.

(** A path that [a_star] returns ends with the goal. *)
Lemma a_star_last game_map start end_ restricted cost_map pth cost :
  a_star game_map start end_ restricted cost_map = Ok (Some pth, cost) ->
  last pth = Some end_.
Proof.
  intros H. apply a_star_out in H as [[=]|(n & Hn & Hend & [= ->])].
  destruct (from_start_path _ _ _ _ Hn) as (_ & _ & _ & Hlast & _).
  by rewrite Hend in Hlast.
Qed.

(** ** The brave planner *)

Section brave.
Context (g : Game) (agent_p : pos) (aggressive : list Obstacle).

Lemma brave_loop_some (targets : list pos) (pth : path) :
  brave_loop g agent_p aggressive targets = Ok (Some pth) ->
  ∃ target, target ∈ targets ∧ last pth = Some target ∧
            brave_margin (game_map g) agent_p aggressive target.
Proof.
  induction targets as [|target rest IH]; intros H; [done|].
  assert (Hrest : brave_loop g agent_p aggressive rest = Ok (Some pth) ->
    ∃ t, t ∈ target :: rest ∧ last pth = Some t ∧
         brave_margin (game_map g) agent_p aggressive t).
  { intros Hr. destruct (IH Hr) as (t & Ht & Hl & Hm).
    exists t. split; [by apply list_elem_of_further | done]. }
  cbn [brave_loop] in H. res_inv H. destruct a; [auto|].
  res_inv H. rename a into agent_steps.
  destruct (num_eqb agent_steps Inf); [auto|].
  res_inv H. rename a into enemy_steps.
  destruct (num_ltb agent_steps (num_sub_int enemy_steps 1)) eqn:Hlt; [|auto].
  res_inv H. rename a into cost_map. res_inv H. destruct a as [path_res cost].
  destruct path_res as [[|c cs]|]; [auto| |auto].
  injection H as <-. exists target. split; [apply list_elem_of_here|].
  split; [by eapply a_star_last|].
  exists agent_steps, enemy_steps. split; [done|].
  split; [by apply min_turns_spec | done].
Qed.

Lemma brave_loop_none (targets : list pos) :
  wf_grid (game_map g) -> aggressive ≠ [] ->
  (forall target, target ∈ targets ->
     ¬ brave_margin (game_map g) agent_p aggressive target) ->
  brave_loop g agent_p aggressive targets = Ok None.
Proof.
  intros Hwf Hne. induction targets as [|target rest IH]; intros Hno; [done|].
  assert (Hrest : brave_loop g agent_p aggressive rest = Ok None).
  { apply IH. intros t Ht. by apply Hno, list_elem_of_further. }
  cbn [brave_loop].
  destruct (is_dead_end_returns g target.1 target.2 Hwf) as [dead ->].
  rewrite Ok_bind. destruct dead; [done|].
  destruct (turns_to_reach_returns (game_map g) agent_p target Hwf)
    as [agent_steps Ha].
  rewrite Ha, Ok_bind. destruct (num_eqb agent_steps Inf); [done|].
  destruct (min_turns_returns (game_map g) aggressive target Hwf Hne)
    as [enemy_steps He].
  rewrite He, Ok_bind.
  destruct (num_ltb agent_steps (num_sub_int enemy_steps 1)) eqn:Hlt; [|done].
  exfalso. apply (Hno target); [apply list_elem_of_here|].
  exists agent_steps, enemy_steps. split; [done|].
  split; [by apply min_turns_spec | done].
Qed.
End brave.

(** C6.  A path that [find_brave_path] returns ends on a collectible that
    the agent reaches more than one turn before the nearest aggressive
    threat ([agentTurns < enemyTurns - 1]); without an aggressive threat,
    or when no collectible has this margin, it returns [None]. *)
Theorem find_brave_path_spec (g : Game) (threats : list Obstacle) :
  let aggressive := filter (fun t => is_aggressive t = true) threats in
  let agent_p := agent_pos (agent g) in
  (forall pth, find_brave_path g threats = Ok (Some pth) ->
     aggressive ≠ [] ∧
     ∃ cs target, collectibles g = Some cs ∧ target ∈ cs ∧
                  last pth = Some target ∧
                  brave_margin (game_map g) agent_p aggressive target) ∧
  (aggressive = [] -> find_brave_path g threats = Ok None) ∧
  (wf_grid (game_map g) ->
   forall cs, collectibles g = Some cs ->
     (forall target, target ∈ cs ->
        ¬ brave_margin (game_map g) agent_p aggressive target) ->
     find_brave_path g threats = Ok None).
Proof.
  intros aggressive agent_p. unfold find_brave_path.
  fold aggressive. fold agent_p. split_and!.
  - intros pth H. destruct aggressive as [|a aggressive'] eqn:Ha; [done|].
    split; [done|]. res_inv H. rename a0 into cs.
    apply brave_loop_some in H as (target & Ht & Hl & Hm).
    exists cs, target. apply sorted_by_elem_of in Ht.
    destruct (collectibles g); [|done]. injection E as ->. done.
  - by intros ->.
  - intros Hwf cs Hcs Hno. destruct aggressive as [|a aggressive'] eqn:Ha; [done|].
    rewrite Hcs. cbn [attr]. rewrite Ok_bind.
    apply brave_loop_none; [done | done |].
    intros target Ht. apply Hno. by apply sorted_by_elem_of in Ht.
Qed.

(** With the enemy eight turns from the collectible (3, 1) and the agent
    two, the brave planner goes for it; with the enemy next to it, it does
    not. *)
Lemma find_brave_path_example :
  find_brave_path brave_game [AggressiveObstacle 9 1 6 patrol]
  = Ok (Some [(1, 1); (2, 1); (3, 1)]) ∧
  find_brave_path chased_game [AggressiveObstacle 6 1 6 attack] = Ok None.
Proof. vm_compute. done. Qed.

(** ** The escape planner *)

Lemma occupied_false (dynamic_obstacles : list Obstacle) (s : pos) :
  occupied dynamic_obstacles s = false <->
  forall o, o ∈ dynamic_obstacles -> s ≠ obs_pos o.
Proof.
  unfold occupied. induction dynamic_obstacles as [|o l IH]; simpl.
  - split; [|done]. intros _ o Ho. by apply elem_of_nil in Ho.
  - rewrite orb_false_iff, IH, bool_decide_eq_false. split.
    + intros [H1 H2] o' Ho'. apply elem_of_cons in Ho' as [->|Ho']; auto.
    + intros H. split; [apply H, list_elem_of_here|].
      intros o' Ho'. by apply H, list_elem_of_further.
Qed.

Lemma existsb_occupied_false (dynamic_obstacles : list Obstacle) (pth : path) :
  existsb (occupied dynamic_obstacles) pth = false <->
  forall s o, s ∈ pth -> o ∈ dynamic_obstacles -> s ≠ obs_pos o.
Proof.
  induction pth as [|s pth IH]; simpl.
  - split; [|done]. intros _ s o Hs. by apply elem_of_nil in Hs.
  - rewrite orb_false_iff, IH, occupied_false. split.
    + intros [H1 H2] s' o Hs' Ho. apply elem_of_cons in Hs' as [->|Hs']; auto.
    + intros H. split.
      * intros o Ho. apply H; [apply list_elem_of_here | done].
      * intros s' o Hs' Ho. apply H; [by apply list_elem_of_further | done].
Qed.

Lemma tile_in_water_obstacle (t : Z) :
  tile_in t [1; 4] = false -> t ≠ TILE_TYPE_OBSTACLE ∧ t ≠ TILE_TYPE_WATER.
Proof.
  unfold tile_in. rewrite bool_decide_eq_false, !elem_of_cons, elem_of_nil.
  unfold TILE_TYPE_OBSTACLE, TILE_TYPE_WATER. tauto.
Qed.

Lemma escape_ring_spec (g : Game) (p : pos) (r : Z) (acc cands : list pos) :
  2 <= r <= 7 ->
  (forall c, c ∈ acc -> escape_spot (game_map g) p c) ->
  escape_ring g p r acc = Ok cands ->
  forall c, c ∈ cands -> escape_spot (game_map g) p c.
Proof.
  intros Hr Hacc H. unfold escape_ring in H.
  eapply (foldM_inv _ (fun acc => forall c, c ∈ acc -> escape_spot (game_map g) p c));
    [|exact Hacc|exact H].
  clear acc Hacc H. intros acc i acc' _ Hacc H.
  eapply (foldM_inv _ (fun acc => forall c, c ∈ acc -> escape_spot (game_map g) p c));
    [|exact Hacc|exact H].
  clear acc acc' Hacc H. intros acc j acc' _ Hacc H. cbv beta in H.
  destruct (_ && _) eqn:Hcond; [|by injection H as <-].
  apply andb_prop in Hcond as [Hring Hin]. apply Z.eqb_eq in Hring.
  res_inv H. rename a into tile. injection H as <-.
  destruct (tile_in tile [1; 4]) eqn:Htile; [done|]. cbn [negb].
  intros c Hc. apply elem_of_app in Hc as [Hc|Hc]; [auto|].
  apply list_elem_of_singleton in Hc as ->.
  apply (cell_grid_get (game_map g) (p.1 + i, p.2 + j)) in E.
  rewrite <- E in Htile. apply tile_in_water_obstacle in Htile as [? ?].
  unfold escape_spot. split_and!; try done; unfold manhattan; simpl; lia.
Qed.

Lemma escape_candidates_spec (g : Game) (p : pos) (cands : list pos) :
  escape_candidates g p = Ok cands ->
  forall c, c ∈ cands -> escape_spot (game_map g) p c.
Proof.
  unfold escape_candidates. intros H.
  eapply (foldM_inv _ (fun acc => forall c, c ∈ acc -> escape_spot (game_map g) p c));
    [| |exact H].
  - intros acc r acc' Hr Hacc H'. apply elem_of_seqZ in Hr. cbv beta in H'.
    apply (escape_ring_spec g p r acc acc'); [lia | done | done].
  - intros c Hc. by apply elem_of_nil in Hc.
Qed.

Lemma escape_eval_spec (g : Game) (p : pos) (cost_map : grid)
    (threats dynamic_obstacles : list Obstacle) (cands : list pos)
    (best best' : option path * real) (spot : pos) :
  spot ∈ cands ->
  (forall pth, best.1 = Some pth -> escape_ok dynamic_obstacles cands pth) ->
  escape_eval g p cost_map threats dynamic_obstacles best spot = Ok best' ->
  forall pth, best'.1 = Some pth -> escape_ok dynamic_obstacles cands pth.
Proof.
  intros Hspot Hbest H. unfold escape_eval in H.
  destruct (occupied dynamic_obstacles spot); [by injection H as <-|].
  res_inv H. destruct a as [path_res cost].
  destruct path_res as [[|c cs]|]; [by injection H as <-| |by injection H as <-].
  destruct (existsb (occupied dynamic_obstacles) (c :: cs)) eqn:Hocc;
    [by injection H as <-|].
  cbn [negb] in H. res_inv H. rename a into m. injection H as <-.
  destruct (real_ltb _ _); [|done].
  intros pth [= <-]. split.
  - by apply existsb_occupied_false.
  - exists spot. split; [done | by eapply a_star_last].
Qed.

(** C7.  A path that [find_escape_path] returns has no cell on the
    position of an enemy of [dynamic_obstacles], and it ends on a cell of a
    Manhattan ring of radius 2 to 7 around the agent that is on the grid and
    neither obstacle nor water. *)
Theorem find_escape_path_spec (g : Game) (threats dynamic_obstacles : list Obstacle)
    (pth : path) :
  find_escape_path g threats dynamic_obstacles = Ok (Some pth) ->
  (forall s o, s ∈ pth -> o ∈ dynamic_obstacles -> s ≠ obs_pos o) ∧
  ∃ spot, last pth = Some spot ∧
          escape_spot (game_map g) (agent_pos (agent g)) spot.
Proof.
  unfold find_escape_path. intros H.
  res_inv H. rename a into cost_map. res_inv H. rename a into cands.
  res_inv H. rename a into best. injection H as Hbest.
  assert (escape_ok dynamic_obstacles cands pth) as [Hfree (spot & Hspot & Hlast)].
  { revert pth Hbest.
    eapply (foldM_inv _ (fun best => forall pth, best.1 = Some pth ->
                           escape_ok dynamic_obstacles cands pth));
      [| |exact E1]; [|by intros pth' Hp; simpl in Hp].
    intros best0 spot best1 Hspot Hbest0 Heval.
    eapply escape_eval_spec; eauto. }
  split; [done|]. exists spot. split; [done|].
  eapply escape_candidates_spec; eauto.
Qed.

Lemma find_escape_path_spec_witness :
  let pth := [(1, 1); (1, 2); (1, 3); (1, 4); (1, 5); (1, 6); (1, 7); (0, 7)] in
  (forall s o, s ∈ pth ->
     o ∈ [AggressiveObstacle 6 1 6 attack; PatrolObstacle 20 15] -> s ≠ obs_pos o) ∧
  ∃ spot, last pth = Some spot ∧ escape_spot empty_map (1, 1) spot.
Proof.
  apply (find_escape_path_spec chased_game [AggressiveObstacle 6 1 6 attack]
           [AggressiveObstacle 6 1 6 attack; PatrolObstacle 20 15]).
  vm_compute. reflexivity.
Defined.

(** * The claim on the cost map *)

(** ** Cells of a grid *)

Lemma py_getitem_inv {A} (l : list A) (i : Z) (a : A) :
  0 <= i -> py_getitem l i = Ok a -> l !! Z.to_nat i = Some a.
Proof.
  intros Hi. unfold py_getitem, py_index.
  destruct ((0 <=? i) && (i <? Z.of_nat (length l))) eqn:E1.
  - destruct (l !! Z.to_nat i); [by intros [= ->] | done].
  - destruct ((- Z.of_nat (length l) <=? i) && (i <? 0)) eqn:E2; [lia | done].
Qed.

Lemma py_setitem_insert {A} (l : list A) (i : Z) (a : A) :
  0 <= i < Z.of_nat (length l) -> py_setitem l i a = Ok (<[Z.to_nat i := a]> l).
Proof.
  intros Hi. unfold py_setitem, py_index.
  by replace ((0 <=? i) && (i <? Z.of_nat (length l))) with true by lia.
Qed.

Lemma wf_grid_lookup (g : grid) (p : pos) :
  wf_grid g -> in_bounds p = true ->
  ∃ row, g !! Z.to_nat p.2 = Some row ∧ length row = Z.to_nat GRID_WIDTH_CELLS ∧
         row !! Z.to_nat p.1 = Some (cell g p).
Proof.
  intros Hwf Hp. pose proof (grid_get_wf g p Hwf Hp) as Hget.
  apply in_bounds_spec in Hp. destruct Hwf as [Hh Hw].
  unfold grid_get in Hget. res_inv Hget. rename a into row.
  apply py_getitem_inv in E, Hget; [|lia..].
  exists row. split_and!; [done | | done].
  eapply (proj1 (Forall_forall _ _) Hw). by eapply list_elem_of_lookup_2.
Qed.

Lemma cell_lookup (g : grid) (p : pos) (row : list Z) (t : Z) :
  0 <= p.1 -> 0 <= p.2 ->
  g !! Z.to_nat p.2 = Some row -> row !! Z.to_nat p.1 = Some t -> cell g p = t.
Proof.
  intros H1 H2 Hrow Ht. apply cell_grid_get. unfold grid_get.
  rewrite (py_getitem_lookup g p.2 row) by done. rewrite Ok_bind.
  by apply py_getitem_lookup.
Qed.

(** [g[y][x] += v] on a grid of the right size. *)
Lemma grid_add_spec (g : grid) (q : pos) (v : Z) :
  wf_grid g -> in_bounds q = true ->
  ∃ g', grid_add g q.1 q.2 v = Ok g' ∧ wf_grid g' ∧
        forall p, in_bounds p = true ->
          cell g' p = cell g p + (if bool_decide (p = q) then v else 0).
Proof.
  intros Hwf Hq.
  destruct (wf_grid_lookup g q Hwf Hq) as (row & Hrow & Hlen & Hcell).
  pose proof Hq as Hq'. apply in_bounds_spec in Hq'.
  destruct Hwf as [Hh Hw].
  unfold GRID_WIDTH_CELLS, GRID_HEIGHT_CELLS in *.
  unfold grid_add.
  rewrite (py_getitem_lookup g q.2 row) by (done || lia). rewrite Ok_bind.
  rewrite (py_getitem_lookup row q.1 (cell g q)) by (done || lia). rewrite Ok_bind.
  rewrite py_setitem_insert by lia. rewrite Ok_bind.
  rewrite py_setitem_insert by lia.
  eexists. split; [reflexivity|]. split.
  - split; [by rewrite length_insert|].
    apply Forall_insert; [done|]. by rewrite length_insert.
  - intros p Hp. pose proof Hp as Hp'. apply in_bounds_spec in Hp'.
    destruct (wf_grid_lookup g p (conj Hh Hw) Hp) as (row' & Hrow' & Hlen' & Hcell').
    unfold GRID_WIDTH_CELLS, GRID_HEIGHT_CELLS in *.
    destruct (decide (p.2 = q.2)) as [Ey|Ny].
    + rewrite Ey in Hrow'. assert (row' = row) as -> by congruence.
      destruct (decide (p.1 = q.1)) as [Ex|Nx].
      * rewrite bool_decide_eq_true_2 by (destruct p, q; simpl in *; congruence).
        apply (cell_lookup _ p (<[Z.to_nat q.1 := cell g q + v]> row)); [lia | lia | |].
        -- rewrite Ey. apply list_lookup_insert_eq. lia.
        -- rewrite Ex. rewrite list_lookup_insert_eq by lia.
           do 2 f_equal. rewrite Ex in Hcell'. congruence.
      * rewrite bool_decide_eq_false_2 by (intros ->; done).
        apply (cell_lookup _ p (<[Z.to_nat q.1 := cell g q + v]> row)); [lia | lia | |].
        -- rewrite Ey. apply list_lookup_insert_eq. lia.
        -- rewrite list_lookup_insert_ne by lia. rewrite Hcell'. f_equal. lia.
    + rewrite bool_decide_eq_false_2 by (intros ->; done).
      apply (cell_lookup _ p row'); [lia | lia | |].
      * rewrite list_lookup_insert_ne by lia. done.
      * rewrite Hcell'. f_equal. lia.
Qed.

(** A loop of additions to cells adds up, cell by cell. *)
Lemma foldM_cells {A} (f : grid -> A -> res grid) (delta : A -> pos -> Z)
    (l : list A) (g : grid) :
  (forall g x, x ∈ l -> wf_grid g ->
     ∃ g', f g x = Ok g' ∧ wf_grid g' ∧
           forall p, in_bounds p = true -> cell g' p = cell g p + delta x p) ->
  wf_grid g ->
  ∃ g', foldM f g l = Ok g' ∧ wf_grid g' ∧
        forall p, in_bounds p = true ->
          cell g' p = cell g p + sumZ (map (fun x => delta x p) l).
Proof.
  revert g. induction l as [|x l IH]; intros g Hstep Hwf; cbn [foldM].
  - exists g. split_and!; [done | done |]. intros p _. simpl. lia.
  - destruct (Hstep g x) as (g1 & -> & Hwf1 & Hcell1); [apply list_elem_of_here | done |].
    rewrite Ok_bind.
    destruct (IH g1) as (g2 & -> & Hwf2 & Hcell2); [|done|].
    { intros g' y Hy. apply Hstep. by apply list_elem_of_further. }
    exists g2. split_and!; [done | done |].
    intros p Hp. rewrite Hcell2, Hcell1 by done. simpl. lia.
Qed.

(** ** Sums of contributions *)

Lemma sumZ_zero {A} (f : A -> Z) (l : list A) :
  (forall x, x ∈ l -> f x = 0) -> sumZ (map f l) = 0.
Proof.
  induction l as [|x l IH]; intros H; simpl; [done|].
  rewrite H by apply list_elem_of_here. rewrite IH; [done|].
  intros y Hy. by apply H, list_elem_of_further.
Qed.

(** Only one element of a list without duplicates can be [a]. *)
Lemma sumZ_indicator {A} `{EqDecision A} (f : A -> Z) (a : A) (l : list A) :
  NoDup l ->
  sumZ (map (fun x => if bool_decide (a = x) then f x else 0) l)
  = if bool_decide (a ∈ l) then f a else 0.
Proof.
  induction 1 as [|x l Hx Hl IH]; simpl; [done|].
  rewrite IH. destruct (decide (a = x)) as [->|Hne].
  - rewrite bool_decide_eq_true_2 by done.
    rewrite (bool_decide_eq_false_2 (x ∈ l)) by done.
    rewrite bool_decide_eq_true_2 by apply list_elem_of_here. lia.
  - rewrite bool_decide_eq_false_2 by done.
    destruct (decide (a ∈ l)).
    + rewrite !bool_decide_eq_true_2; [done | by apply list_elem_of_further | done].
    + rewrite !bool_decide_eq_false_2; [done | | done].
      intros [?|?]%elem_of_cons; done.
Qed.

Lemma sumZ_app (l k : list Z) : sumZ (l ++ k) = sumZ l + sumZ k.
Proof.
  unfold sumZ. induction l as [|x l IH]; cbn [foldr app]; [done|].
  rewrite IH. lia.
Qed.

Lemma sumZ_bind {A B} (f : B -> Z) (k : A -> list B) (l : list A) :
  sumZ (map f (l ≫= k)) = sumZ (map (fun x => sumZ (map f (k x))) l).
Proof.
  induction l as [|x l IH]; simpl; [done|].
  rewrite map_app, sumZ_app. by rewrite <- IH.
Qed.

Lemma sumZ_ext {A} (f h : A -> Z) (l : list A) :
  (forall x, x ∈ l -> f x = h x) -> sumZ (map f l) = sumZ (map h l).
Proof.
  induction l as [|x l IH]; intros H; simpl; [done|].
  rewrite H by apply list_elem_of_here. rewrite IH; [done|].
  intros y Hy. by apply H, list_elem_of_further.
Qed.

(** The one offset of a range that leads from [c] to [a]. *)
Lemma sumZ_range (f : Z -> Z) (a c lo hi : Z) :
  sumZ (map (fun i => if bool_decide (a = c + i) then f i else 0) (range lo hi))
  = if bool_decide (lo <= a - c < hi) then f (a - c) else 0.
Proof.
  rewrite (sumZ_ext _ (fun i => if bool_decide (a - c = i) then f i else 0)).
  2:{ intros i _. destruct (decide (a = c + i)).
      - rewrite !bool_decide_eq_true_2 by lia. done.
      - rewrite !bool_decide_eq_false_2 by lia. done. }
  rewrite sumZ_indicator by apply NoDup_seqZ.
  unfold range. destruct (decide (lo <= a - c < hi)).
  - rewrite !bool_decide_eq_true_2; [done | done | apply elem_of_seqZ; lia].
  - rewrite !bool_decide_eq_false_2; [done | done | rewrite elem_of_seqZ; lia].
Qed.

(** The one offset of a rectangle that leads from [c] to [p]. *)
Lemma sumZ_rectangle (f : pos -> Z) (p c : pos) (lo hi lo' hi' : Z) :
  sumZ (map (fun d => if bool_decide (p = (c.1 + d.1, c.2 + d.2)) then f d else 0)
            (rectangle lo hi lo' hi'))
  = if bool_decide (lo <= p.1 - c.1 < hi ∧ lo' <= p.2 - c.2 < hi')
    then f (p.1 - c.1, p.2 - c.2) else 0.
Proof.
  unfold rectangle. rewrite sumZ_bind.
  rewrite (sumZ_ext _
    (fun y => if bool_decide (p.2 = c.2 + y)
              then (if bool_decide (lo <= p.1 - c.1 < hi) then f (p.1 - c.1, y) else 0)
              else 0)).
  2:{ intros y _. rewrite sumZ_bind.
      rewrite (sumZ_ext _
        (fun x => if bool_decide (p.1 = c.1 + x)
                  then (if bool_decide (p.2 = c.2 + y) then f (x, y) else 0)
                  else 0)).
      2:{ intros x _. cbn [map sumZ foldr fst snd]. rewrite Z.add_0_r.
          destruct p as [px py]. cbn [fst snd].
          repeat case_bool_decide; try done; simplify_eq; lia. }
      rewrite sumZ_range. repeat case_bool_decide; done. }
  rewrite sumZ_range. repeat case_bool_decide; try done; lia.
Qed.

(** ** The passes of [create_dynamic_cost_map] *)

Lemma mapM_fmap {A B} (f : A -> res B) (h : A -> B) (l : list A) :
  (forall a, a ∈ l -> f a = Ok (h a)) -> mapM f l = Ok (h <$> l).
Proof.
  induction l as [|x l IH]; intros H; cbn [mapM]; [done|].
  rewrite H by apply list_elem_of_here. rewrite Ok_bind.
  rewrite IH; [by rewrite Ok_bind|].
  intros a Ha. by apply H, list_elem_of_further.
Qed.

Lemma wf_base_map (game_map : grid) : wf_grid (base_map game_map).
Proof.
  split.
  - unfold base_map, range. by rewrite length_fmap, length_seqZ.
  - unfold base_map. apply Forall_fmap, Forall_forall. intros y _.
    unfold compose, range. by rewrite length_fmap, length_seqZ.
Qed.

Lemma cell_base_map (game_map : grid) (p : pos) :
  in_bounds p = true -> cell (base_map game_map) p = base_cost game_map p.
Proof.
  intros Hp. apply in_bounds_spec in Hp.
  unfold GRID_WIDTH_CELLS, GRID_HEIGHT_CELLS in Hp.
  eapply cell_lookup; [lia | lia | |].
  - unfold base_map. rewrite list_lookup_fmap. unfold range.
    rewrite lookup_seqZ_lt by (unfold GRID_HEIGHT_CELLS; lia). reflexivity.
  - rewrite list_lookup_fmap. unfold range.
    rewrite lookup_seqZ_lt by (unfold GRID_WIDTH_CELLS; lia). simpl.
    do 2 f_equal. destruct p; simpl in *. f_equal; lia.
Qed.

(** The first pass: the cost of every tile. *)
Lemma base_pass (game_map : grid) :
  wf_grid game_map ->
  mapM (fun y => mapM (fun x => t ← grid_get game_map x y; Ok (1 + t * 5))
                      (range 0 GRID_WIDTH_CELLS))
       (range 0 GRID_HEIGHT_CELLS)
  = Ok (base_map game_map).
Proof.
  intros Hwf. unfold base_map. apply mapM_fmap. intros y Hy.
  apply mapM_fmap. intros x Hx.
  unfold range in Hx, Hy. apply elem_of_seqZ in Hx, Hy.
  assert (in_bounds (x, y) = true) as Hin by (apply in_bounds_spec; simpl; lia).
  pose proof (grid_get_wf game_map (x, y) Hwf Hin) as Hget.
  cbn [fst snd] in Hget. rewrite Hget. by rewrite Ok_bind.
Qed.

Lemma all_cells_rectangle :
  all_cells = rectangle 0 GRID_WIDTH_CELLS 0 GRID_HEIGHT_CELLS.
Proof. reflexivity. Qed.

(** The second pass: the dead ends. *)
Lemma dead_end_pass (g : Game) (escape : bool) (cost_map : grid) :
  wf_grid (game_map g) -> wf_grid cost_map ->
  ∃ cost_map',
    foldM (fun (cost_map : grid) (c : pos) =>
             dead ← is_dead_end g c.1 c.2;
             if (dead : bool) then
               let penalty := if escape then 4000 else 200 in
               grid_add cost_map c.1 c.2 penalty
             else Ok cost_map)
          cost_map all_cells = Ok cost_map' ∧
    wf_grid cost_map' ∧
    forall p, in_bounds p = true ->
      cell cost_map' p = cell cost_map p + dead_end_penalty g escape p.
Proof.
  intros Hmap Hwf.
  edestruct (foldM_cells
    (fun (cost_map : grid) (c : pos) =>
       dead ← is_dead_end g c.1 c.2;
       if (dead : bool) then
         let penalty := if escape then 4000 else 200 in
         grid_add cost_map c.1 c.2 penalty
       else Ok cost_map)
    (fun c p => if bool_decide (p = (0 + c.1, 0 + c.2))
                then dead_end_penalty g escape c else 0)
    all_cells cost_map) as (cm & Hcm & Hwf' & Hcell); [|done|].
  - intros cm c Hc Hcm. apply elem_of_all_cells in Hc.
    unfold dead_end_penalty.
    destruct (is_dead_end_returns g c.1 c.2 Hmap) as [dead ->]. rewrite Ok_bind.
    destruct dead.
    + destruct (grid_add_spec cm c (if escape then 4000 else 200) Hcm Hc)
        as (cm' & -> & Hwf' & Hcell).
      exists cm'. split_and!; [done | done |]. intros p Hp.
      rewrite Hcell by done. destruct c. simpl. done.
    + exists cm. split_and!; [done | done |]. intros p Hp.
      case_bool_decide; lia.
  - exists cm. split_and!; [done | done |]. intros p Hp.
    rewrite Hcell by done. f_equal.
    rewrite all_cells_rectangle.
    rewrite (sumZ_rectangle (dead_end_penalty g escape) p (0, 0)).
    apply in_bounds_spec in Hp. cbn [fst snd].
    rewrite bool_decide_eq_true_2 by lia.
    rewrite !Z.sub_0_r. by destruct p.
Qed.

(** The chain of comparisons of the code gives the ring penalty of the
    specification. *)
Lemma ring_cost_penalty (r E d : Z) : 0 <= d -> ring_cost r E d = ring_penalty r E d.
Proof.
  intros Hd. unfold ring_cost, ring_penalty.
  destruct (d =? 0) eqn:E0; [done|].
  destruct (d =? 1) eqn:E1; [by replace (d <=? 1) with true by lia|].
  replace (d <=? 1) with false by lia.
  destruct (d =? 2) eqn:E2; [by replace (d <=? 2) with true by lia|].
  replace (d <=? 2) with false by lia.
  replace (3 <=? d) with true by lia. cbn [andb].
  destruct (d <=? r) eqn:E3; [done|].
  by replace (r <? d) with true by lia.
Qed.

(** Outside of the square of a radius of at least two there is no ring. *)
Lemma ring_penalty_outside (r E d : Z) : r <= E -> 2 <= E -> E < d -> ring_penalty r E d = 0.
Proof.
  intros. unfold ring_penalty.
  replace (d =? 0) with false by lia. replace (d =? 1) with false by lia.
  replace (d =? 2) with false by lia. replace (d <=? r) with false by lia.
  replace (d <=? E) with false by lia. by rewrite !andb_false_r.
Qed.

(** One cell of the square of an aggressive enemy. *)
Lemma aggressive_cell_spec (o_x o_y r E : Z) (mode : Mode) (cost_map : grid) (d : pos) :
  wf_grid cost_map ->
  ∃ cost_map',
    aggressive_cell o_x o_y r E mode cost_map d = Ok cost_map' ∧
    wf_grid cost_map' ∧
    forall p, in_bounds p = true ->
      cell cost_map' p
      = cell cost_map p
        + (if bool_decide (p = ((o_x, o_y).1 + d.1, (o_x, o_y).2 + d.2))
           then ring_cost r E (Z.abs d.1 + Z.abs d.2)
                + (if bool_decide (mode = attack) then 2000 else 0)
           else 0).
Proof.
  intros Hwf. destruct d as [dx dy]. unfold aggressive_cell. cbn [fst snd].
  destruct (in_bounds (o_x + dx, o_y + dy)) eqn:Hn.
  2:{ exists cost_map. split_and!; [done | done |]. intros p Hp.
      rewrite bool_decide_eq_false_2; [lia|]. intros ->. congruence. }
  set (n := (o_x + dx, o_y + dy)) in *.
  assert (∃ cm1,
    (if Z.abs dx + Z.abs dy =? 0 then grid_add cost_map n.1 n.2 8000
     else if Z.abs dx + Z.abs dy <=? 1 then grid_add cost_map n.1 n.2 3000
     else if Z.abs dx + Z.abs dy <=? 2 then grid_add cost_map n.1 n.2 1500
     else if Z.abs dx + Z.abs dy <=? r then grid_add cost_map n.1 n.2 800
     else if Z.abs dx + Z.abs dy <=? E then grid_add cost_map n.1 n.2 300
     else Ok cost_map) = Ok cm1 ∧ wf_grid cm1 ∧
    forall p, in_bounds p = true ->
      cell cm1 p = cell cost_map p
        + (if bool_decide (p = n) then ring_cost r E (Z.abs dx + Z.abs dy) else 0))
    as (cm1 & Hcm1 & Hwf1 & Hcell1).
  { unfold ring_cost.
    repeat match goal with
    | |- context [if ?b then grid_add _ _ _ _ else _] => destruct b
    end;
    try (apply (grid_add_spec cost_map n _ Hwf Hn)).
    exists cost_map. split_and!; [done | done |]. intros p _.
    case_bool_decide; lia. }
  change (o_x + dx) with n.1. change (o_y + dy) with n.2.
  rewrite Hcm1, Ok_bind.
  case_bool_decide as Hmode.
  - destruct (grid_add_spec cm1 n 2000 Hwf1 Hn) as (cm2 & -> & Hwf2 & Hcell2).
    exists cm2. split_and!; [done | done |]. intros p Hp.
    rewrite Hcell2, Hcell1 by done. destruct n. cbn [fst snd].
    case_bool_decide; lia.
  - exists cm1. split_and!; [done | done |]. intros p Hp.
    rewrite Hcell1 by done. destruct n. cbn [fst snd].
    case_bool_decide; lia.
Qed.

Lemma square_offsets_rectangle (E : Z) :
  square_offsets E = rectangle (- E) (E + 1) (- E) (E + 1).
Proof. reflexivity. Qed.

(** The cells next to a patrol enemy. *)
Lemma patrol_cell_spec (game_map : grid) (o_x o_y : Z) (cost_map : grid) (d : pos) :
  wf_grid game_map -> wf_grid cost_map ->
  ∃ cost_map',
    (let n := (o_x + d.1, o_y + d.2) in
     if in_bounds n then
       tile ← grid_get game_map n.1 n.2;
       if negb (tile_in tile [1; 4]) then grid_add cost_map n.1 n.2 1200
       else Ok cost_map
     else Ok cost_map) = Ok cost_map' ∧
    wf_grid cost_map' ∧
    forall p, in_bounds p = true ->
      cell cost_map' p
      = cell cost_map p
        + (if bool_decide (p = (o_x + d.1, o_y + d.2)) &&
              negb (tile_in (cell game_map p) [1; 4])
           then 1200 else 0).
Proof.
  intros Hmap Hwf. cbn zeta. set (n := (o_x + d.1, o_y + d.2)).
  destruct (in_bounds n) eqn:Hn.
  2:{ exists cost_map. split_and!; [done | done |]. intros p Hp.
      rewrite bool_decide_eq_false_2; [simpl; lia|]. intros ->. congruence. }
  rewrite (grid_get_wf game_map n Hmap Hn), Ok_bind.
  destruct (tile_in (cell game_map n) [1; 4]) eqn:Ht; cbn [negb].
  - exists cost_map. split_and!; [done | done |]. intros p Hp.
    case_bool_decide as Hpn; [|simpl; lia]. rewrite Hpn, Ht. simpl. lia.
  - destruct (grid_add_spec cost_map n 1200 Hwf Hn) as (cm & -> & Hwf' & Hcell).
    exists cm. split_and!; [done | done |]. intros p Hp.
    rewrite Hcell by done.
    case_bool_decide as Hpn; [|done]. by rewrite Hpn, Ht.
Qed.

(** The four neighbours are the cells at Manhattan distance one. *)
Lemma patrol_sum (game_map : grid) (o_x o_y : Z) (p : pos) :
  sumZ (map (fun d : pos =>
               if bool_decide (p = (o_x + d.1, o_y + d.2)) &&
                  negb (tile_in (cell game_map p) [1; 4])
               then 1200 else 0)
            [(0, 1); (0, -1); (1, 0); (-1, 0)])
  = if bool_decide (manhattan p (o_x, o_y) = 1) &&
       negb (tile_in (cell game_map p) [1; 4])
    then 1200 else 0.
Proof.
  destruct p as [x y]. unfold manhattan. cbn [map sumZ foldr fst snd].
  destruct (negb (tile_in (cell game_map (x, y)) [1; 4]));
    rewrite ?andb_true_r, ?andb_false_r; [|done].
  repeat case_bool_decide; simplify_eq; try lia.
  all: exfalso;
    repeat match goal with
    | H : (?a, ?b) ≠ (?c, ?d) |- _ =>
      assert (a ≠ c ∨ b ≠ d)
        by (destruct (decide (a = c)) as [->|]; [right; intros ->; by apply H | by left]);
      clear H
    end; lia.
Qed.

(** The third pass: what one enemy adds. *)
Lemma obstacle_penalty_spec (game_map : grid) (escape : bool) (cost_map : grid)
    (o : Obstacle) :
  wf_grid game_map -> wf_grid cost_map ->
  (is_aggressive o = false -> in_bounds (obs_pos o) = true) ->
  ∃ cost_map',
    obstacle_penalty game_map escape cost_map o = Ok cost_map' ∧
    wf_grid cost_map' ∧
    forall p, in_bounds p = true ->
      cell cost_map' p = cell cost_map p + obstacle_cost game_map escape o p.
Proof.
  intros Hmap Hwf Ho. destruct o as [o_x o_y | o_x o_y r mode]; cbn [obstacle_penalty].
  - specialize (Ho eq_refl). cbn [obs_pos] in Ho.
    destruct (grid_add_spec cost_map (o_x, o_y) 2500 Hwf Ho) as (cm1 & Hcm1 & Hwf1 & Hcell1).
    cbn [fst snd] in Hcm1. rewrite Hcm1, Ok_bind.
    edestruct (foldM_cells
      (fun (cost_map : grid) (d : pos) =>
         let n := (o_x + d.1, o_y + d.2) in
         if in_bounds n then
           tile ← grid_get game_map n.1 n.2;
           if negb (tile_in tile [1; 4]) then grid_add cost_map n.1 n.2 1200
           else Ok cost_map
         else Ok cost_map)
      (fun d p => if bool_decide (p = (o_x + d.1, o_y + d.2)) &&
                     negb (tile_in (cell game_map p) [1; 4])
                  then 1200 else 0)
      [(0, 1); (0, -1); (1, 0); (-1, 0)] cm1) as (cm2 & Hcm2 & Hwf2 & Hcell2); [|done|].
    { intros cm d _ Hcm. by apply patrol_cell_spec. }
    exists cm2. split_and!; [done | done |]. intros p Hp.
    rewrite Hcell2, Hcell1 by done. rewrite patrol_sum.
    cbn [obstacle_cost]. lia.
  - set (E := if negb escape then r + 2 else r + 4).
    assert (E = extended_radius escape r) as HE by (by destruct escape).
    edestruct (foldM_cells (aggressive_cell o_x o_y r E mode)
      (fun d p => if bool_decide (p = ((o_x, o_y).1 + d.1, (o_x, o_y).2 + d.2))
                  then ring_cost r E (Z.abs d.1 + Z.abs d.2)
                       + (if bool_decide (mode = attack) then 2000 else 0)
                  else 0)
      (square_offsets E) cost_map) as (cm & Hcm & Hwf' & Hcell); [|done|].
    { intros cm d _ Hcm. by apply aggressive_cell_spec. }
    exists cm. split_and!; [done | done |]. intros p Hp.
    rewrite Hcell by done. f_equal.
    rewrite square_offsets_rectangle.
    rewrite (sumZ_rectangle
      (fun d => ring_cost r E (Z.abs d.1 + Z.abs d.2)
                + (if bool_decide (mode = attack) then 2000 else 0)) p (o_x, o_y)).
    cbn [obstacle_cost fst snd]. rewrite <- HE. unfold in_square.
    destruct (decide (Z.abs (p.1 - o_x) <= E ∧ Z.abs (p.2 - o_y) <= E)) as [Hsq|Hsq].
    + rewrite bool_decide_eq_true_2 by lia.
      replace ((Z.abs (p.1 - o_x) <=? E) && (Z.abs (p.2 - o_y) <=? E)) with true by lia.
      rewrite ring_cost_penalty by lia. done.
    + rewrite bool_decide_eq_false_2 by lia.
      by replace ((Z.abs (p.1 - o_x) <=? E) && (Z.abs (p.2 - o_y) <=? E)) with false by lia.
Qed.

(** [create_dynamic_cost_map] returns, and this is its result. *)
Lemma create_dynamic_cost_map_cells (g : Game) (escape : bool) :
  wf_grid (game_map g) ->
  patrols_in_bounds (default [] (dynamic_obstacles g)) ->
  ∃ cost_map,
    create_dynamic_cost_map g escape = Ok cost_map ∧
    wf_grid cost_map ∧
    forall p, in_bounds p = true ->
      cell cost_map p
      = base_cost (game_map g) p + dead_end_penalty g escape p
        + sumZ (map (fun o => obstacle_cost (game_map g) escape o p)
                    (default [] (dynamic_obstacles g))).
Proof.
  intros Hmap Hpat. unfold create_dynamic_cost_map.
  rewrite base_pass, Ok_bind by done.
  destruct (dead_end_pass g escape (base_map (game_map g)) Hmap (wf_base_map _))
    as (cm1 & Hcm1 & Hwf1 & Hcell1).
  cbn zeta in Hcm1. rewrite Hcm1, Ok_bind.
  destruct (foldM_cells (obstacle_penalty (game_map g) escape)
    (fun o p => obstacle_cost (game_map g) escape o p)
    (default [] (dynamic_obstacles g)) cm1) as (cm2 & -> & Hwf2 & Hcell2); [|done|].
  { intros cm o Ho Hcm. apply obstacle_penalty_spec; [done | done |].
    intros Hagg. by apply Hpat. }
  exists cm2. split_and!; [done | done |]. intros p Hp.
  rewrite Hcell2, Hcell1, cell_base_map by done. done.
Qed.

Lemma patrols_in_boundsb_spec (obstacles : list Obstacle) :
  patrols_in_boundsb obstacles = true -> patrols_in_bounds obstacles.
Proof.
  unfold patrols_in_boundsb, patrols_in_bounds. intros H o Ho Hagg.
  rewrite forallb_forall in H. apply list_elem_of_In, H in Ho.
  by rewrite Hagg in Ho.
Qed.

(** What an aggressive enemy of a radius that is not negative adds: the
    ring penalty of the Manhattan distance, and for an attacking enemy
    2000 on the cells of the square. *)
Lemma obstacle_cost_aggressive (game_map : grid) (escape : bool)
    (o_x o_y r : Z) (mode : Mode) (p : pos) :
  0 <= r ->
  obstacle_cost game_map escape (AggressiveObstacle o_x o_y r mode) p
  = ring_penalty r (extended_radius escape r) (manhattan p (o_x, o_y))
    + (if bool_decide (mode = attack) && in_square o_x o_y (extended_radius escape r) p
       then 2000 else 0).
Proof.
  intros Hr. cbn [obstacle_cost]. destruct (in_square _ _ _ _) eqn:Hsq.
  - by rewrite andb_true_r.
  - rewrite andb_false_r, Z.add_0_r. symmetry.
    unfold in_square in Hsq. unfold manhattan. cbn [fst snd].
    apply ring_penalty_outside; unfold extended_radius in *; destruct escape; lia.
Qed.

(** C5, as stated, fails: the 2000 of an attacking enemy is added on the
    whole square around it.  The enemy of [chased_game] is on (6, 1) with
    the radius 6, so 8 with the extension; the cell (14, 9) is at the
    Manhattan distance 16 from it and costs 2000 more than its tile. *)
Lemma create_dynamic_cost_map_attack_square :
  ∃ cost_map,
    create_dynamic_cost_map chased_game false = Ok cost_map ∧
    in_bounds (14, 9) = true ∧
    extended_radius false 6 < manhattan (14, 9) (6, 1) ∧
    cell cost_map (14, 9) = base_cost (game_map chased_game) (14, 9) + 2000.
Proof.
  eexists. split; [vm_compute; reflexivity|].
  split; [reflexivity|]. split; [vm_compute; reflexivity|].
  vm_compute. reflexivity.
Qed.

(** C5, amended.  On a grid of the right size with the patrol enemies on
    it, [create_dynamic_cost_map] returns a grid of the same size, and the
    cost of every in-bounds cell is the cost of its tile, the penalty of a
    dead end and the sum of what every enemy adds.  An aggressive enemy of
    radius [r >= 0] adds the ring penalty of the Manhattan distance [d]:
    8000 for [d = 0], 3000 for [d = 1], 1500 for [d = 2], 800 for
    [3 <= d <= r], 300 for [r < d <= E] and nothing beyond, where [E] is
    [r + 2], or [r + 4] for an escape; in attack mode it adds 2000 more on
    exactly the cells [c] of the square [|c.x - o.x| <= E] and
    [|c.y - o.y| <= E]. *)
Theorem create_dynamic_cost_map_spec (g : Game) (escape : bool) :
  wf_grid (game_map g) ->
  patrols_in_bounds (default [] (dynamic_obstacles g)) ->
  (∃ cost_map,
     create_dynamic_cost_map g escape = Ok cost_map ∧
     wf_grid cost_map ∧
     forall c, in_bounds c = true ->
       cell cost_map c
       = base_cost (game_map g) c + dead_end_penalty g escape c
         + sumZ (map (fun o => obstacle_cost (game_map g) escape o c)
                     (default [] (dynamic_obstacles g)))) ∧
  (forall o_x o_y r mode c, 0 <= r ->
     let E := extended_radius escape r in
     obstacle_cost (game_map g) escape (AggressiveObstacle o_x o_y r mode) c
     = ring_penalty r E (manhattan c (o_x, o_y))
       + (if bool_decide (mode = attack) && in_square o_x o_y E c then 2000 else 0)).
Proof.
  intros Hmap Hpat. split.
  - by apply create_dynamic_cost_map_cells.
  - intros. by apply obstacle_cost_aggressive.
Qed.

Lemma create_dynamic_cost_map_spec_witness :
  (∃ cost_map,
     create_dynamic_cost_map chased_game false = Ok cost_map ∧
     wf_grid cost_map ∧
     forall c, in_bounds c = true ->
       cell cost_map c
       = base_cost (game_map chased_game) c + dead_end_penalty chased_game false c
         + sumZ (map (fun o => obstacle_cost (game_map chased_game) false o c)
                     (default [] (dynamic_obstacles chased_game)))) ∧
  (forall o_x o_y r mode c, 0 <= r ->
     let E := extended_radius false r in
     obstacle_cost (game_map chased_game) false (AggressiveObstacle o_x o_y r mode) c
     = ring_penalty r E (manhattan c (o_x, o_y))
       + (if bool_decide (mode = attack) && in_square o_x o_y E c then 2000 else 0)).
Proof.
  apply (create_dynamic_cost_map_spec chased_game false).
  - apply wf_gridb_spec. vm_compute. reflexivity.
  - apply patrols_in_boundsb_spec. vm_compute. reflexivity.
Defined.

(** * The agent on its path *)

Lemma adjacent_manhattan (p q : pos) :
  adjacent p q -> Z.abs (q.1 - p.1) + Z.abs (q.2 - p.2) = 1.
Proof.
  intros (m & Hm & Hq). subst q. apply moves_cases in Hm.
  cbn [fst snd]. destruct Hm as [Hm|[Hm|[Hm|Hm]]]; subst m; cbn [fst snd]; lia.
Qed.

Lemma connected_tail (p : pos) (l : path) : connected (p :: l) -> connected l.
Proof. destruct l; [done|]. by intros [_ ?]. Qed.

(** An agent that does not wait, on the first cell of a connected path,
    is after [k] moves on the cell [k] of the path. *)
Lemma Agent_follow (k : nat) (a : Agent) (p : pos) (l : path) :
  wait_timer a <= 0 -> agent_pos a = p -> agent_path a = l -> connected (p :: l) ->
  (k <= length l)%nat ->
  let a' := Agent_moves k a in
  (p :: l) !! k = Some (agent_pos a') ∧ agent_path a' = drop k l ∧
  wait_timer a' = wait_timer a ∧ agent_score a' = agent_score a.
Proof.
  unfold Agent_moves. revert a p l. induction k as [|k IH]; intros a p l Hw Hp Hl Hc Hk.
  - cbn. rewrite Hp. by rewrite drop_0.
  - destruct l as [|q l]; [cbn in Hk; lia|].
    assert (Nat.iter (S k) Agent_move a = Nat.iter k Agent_move (Agent_move a)) as ->.
    { clear. induction k as [|k IH]; [done|]. cbn [Nat.iter nat_rect] in *. by rewrite IH. }
    assert (Agent_move a = mkAgent q.1 q.2 l (agent_score a) (wait_timer a)) as Hm.
    { unfold Agent_move. replace (0 <? wait_timer a) with false by lia.
      rewrite Hl. destruct Hc as [Hadj _]. apply adjacent_manhattan in Hadj.
      unfold agent_pos in Hp. rewrite <- Hp in Hadj. cbn [fst snd] in Hadj.
      by replace (_ =? 1) with true by lia. }
    destruct (IH (Agent_move a) q l) as (H1 & H2 & H3 & H4).
    + rewrite Hm. done.
    + rewrite Hm. unfold agent_pos. cbn. by destruct q.
    + by rewrite Hm.
    + by eapply connected_tail.
    + cbn in Hk. lia.
    + cbn zeta. rewrite H3, H4. rewrite Hm at 3 4. cbn [wait_timer agent_score].
      split_and!; done.
Qed.

Lemma Agent_set_path_here (a : Agent) (l : path) :
  Agent_set_path a (agent_pos a :: l) = set_agent_path a l.
Proof. unfold Agent_set_path. by rewrite bool_decide_eq_true_2. Qed.

(** ** The search patterns *)

Lemma foldE_spec {A S R} (f : S -> A -> res (S + R))
    (Inv : S -> Prop) (Post : R -> Prop) (l : list A) (s : S) :
  (forall s x, x ∈ l -> Inv s ->
     ∃ r, f s x = Ok r ∧ match r with inl s' => Inv s' | inr out => Post out end) ->
  Inv s ->
  ∃ r, foldE f s l = Ok r ∧ match r with inl s' => Inv s' | inr out => Post out end.
Proof.
  revert s. induction l as [|x l IH]; intros s Hstep Hs; cbn [foldE].
  - exists (inl s). done.
  - destruct (Hstep s x) as (r & -> & Hr); [apply list_elem_of_here | done |].
    rewrite Ok_bind. destruct r as [s'|out].
    + apply IH; [|done]. intros ? ? ? ?. apply Hstep; [by apply list_elem_of_further | done].
    + exists (inr out). done.
Qed.

Lemma square_moves_adjacent (p : pos) (direction : Z) :
  0 <= direction < 4 ->
  ∃ move, py_getitem square_moves direction = Ok move ∧
          adjacent p (p.1 + move.1, p.2 + move.2).
Proof.
  intros Hd.
  assert (direction = 0 ∨ direction = 1 ∨ direction = 2 ∨ direction = 3)
    as [ -> | [ -> | [ -> | -> ] ] ] by lia;
    (eexists; split; [reflexivity|]; eexists; split; [|reflexivity]);
    unfold cardinal_moves; set_solver.
Qed.

Lemma last_snoc' {A} (l : list A) (x : A) : last (l ++ [x]) = Some x.
Proof. induction l as [|y [|z l] IH]; done. Qed.

(** One cell of a side: the walk grows by one cell or the pattern
    returns. *)
Lemma square_cell_spec (start_pos : pos) (s : square_state) (i : Z) :
  square_inv start_pos s ->
  ∃ r, square_cell s i = Ok r ∧
       match r with
       | inl s' => square_inv start_pos s' ∧
                   length (sq_path s') = S (length (sq_path s)) ∧
                   sq_length s' = sq_length s ∧ sq_direction s' = sq_direction s
       | inr out => square_walk start_pos out
       end.
Proof.
  intros ((rest & Hpath & Hin) & Hconn & Hlast & Hdir & Hlen).
  destruct (square_moves_adjacent (sq_last_pos s) (sq_direction s) Hdir)
    as (move & Hmove & Hadj).
  unfold square_cell. rewrite Hmove, Ok_bind.
  destruct (in_bounds _) eqn:Hb; cbn [negb].
  - eexists. split; [reflexivity|]. cbv beta iota.
    unfold square_inv. cbn [sq_path sq_last_pos sq_length sq_direction].
    assert (connected (sq_path s ++
              [((sq_last_pos s).1 + move.1, (sq_last_pos s).2 + move.2)]))
      by (by eapply connected_snoc).
    split_and!; try done; try lia; try apply last_snoc'.
    + exists (rest ++ [((sq_last_pos s).1 + move.1, (sq_last_pos s).2 + move.2)]).
      split; [by rewrite Hpath|]. apply Forall_app. split; [done|].
      by apply Forall_singleton.
    + rewrite length_app. cbn. lia.
  - eexists. split; [reflexivity|]. split; [eauto | done].
Qed.

(** The cells of one side. *)
Lemma square_cells_spec (start_pos : pos) (l : list Z) (s : square_state) :
  square_inv start_pos s ->
  ∃ r, foldE square_cell s l = Ok r ∧
       match r with
       | inl s' => square_inv start_pos s' ∧
                   length (sq_path s') = (length (sq_path s) + length l)%nat ∧
                   sq_length s' = sq_length s ∧ sq_direction s' = sq_direction s
       | inr out => square_walk start_pos out
       end.
Proof.
  revert s. induction l as [|x l IH]; intros s Hs; cbn [foldE].
  - exists (inl s). split; [done|]. split_and!; try done; cbn; lia.
  - destruct (square_cell_spec start_pos s x Hs) as (r & -> & Hr). rewrite Ok_bind.
    destruct r as [s1|out]; [|by exists (inr out)].
    destruct Hr as (Hs1 & Hl1 & Hn1 & Hd1).
    destruct (IH s1 Hs1) as (r & -> & Hr). exists r. split; [done|].
    destruct r as [s2|out]; [|done].
    destruct Hr as (Hs2 & Hl2 & Hn2 & Hd2).
    split_and!; [done | | congruence | congruence].
    rewrite Hl2, Hl1. cbn. lia.
Qed.

(** One side and the turn after it. *)
Lemma square_side_spec (start_pos : pos) (s : square_state) (i : Z) :
  square_inv start_pos s ->
  ∃ r, square_side s i = Ok r ∧
       match r with
       | inl s' => square_inv start_pos s' ∧
                   (length (sq_path s) < length (sq_path s'))%nat ∧
                   sq_length s' = sq_length s
       | inr out => square_walk start_pos out
       end.
Proof.
  intros Hs. unfold square_side.
  destruct (square_cells_spec start_pos (range 0 (sq_length s)) s Hs) as (r & -> & Hr).
  rewrite Ok_bind. destruct r as [s1|out]; [|by exists (inr out)].
  destruct Hr as (Hs1 & Hl1 & Hn1 & Hd1).
  eexists. split; [reflexivity|]. cbv beta iota.
  unfold square_inv. cbn [sq_path sq_last_pos sq_length sq_direction].
  destruct Hs as (_ & _ & _ & _ & Hlen).
  destruct Hs1 as (H1 & H2 & H3 & H4 & H5).
  pose proof (Z.mod_pos_bound (sq_direction s1 + 1) 4).
  split_and!; try done; try lia.
  rewrite Hl1. unfold range. rewrite length_seqZ. lia.
Qed.

(** The pattern returns, whatever the start. *)
Lemma square_loop_spec (start_pos : pos) (fuel : nat) (s : square_state) :
  square_inv start_pos s ->
  (1 <= fuel)%nat ->
  ((length (sq_path s) < 400)%nat -> (400 <= 2 * (fuel - 1) + length (sq_path s))%nat) ->
  ∃ out, square_loop fuel s = Ok out ∧ square_walk start_pos out.
Proof.
  revert s. induction fuel as [|fuel IH]; intros s Hs Hpos Hfuel; [lia|].
  cbn [square_loop].
  destruct (len (sq_path s) <? 400) eqn:Hlt.
  2:{ exists (sq_path s). split; [done|]. destruct Hs as (H1 & H2 & _). done. }
  unfold len in Hlt.
  change (range 0 2) with [0; 1]. cbn [foldE].
  destruct (square_side_spec start_pos s 0 Hs) as (r & -> & Hr). rewrite Ok_bind.
  destruct r as [s1|out]; [|rewrite Ok_bind; by exists out].
  destruct Hr as (Hs1 & Hl1 & Hn1).
  destruct (square_side_spec start_pos s1 1 Hs1) as (r & -> & Hr). rewrite !Ok_bind.
  destruct r as [s2|out]; [|by exists out].
  destruct Hr as (Hs2 & Hl2 & Hn2).
  apply IH.
  - destruct Hs2 as (H1 & H2 & H3 & H4 & H5).
    unfold square_inv. cbn [sq_path sq_last_pos sq_length sq_direction].
    split_and!; try done; lia.
  - lia.
  - cbn [sq_path]. lia.
Qed.

Lemma nodupb_spec (l : path) : nodupb l = true -> NoDup l.
Proof.
  induction l as [|p l IH]; cbn [nodupb]; [constructor|].
  intros [H1 H2]%andb_prop. apply negb_true_iff, bool_decide_eq_false in H1.
  constructor; auto.
Qed.

(** ** The parallel pattern *)

Lemma insert_by_Permutation {A} (key : A -> Z) (x : A) (l : list A) :
  insert_by key x l ≡ₚ x :: l.
Proof.
  induction l as [|y l IH]; cbn [insert_by]; [done|].
  destruct (key x <=? key y); [done|]. rewrite IH. apply Permutation_swap.
Qed.

Lemma sorted_by_Permutation {A} (key : A -> Z) (l : list A) : sorted_by key l ≡ₚ l.
Proof.
  unfold sorted_by. induction l as [|x l IH]; cbn [foldr]; [done|].
  by rewrite insert_by_Permutation, IH.
Qed.

Lemma insert_by_sorted {A} (key : A -> Z) (x : A) (l : list A) :
  sorted_rec key l -> sorted_rec key (insert_by key x l).
Proof.
  induction l as [|y l IH]; cbn [insert_by sorted_rec]; [done|].
  intros [Hy Hl]. destruct (key x <=? key y) eqn:Hxy; cbn [sorted_rec].
  - split_and!; [|done..]. constructor; [lia|].
    eapply Forall_impl; [exact Hy|]. intros z Hz. simpl in Hz. lia.
  - split; [|auto]. rewrite insert_by_Permutation. constructor; [lia | done].
Qed.

Lemma sorted_by_sorted {A} (key : A -> Z) (l : list A) : sorted_rec key (sorted_by key l).
Proof.
  unfold sorted_by. induction l as [|x l IH]; cbn [foldr]; [done|].
  by apply insert_by_sorted.
Qed.

Lemma sorted_rec_on {A} (key : A -> Z) (l : list A) : sorted_rec key l -> sorted_on key l.
Proof.
  induction l as [|x l IH]; intros Hs i j a b Hij Ha Hb; [done|].
  destruct Hs as [Hx Hl]. destruct i as [|i].
  - injection Ha as <-. destruct j as [|j]; [injection Hb as <-; lia|].
    cbn in Hb. apply list_elem_of_lookup_2 in Hb.
    by apply (proj1 (Forall_forall _ _) Hx).
  - destruct j as [|j]; [lia|]. cbn in Ha, Hb. eapply (IH Hl i j); [lia | done..].
Qed.

(** The rows are the cells of the grid, each once. *)
Lemma parallel_rows_Permutation : range 0 GRID_HEIGHT_CELLS ≫= parallel_row ≡ₚ all_cells.
Proof.
  unfold all_cells. induction (range 0 GRID_HEIGHT_CELLS) as [|y l IH]; [done|].
  cbn [mbind list_bind]. change (list_bind _ _ ?f ?l) with (l ≫= f) in *.
  apply Permutation_app; [|exact IH].
  assert ((fun x : Z => (x, y)) <$> range 0 GRID_WIDTH_CELLS
          = range 0 GRID_WIDTH_CELLS ≫= (fun x => [(x, y)])) as <-.
  { induction (range 0 GRID_WIDTH_CELLS) as [|x r IHr]; [done|]. cbn. by f_equal. }
  unfold parallel_row. destruct (_ =? 0); [done|].
  by rewrite reverse_Permutation.
Qed.

Lemma NoDup_all_cells : NoDup all_cells.
Proof. apply nodupb_spec. vm_compute. reflexivity. Qed.

(** ** What the agent and the patterns do *)

(** X7.  [Agent.move] changes the position by one cardinal step at most and
    never the score.  While the agent waits only the timer changes; when
    it moves, it moves onto the first cell of its path, which it drops. *)
Theorem Agent_move_one_step (a : Agent) :
  let a' := Agent_move a in
  manhattan (agent_pos a') (agent_pos a) <= 1 ∧
  agent_score a' = agent_score a ∧
  (0 < wait_timer a ->
   agent_pos a' = agent_pos a ∧ agent_path a' = agent_path a ∧
   wait_timer a' = wait_timer a - 1) ∧
  (agent_pos a' ≠ agent_pos a ->
   wait_timer a <= 0 ∧ agent_path a = agent_pos a' :: agent_path a' ∧
   manhattan (agent_pos a') (agent_pos a) = 1) ∧
  (wait_timer a <= 0 -> agent_pos a' = agent_pos a -> agent_path a' = []).
Proof.
  destruct a as [x y p sc w]. unfold Agent_move, agent_pos, manhattan, set_agent_path.
  cbn [agent_x agent_y agent_path agent_score wait_timer].
  destruct (0 <? w) eqn:Hw.
  { cbn [agent_x agent_y agent_path agent_score wait_timer fst snd].
    split_and!; [lia | done | done | intros H; by destruct H | intros; lia]. }
  destruct p as [|[qx qy] rest].
  { cbn [agent_x agent_y agent_path agent_score wait_timer fst snd].
    split_and!; [lia | done | intros; lia | intros H; by destruct H | done]. }
  cbn [fst snd]. destruct (_ =? 1) eqn:H1.
  - cbn [agent_x agent_y agent_path agent_score wait_timer fst snd].
    split_and!; [lia | done | intros; lia | | intros _ [= -> ->]; lia].
    intros _. split_and!; [lia | done | lia].
  - cbn [agent_x agent_y agent_path agent_score wait_timer fst snd].
    split_and!; [lia | done | intros; lia | intros H; by destruct H | done].
Qed.

(** X6.  An agent that does not wait and takes a path of [a_star] from its
    own cell is after [k] moves on the cell [k] of the path, and after the
    last move on the goal with an empty path. *)
Theorem Agent_reaches_goal (game_map : grid) (restricted : list Z)
    (cost_map : option grid) (a : Agent) (goal : pos) (pth : path) (cost : num) :
  a_star game_map (agent_pos a) goal restricted cost_map = Ok (Some pth, cost) ->
  wait_timer a <= 0 ->
  let a0 := Agent_set_path a pth in
  (forall k, (k < length pth)%nat ->
     pth !! k = Some (agent_pos (Agent_moves k a0))) ∧
  agent_pos (Agent_moves (length pth - 1) a0) = goal ∧
  agent_path (Agent_moves (length pth - 1) a0) = [].
Proof.
  intros H Hw. apply a_star_out in H as [[=]|(n & Hn & Hend & [= ->])].
  destruct (from_start_path _ _ _ _ Hn) as (rest & E & _ & Hlast & Hconn).
  rewrite E in *. rewrite Agent_set_path_here. cbn zeta.
  assert (Hfollow : forall k, (k <= length rest)%nat ->
    (agent_pos a :: rest) !! k
      = Some (agent_pos (Agent_moves k (set_agent_path a rest))) ∧
    agent_path (Agent_moves k (set_agent_path a rest)) = drop k rest).
  { intros k Hk.
    destruct (Agent_follow k (set_agent_path a rest) (agent_pos a) rest) as (H1 & H2 & _);
      auto. }
  split_and!.
  - intros k Hk. apply Hfollow. cbn in Hk. lia.
  - cbn [length]. replace (S (length rest) - 1)%nat with (length rest) by lia.
    destruct (Hfollow (length rest)) as [H1 _]; [lia|].
    rewrite Hend in Hlast. rewrite last_lookup in Hlast. cbn [length Nat.pred] in Hlast.
    congruence.
  - cbn [length]. replace (S (length rest) - 1)%nat with (length rest) by lia.
    destruct (Hfollow (length rest)) as [_ H2]; [lia|]. by rewrite H2, drop_all.
Qed.

Lemma Agent_reaches_goal_witness :
  let pth := [(1, 1); (2, 1); (3, 1)] in
  let a0 := Agent_set_path (agent_at (1, 1)) pth in
  (forall k, (k < length pth)%nat ->
     pth !! k = Some (agent_pos (Agent_moves k a0))) ∧
  agent_pos (Agent_moves (length pth - 1) a0) = (3, 1) ∧
  agent_path (Agent_moves (length pth - 1) a0) = [].
Proof.
  apply (Agent_reaches_goal empty_map [TILE_TYPE_WATER; TILE_TYPE_OBSTACLE] None
           (agent_at (1, 1)) (3, 1) _ (Fin 2)).
  - vm_compute. reflexivity.
  - simpl. lia.
Defined.

(** X17.  [ExpandingSquarePattern.get_path] returns for every start, also one
    off the grid: a list that begins with the start, goes on by cardinal
    steps, and has every later cell on the grid. *)
Theorem ExpandingSquarePattern_walk (start_pos : pos) :
  ∃ out, ExpandingSquarePattern_get_path start_pos = Ok out ∧
         (∃ rest, out = start_pos :: rest ∧
                  Forall (fun p => in_bounds p = true) rest) ∧
         connected out.
Proof.
  apply square_loop_spec.
  - unfold square_inv. cbn [sq_path sq_last_pos sq_length sq_direction].
    split_and!; try done; try lia. by exists [].
  - lia.
  - cbn [sq_path length]. lia.
Qed.

(** X18.  From a start on the grid the expanding square visits no cell twice,
    and it has 400 cells at most. *)
Theorem ExpandingSquarePattern_no_revisit (start_pos : pos) :
  in_bounds start_pos = true ->
  ∃ out, ExpandingSquarePattern_get_path start_pos = Ok out ∧
         NoDup out ∧ (length out <= 400)%nat.
Proof.
  intros Hin. apply elem_of_all_cells in Hin.
  assert (Hall : forallb square_path_okb all_cells = true) by (vm_compute; reflexivity).
  rewrite forallb_forall in Hall. apply list_elem_of_In, Hall in Hin.
  unfold square_path_okb in Hin.
  destruct (ExpandingSquarePattern_get_path start_pos) as [out| |]; [|done..].
  apply andb_prop in Hin as [H1 H2]. exists out.
  split_and!; [done | by apply nodupb_spec | by apply Nat.leb_le].
Qed.

Lemma ExpandingSquarePattern_no_revisit_witness :
  ∃ out, ExpandingSquarePattern_get_path (12, 10) = Ok out ∧
         NoDup out ∧ (length out <= 400)%nat.
Proof. apply (ExpandingSquarePattern_no_revisit (12, 10)). reflexivity. Defined.

(** X19.  [ParallelSearchPattern.get_path] returns every cell of the grid once,
    in the order of the Manhattan distance from the start; from a start on
    the grid the first cell is the start. *)
Theorem ParallelSearchPattern_covers_grid (start_pos : pos) :
  let out := ParallelSearchPattern_get_path start_pos in
  out ≡ₚ all_cells ∧ NoDup out ∧
  sorted_on (fun p => manhattan p start_pos) out ∧
  (in_bounds start_pos = true -> head out = Some start_pos).
Proof.
  cbn zeta.
  assert (HP : ParallelSearchPattern_get_path start_pos ≡ₚ all_cells).
  { unfold ParallelSearchPattern_get_path.
    rewrite sorted_by_Permutation. apply parallel_rows_Permutation. }
  assert (HS : sorted_on (fun p => manhattan p start_pos)
                 (ParallelSearchPattern_get_path start_pos)).
  { apply sorted_rec_on. apply sorted_by_sorted. }
  split_and!; [done | by rewrite HP; apply NoDup_all_cells | done |].
  intros Hin. apply elem_of_all_cells in Hin. rewrite <- HP in Hin.
  apply list_elem_of_lookup in Hin as [j Hj].
  destruct (ParallelSearchPattern_get_path start_pos) as [|a l] eqn:E; [done|].
  cbn [head]. f_equal.
  pose proof (HS 0%nat j a start_pos (Nat.le_0_l j) eq_refl Hj) as Hle.
  cbn beta in Hle. rewrite manhattan_refl in Hle.
  apply manhattan_zero. unfold manhattan in *. lia.
Qed.

(** * Dead ends and the moves of the enemies *)

Lemma grid_get_cell (g : grid) (x y : Z) :
  wf_grid g -> in_bounds (x, y) = true -> grid_get g x y = Ok (cell g (x, y)).
Proof. intros Hwf Hin. apply (grid_get_wf g (x, y) Hwf Hin). Qed.

(** The count of [is_dead_end]. *)
Lemma count_free_neighbors (game_map : grid) (x y : Z) (moves : list pos) (n : Z) :
  wf_grid game_map ->
  foldM (fun (n : Z) (d : pos) =>
           let q := (x + d.1, y + d.2) in
           if in_bounds q then
             tile ← grid_get game_map q.1 q.2;
             Ok (if bool_decide (tile ≠ TILE_TYPE_OBSTACLE) then n + 1 else n)
           else Ok n)
        n moves
  = Ok (n + len (neighbours_with
                   (fun q => bool_decide (cell game_map q ≠ TILE_TYPE_OBSTACLE))
                   (x, y) moves)).
Proof.
  intros Hwf. revert n. unfold neighbours_with, len.
  match goal with |- forall n, foldM ?f _ _ = _ => set (step := f) end.
  assert (Hstep : forall n d, step n d =
    Ok (if in_bounds (x + d.1, y + d.2) &&
           bool_decide (cell game_map (x + d.1, y + d.2) ≠ TILE_TYPE_OBSTACLE)
        then n + 1 else n)).
  { intros n d. unfold step. cbv zeta. cbn [fst snd].
    destruct (in_bounds (x + d.1, y + d.2)) eqn:Hin; [|done].
    rewrite grid_get_cell by done. by rewrite Ok_bind. }
  clearbody step.
  induction moves as [|d moves IH]; intros n; cbn [foldM].
  - cbn. f_equal. lia.
  - rewrite Hstep, Ok_bind, IH. rewrite filter_cons. cbn [fst snd].
    destruct (_ && _).
    + rewrite decide_True by done. f_equal. cbn [length]. lia.
    + rewrite decide_False by (by intros [=]). done.
Qed.

(** The moves of [PatrolObstacle.update]. *)
Lemma patrol_moves_filter (game_map : grid) (p : pos) (allowed_tiles : list Z)
    (moves acc : list pos) :
  wf_grid game_map ->
  foldM (fun (moves : list pos) (d : pos) =>
           let new := (p.1 + d.1, p.2 + d.2) in
           if in_bounds new then
             tile ← grid_get game_map new.1 new.2;
             Ok (if tile_in tile allowed_tiles then moves ++ [d] else moves)
           else Ok moves)
        acc moves
  = Ok (acc ++ neighbours_with (fun q => tile_in (cell game_map q) allowed_tiles) p moves).
Proof.
  intros Hwf. revert acc. unfold neighbours_with.
  match goal with |- forall acc, foldM ?f _ _ = _ => set (step := f) end.
  assert (Hstep : forall acc d, step acc d =
    Ok (if in_bounds (p.1 + d.1, p.2 + d.2) &&
           tile_in (cell game_map (p.1 + d.1, p.2 + d.2)) allowed_tiles
        then acc ++ [d] else acc)).
  { intros acc d. unfold step. cbv zeta. cbn [fst snd].
    destruct (in_bounds (p.1 + d.1, p.2 + d.2)) eqn:Hin; [|done].
    rewrite grid_get_cell by done. by rewrite Ok_bind. }
  clearbody step.
  induction moves as [|d moves IH]; intros acc; cbn [foldM].
  - by rewrite filter_nil, app_nil_r.
  - rewrite Hstep, Ok_bind, IH. rewrite filter_cons.
    destruct (_ && _).
    + rewrite decide_True by done. by rewrite <- app_assoc.
    + rewrite decide_False by (by intros [=]). done.
Qed.

Lemma patrol_moves_spec (game_map : grid) (p : pos) (allowed_tiles : list Z) :
  wf_grid game_map ->
  patrol_moves game_map p allowed_tiles = Ok (allowed_moves game_map allowed_tiles p).
Proof. intros Hwf. unfold patrol_moves. by rewrite patrol_moves_filter. Qed.

Lemma elem_of_neighbours_with (ok : pos -> bool) (p d : pos) (moves : list pos) :
  d ∈ neighbours_with ok p moves <->
  d ∈ moves ∧ in_bounds (p.1 + d.1, p.2 + d.2) = true ∧ ok (p.1 + d.1, p.2 + d.2) = true.
Proof.
  unfold neighbours_with. rewrite list_elem_of_filter.
  rewrite andb_true_iff. tauto.
Qed.

Lemma patrol_move_adjacent (p d : pos) :
  d ∈ [(0, 1); (0, -1); (1, 0); (-1, 0)] -> adjacent p (p.1 + d.1, p.2 + d.2).
Proof. intros Hd. exists d. split; [|done]. unfold cardinal_moves. set_solver. Qed.

Lemma adjacent_moves (p q : pos) :
  adjacent p q ->
  ∃ d, d ∈ [(0, 1); (0, -1); (1, 0); (-1, 0)] ∧ q = (p.1 + d.1, p.2 + d.2).
Proof. intros (d & Hd & ->). exists d. split; [|done]. unfold cardinal_moves in Hd. set_solver. Qed.

Lemma adjacent_ne (p q : pos) : adjacent p q -> q ≠ p.
Proof.
  intros Hadj%adjacent_manhattan ->. lia.
Qed.

Lemma random_choice_elem_of {A} (rnd : nat) (l : list A) :
  l ≠ [] -> ∃ x, random_choice rnd l = Some x ∧ x ∈ l.
Proof.
  intros Hl. unfold random_choice.
  destruct (lookup_lt_is_Some_2 l (rnd mod length l)) as [x Hx].
  { apply Nat.mod_upper_bound. by destruct l. }
  exists x. split; [done|]. by eapply list_elem_of_lookup_2.
Qed.

Lemma obs_pos_move (o : Obstacle) (p : pos) : obs_pos (obs_move o p) = p.
Proof. destruct o, p; done. Qed.

Lemma is_aggressive_move (o : Obstacle) (p : pos) :
  is_aggressive (obs_move o p) = is_aggressive o.
Proof. by destruct o. Qed.

(** One random step of an enemy. *)
Lemma PatrolObstacle_update_cases (game_map : grid) (rnd : nat)
    (allowed_tiles : list Z) (o : Obstacle) :
  wf_grid game_map ->
  ∃ o', PatrolObstacle_update game_map rnd allowed_tiles o = Ok o' ∧
        is_aggressive o' = is_aggressive o ∧
        ((allowed_moves game_map allowed_tiles (obs_pos o) = [] ∧ o' = o) ∨
         (adjacent (obs_pos o) (obs_pos o') ∧ in_bounds (obs_pos o') = true ∧
          tile_in (cell game_map (obs_pos o')) allowed_tiles = true)).
Proof.
  intros Hwf. unfold PatrolObstacle_update.
  rewrite patrol_moves_spec, Ok_bind by done.
  destruct (allowed_moves game_map allowed_tiles (obs_pos o)) as [|d0 ds] eqn:Hm.
  - unfold random_choice. rewrite lookup_nil. exists o. auto.
  - destruct (random_choice_elem_of rnd (d0 :: ds)) as (d & -> & Hd); [done|].
    rewrite <- Hm in Hd. apply elem_of_neighbours_with in Hd as (Hd & Hin & Ht).
    eexists. split; [reflexivity|]. rewrite is_aggressive_move, obs_pos_move.
    split; [done|]. right. split_and!; [by apply patrol_move_adjacent | done | done].
Qed.

(** X11.  [is_dead_end] never raises on a grid of the right size, also for a
    cell off the grid.  A cell that holds a collectible is no dead end;
    any other cell is one exactly when at most one of its four
    neighbours is on the grid and not an obstacle. *)
Theorem is_dead_end_spec (g : Game) (x y : Z) :
  wf_grid (game_map g) ->
  ∃ dead, is_dead_end g x y = Ok dead ∧
    (dead = true <->
     ((x, y) ∉ (default [] (collectibles g) ++ default [] (land_collectibles g))) ∧
     (length (free_neighbors (game_map g) (x, y)) <= 1)%nat).
Proof.
  intros Hwf. unfold is_dead_end. case_bool_decide as Ht.
  - exists false. split; [done|]. split; [done | tauto].
  - rewrite count_free_neighbors, Ok_bind by done.
    eexists. split; [reflexivity|]. unfold free_neighbors, len.
    rewrite Z.leb_le. split; [intros; split; [done | lia] | intros [_ ?]; lia].
Qed.

Lemma is_dead_end_spec_witness :
  ∃ dead, is_dead_end chased_game 0 0 = Ok dead ∧
    (dead = true <->
     (((0, 0) : pos) ∉ (default [] (collectibles chased_game)
                        ++ default [] (land_collectibles chased_game))) ∧
     (length (free_neighbors (game_map chased_game) (0, 0)%Z) <= 1)%nat).
Proof.
  apply (is_dead_end_spec chased_game 0 0).
  apply wf_gridb_spec. vm_compute. reflexivity.
Defined.

(** X10.  [PatrolObstacle.update] on a grid of the right size never raises.
    The enemy keeps its kind; it stays where it is exactly when no
    neighbouring cell is on the grid with an allowed tile, and otherwise
    it makes one cardinal step onto such a cell. *)
Theorem PatrolObstacle_update_step (game_map : grid) (rnd : nat)
    (allowed_tiles : list Z) (o : Obstacle) :
  wf_grid game_map ->
  ∃ o', PatrolObstacle_update game_map rnd allowed_tiles o = Ok o' ∧
        is_aggressive o' = is_aggressive o ∧
        (obs_pos o' = obs_pos o <->
         forall q, adjacent (obs_pos o) q -> in_bounds q = true ->
                   tile_in (cell game_map q) allowed_tiles = false) ∧
        (obs_pos o' ≠ obs_pos o ->
         adjacent (obs_pos o) (obs_pos o') ∧ in_bounds (obs_pos o') = true ∧
         tile_in (cell game_map (obs_pos o')) allowed_tiles = true).
Proof.
  intros Hwf.
  destruct (PatrolObstacle_update_cases game_map rnd allowed_tiles o Hwf)
    as (o' & Ho' & Hkind & Hcases).
  exists o'. split_and!; [done | done | |].
  - destruct Hcases as [[Hnone ->]|(Hadj & Hin & Ht)].
    + split; [|done]. intros _ q Hq Hqin.
      destruct (tile_in (cell game_map q) allowed_tiles) eqn:Hqt; [|done].
      apply adjacent_moves in Hq as (d & Hd & ->).
      assert (d ∈ allowed_moves game_map allowed_tiles (obs_pos o)) as Hmem
        by (by apply elem_of_neighbours_with).
      rewrite Hnone in Hmem. by apply elem_of_nil in Hmem.
    + split.
      * intros Heq. by apply adjacent_ne in Hadj.
      * intros Hall. rewrite (Hall _ Hadj Hin) in Ht. done.
  - intros Hne. destruct Hcases as [[_ ->]|?]; done.
Qed.

Lemma PatrolObstacle_update_step_witness :
  ∃ o', PatrolObstacle_update empty_map 0 [TILE_TYPE_FREE] (PatrolObstacle 20 15) = Ok o' ∧
        is_aggressive o' = is_aggressive (PatrolObstacle 20 15) ∧
        (obs_pos o' = obs_pos (PatrolObstacle 20 15) <->
         forall q, adjacent (obs_pos (PatrolObstacle 20 15)) q -> in_bounds q = true ->
                   tile_in (cell empty_map q) [TILE_TYPE_FREE] = false) ∧
        (obs_pos o' ≠ obs_pos (PatrolObstacle 20 15) ->
         adjacent (obs_pos (PatrolObstacle 20 15)) (obs_pos o') ∧
         in_bounds (obs_pos o') = true ∧
         tile_in (cell empty_map (obs_pos o')) [TILE_TYPE_FREE] = true).
Proof.
  apply (PatrolObstacle_update_step empty_map 0 [TILE_TYPE_FREE] (PatrolObstacle 20 15)).
  apply wf_gridb_spec. vm_compute. reflexivity.
Defined.

(** X9.  With the enemy and the agent on the grid (so that [math.hypot]
    gets differences of cells, cannot overflow and is compared exactly), the
    update of an enemy of either kind never raises on grids of the right
    size, keeps the kind, and moves the enemy by one cardinal step at most:
    onto a cell of the grid whose tile is allowed (the random walk) or
    neither obstacle nor water (the attack). *)
Theorem Obstacle_update_step (instance : option grid) (game_map : grid)
    (agent : Agent) (rnd : nat) (allowed_tiles : list Z) (o : Obstacle) :
  wf_grid game_map -> wf_cost_map instance ->
  in_bounds (obs_pos o) = true -> in_bounds (agent_pos agent) = true ->
  ∃ o', Obstacle_update instance game_map agent rnd allowed_tiles o = Ok o' ∧
        is_aggressive o' = is_aggressive o ∧
        (obs_pos o' = obs_pos o ∨
         (adjacent (obs_pos o) (obs_pos o') ∧ in_bounds (obs_pos o') = true ∧
          (tile_in (cell game_map (obs_pos o')) allowed_tiles = true ∨
           ∃ game, instance = Some game ∧
                   tile_in (cell game (obs_pos o'))
                           [TILE_TYPE_OBSTACLE; TILE_TYPE_WATER] = false))).
Proof.
  intros Hwf Hinst _ _.
  assert (Hwalk : forall o, ∃ o',
    PatrolObstacle_update game_map rnd allowed_tiles o = Ok o' ∧
    is_aggressive o' = is_aggressive o ∧
    (obs_pos o' = obs_pos o ∨
     (adjacent (obs_pos o) (obs_pos o') ∧ in_bounds (obs_pos o') = true ∧
      (tile_in (cell game_map (obs_pos o')) allowed_tiles = true ∨
       ∃ game, instance = Some game ∧
               tile_in (cell game (obs_pos o'))
                       [TILE_TYPE_OBSTACLE; TILE_TYPE_WATER] = false)))).
  { intros o0.
    destruct (PatrolObstacle_update_cases game_map rnd allowed_tiles o0 Hwf)
      as (o' & Ho' & Hkind & [[_ Heq]|(Hadj & Hin & Ht)]); exists o';
      [rewrite Heq in *|]; auto 10. }
  destruct o as [x y | x y r m]; cbn [Obstacle_update]; [apply Hwalk|].
  unfold AggressiveObstacle_update.
  destruct (hypot_le _ _ _); [|apply (Hwalk (AggressiveObstacle x y r patrol))].
  destruct instance as [game|]; [|exists (AggressiveObstacle x y r attack); auto].
  destruct (a_star_returns game (x, y) (agent_x agent, agent_y agent)
              [TILE_TYPE_OBSTACLE; TILE_TYPE_WATER] None Hinst I) as [[pth cost] Hstar].
  rewrite Hstar, Ok_bind.
  apply a_star_out in Hstar as [[= -> _]|(n & Hn & Hend & Hpth)];
    [apply (Hwalk (AggressiveObstacle x y r attack))|].
  cbn [fst] in Hpth. subst pth.
  destruct (from_start_path _ _ _ _ Hn) as (rest & -> & Hrest & _ & Hconn).
  destruct rest as [|p1 rest]; [apply (Hwalk (AggressiveObstacle x y r attack))|].
  eexists. split; [reflexivity|]. rewrite obs_pos_move. split; [done|]. right.
  destruct Hconn as [Hadj _]. apply Forall_cons in Hrest as [[Hin Ht] _].
  split_and!; [done | done |]. right. eauto.
Qed.

Lemma Obstacle_update_step_witness :
  let o := AggressiveObstacle 5 1 6 patrol in
  ∃ o', Obstacle_update (Some empty_map) empty_map (agent_at (1, 1)) 0
          [TILE_TYPE_FREE; TILE_TYPE_DIFFICULT; TILE_TYPE_HAZARD] o = Ok o' ∧
        is_aggressive o' = is_aggressive o ∧
        (obs_pos o' = obs_pos o ∨
         (adjacent (obs_pos o) (obs_pos o') ∧ in_bounds (obs_pos o') = true ∧
          (tile_in (cell empty_map (obs_pos o'))
                   [TILE_TYPE_FREE; TILE_TYPE_DIFFICULT; TILE_TYPE_HAZARD] = true ∨
           ∃ game, Some empty_map = Some game ∧
                   tile_in (cell game (obs_pos o'))
                           [TILE_TYPE_OBSTACLE; TILE_TYPE_WATER] = false))).
Proof.
  apply (Obstacle_update_step (Some empty_map) empty_map (agent_at (1, 1)) 0
           [TILE_TYPE_FREE; TILE_TYPE_DIFFICULT; TILE_TYPE_HAZARD]
           (AggressiveObstacle 5 1 6 patrol)).
  - apply wf_gridb_spec. vm_compute. reflexivity.
  - apply wf_gridb_spec. vm_compute. reflexivity.
  - reflexivity.
  - reflexivity.
Defined.

(** * The end of a mission, for the other results *)



(** * More on the cost map *)

Lemma sumZ_nonneg {A} (f : A -> Z) (l : list A) :
  (forall x, 0 <= f x) -> 0 <= sumZ (map f l).
Proof.
  intros Hf. induction l as [|x l IH]; cbn [map sumZ foldr]; [lia|].
  specialize (Hf x). fold (sumZ (map f l)). lia.
Qed.

Lemma sumZ_le {A} (f h : A -> Z) (l : list A) :
  (forall x, f x <= h x) -> sumZ (map f l) <= sumZ (map h l).
Proof.
  intros Hf. induction l as [|x l IH]; cbn [map sumZ foldr]; [lia|].
  specialize (Hf x). fold (sumZ (map f l)). fold (sumZ (map h l)). lia.
Qed.

Ltac split_ifs :=
  repeat match goal with |- context [if ?b then _ else _] => destruct b end.

Lemma ring_penalty_nonneg (r E d : Z) : 0 <= ring_penalty r E d.
Proof. unfold ring_penalty. split_ifs; lia. Qed.

Lemma ring_penalty_mono (r d : Z) :
  ring_penalty r (r + 2) d <= ring_penalty r (r + 4) d.
Proof.
  unfold ring_penalty.
  destruct (d =? 0); [lia|]. destruct (d =? 1); [lia|]. destruct (d =? 2); [lia|].
  destruct ((3 <=? d) && (d <=? r)); [lia|].
  destruct (r <? d) eqn:H1; cbn [andb]; [|lia].
  destruct (d <=? r + 2) eqn:H2; destruct (d <=? r + 4) eqn:H3; lia.
Qed.

Lemma obstacle_cost_nonneg (game_map : grid) (escape : bool) (o : Obstacle) (c : pos) :
  0 <= obstacle_cost game_map escape o c.
Proof.
  destruct o as [x y | x y r m]; cbn [obstacle_cost].
  - split_ifs; lia.
  - pose proof (ring_penalty_nonneg r (extended_radius escape r) (manhattan c (x, y))).
    split_ifs; lia.
Qed.

Lemma obstacle_cost_escape (game_map : grid) (o : Obstacle) (c : pos) :
  obstacle_cost game_map false o c <= obstacle_cost game_map true o c.
Proof.
  destruct o as [x y | x y r m]; cbn [obstacle_cost]; [lia|].
  unfold extended_radius, in_square.
  pose proof (ring_penalty_mono r (manhattan c (x, y))).
  pose proof (ring_penalty_nonneg r (r + 4) (manhattan c (x, y))).
  destruct ((Z.abs (c.1 - x) <=? r + 2) && (Z.abs (c.2 - y) <=? r + 2)) eqn:H2.
  - replace ((Z.abs (c.1 - x) <=? r + 4) && (Z.abs (c.2 - y) <=? r + 4)) with true by lia.
    lia.
  - destruct ((Z.abs (c.1 - x) <=? r + 4) && (Z.abs (c.2 - y) <=? r + 4)); [|lia].
    case_bool_decide; lia.
Qed.

Lemma dead_end_penalty_escape (g : Game) (c : pos) :
  0 <= dead_end_penalty g false c <= dead_end_penalty g true c.
Proof. unfold dead_end_penalty. destruct (is_dead_end g c.1 c.2) as [[]| |]; lia. Qed.

(** X12.  The penalties of [create_dynamic_cost_map] only add to the cost of a
    tile: every cell of the map costs its tile cost [1 + 5 * tile] or
    more, so 1 or more where no tile code is negative. *)
Theorem cost_map_at_least_tile_cost (g : Game) (escape : bool) :
  wf_grid (game_map g) ->
  patrols_in_bounds (default [] (dynamic_obstacles g)) ->
  ∃ cost_map,
    create_dynamic_cost_map g escape = Ok cost_map ∧
    forall c, in_bounds c = true ->
      1 + cell (game_map g) c * 5 <= cell cost_map c ∧
      (0 <= cell (game_map g) c -> 1 <= cell cost_map c).
Proof.
  intros Hwf Hpat.
  destruct (create_dynamic_cost_map_cells g escape Hwf Hpat) as (cm & Hcm & _ & Hcell).
  exists cm. split; [done|]. intros c Hc. rewrite (Hcell c Hc). unfold base_cost.
  pose proof (sumZ_nonneg (fun o => obstacle_cost (game_map g) escape o c)
                (default [] (dynamic_obstacles g))
                (fun o => obstacle_cost_nonneg _ _ o c)).
  assert (0 <= dead_end_penalty g escape c).
  { destruct escape; pose proof (dead_end_penalty_escape g c); lia. }
  lia.
Qed.

Lemma cost_map_at_least_tile_cost_witness :
  ∃ cost_map,
    create_dynamic_cost_map chased_game true = Ok cost_map ∧
    forall c, in_bounds c = true ->
      1 + cell (game_map chased_game) c * 5 <= cell cost_map c ∧
      (0 <= cell (game_map chased_game) c -> 1 <= cell cost_map c).
Proof.
  apply (cost_map_at_least_tile_cost chased_game true).
  - apply wf_gridb_spec. vm_compute. reflexivity.
  - apply patrols_in_boundsb_spec. vm_compute. reflexivity.
Defined.

(** X13.  The cost map for an escape is nowhere cheaper than the one for the
    normal move: on every cell of the grid its cost is the same or higher. *)
Theorem escape_cost_map_dominates (g : Game) :
  wf_grid (game_map g) ->
  patrols_in_bounds (default [] (dynamic_obstacles g)) ->
  ∃ normal escape,
    create_dynamic_cost_map g false = Ok normal ∧
    create_dynamic_cost_map g true = Ok escape ∧
    forall c, in_bounds c = true -> cell normal c <= cell escape c.
Proof.
  intros Hwf Hpat.
  destruct (create_dynamic_cost_map_cells g false Hwf Hpat) as (cm & Hcm & _ & Hcell).
  destruct (create_dynamic_cost_map_cells g true Hwf Hpat) as (cm' & Hcm' & _ & Hcell').
  exists cm, cm'. split_and!; [done | done |]. intros c Hc.
  rewrite (Hcell c Hc), (Hcell' c Hc).
  pose proof (sumZ_le (fun o => obstacle_cost (game_map g) false o c)
                (fun o => obstacle_cost (game_map g) true o c)
                (default [] (dynamic_obstacles g))
                (fun o => obstacle_cost_escape _ o c)).
  pose proof (dead_end_penalty_escape g c). lia.
Qed.

Lemma escape_cost_map_dominates_witness :
  ∃ normal escape,
    create_dynamic_cost_map chased_game false = Ok normal ∧
    create_dynamic_cost_map chased_game true = Ok escape ∧
    forall c, in_bounds c = true -> cell normal c <= cell escape c.
Proof.
  apply (escape_cost_map_dominates chased_game).
  - apply wf_gridb_spec. vm_compute. reflexivity.
  - apply patrols_in_boundsb_spec. vm_compute. reflexivity.
Defined.

(** * The search returns a cheapest path *)

Lemma gcost_child (cost_map : grid) (q : pos) (n : Node) :
  gcost cost_map (mkNode q (Some n)) = gcost cost_map n + cell cost_map q.
Proof. done. Qed.

Lemma reach_from_start game_map restricted start (q : pos) :
  reach game_map restricted start q ->
  ∃ n, from_start game_map restricted start n ∧ position n = q.
Proof.
  induction 1 as [|p q Hp (n & Hn & <-) Hadj Hq].
  - exists (mkNode start None). split; [constructor | done].
  - exists (mkNode q (Some n)). split; [by constructor | done].
Qed.

Section cheapest.
Context (game_map : grid) (restricted : list Z) (start end_ : pos) (cost_map : grid).
Hypothesis wf_map : wf_grid game_map.
Hypothesis wf_cost : wf_grid cost_map.
Hypothesis positive : costs_positive game_map restricted cost_map.

#[local] Abbreviation from_start := (from_start game_map restricted start).
#[local] Abbreviation searching := (searching game_map restricted start end_ cost_map).
#[local] Abbreviation popped_cheapest :=
  (popped_cheapest game_map restricted start cost_map).
#[local] Abbreviation relax := (relax game_map end_ restricted cost_map).
#[local] Abbreviation cheapest_inv :=
  (cheapest_inv game_map restricted start end_ cost_map).
#[local] Abbreviation cost := (gcost cost_map).

Lemma gcost_nonneg (n : Node) : from_start n -> 0 <= cost n.
Proof.
  induction 1 as [|n q Hn IH Hadj Hq]; [done|].
  rewrite gcost_child. specialize (positive q Hq). lia.
Qed.

(** Every walk from the start ends in a closed cell or has in the open
    list an entry whose priority is not above its own. *)
Lemma searching_frontier c0 s (n' : Node) :
  searching c0 [] s -> from_start n' ->
  position n' ∈ closed s ∨
  ∃ z ne, (Fin z, ne) ∈ nodes s ∧ z <= cost n' + manhattan (position n') end_.
Proof.
  intros (Hheap & Hent & Hwalked & Hclosed & Hstart).
  induction 1 as [|n q Hn IH [m [Hm Eq]] Hq]; [by left|].
  cbn [position]. rewrite gcost_child.
  pose proof (positive q Hq) as Hpos.
  pose proof (manhattan_move_l end_ (position n) m Hm) as [_ Hh]. rewrite <- Eq in Hh.
  destruct IH as [Hc|(z & ne & Hne & Hz)].
  - destruct (decide (q ∈ closed s)) as [Hqc|Hqc]; [by left | right].
    destruct (Hclosed _ Hc) as (_ & zc & Hzc & Hbest & Hmoves).
    specialize (Hbest n Hn eq_refl).
    destruct (Hmoves m Hm) as [[_ Hnil]|(z' & Hz' & Hle)];
      [by rewrite <- Eq | by apply elem_of_nil in Hnil |].
    rewrite <- Eq in Hz', Hle.
    destruct (Hwalked q _ Hz') as (z2 & n2 & [= <-] & _ & _ & _ & Hopen).
    exists (z' + manhattan q end_), n2. split; [by apply Hopen | lia].
  - right. exists z, ne. split; [done | lia].
Qed.

(** The entry that [heappop] returns for a cell that is not closed is a
    cheapest walk to this cell. *)
Lemma searching_pop c0 s f c_node rest :
  searching c0 [] s ->
  heapq.heappop entry_ltb (nodes s) = Some ((f, c_node), rest) ->
  position c_node ∉ closed s ->
  popped_cheapest c_node (g_costs s).
Proof.
  intros Hrun Hpop Hncl.
  pose proof Hrun as (Hheap & Hent & Hwalked & Hclosed & Hstart).
  assert (Hin : (f, c_node) ∈ nodes s).
  { rewrite (heappop_elem_of _ _ _ _ Hpop). by left. }
  destruct (heappop_ok entry_ltb entry_ltb_asym entry_leb_trans _ _ _ Hheap Hpop)
    as [_ Hmin].
  destruct (Hent f c_node Hin) as (Hfrom & -> & z & Hz & Hle).
  assert (Hbest : forall n', from_start n' -> position n' = position c_node ->
                             cost c_node <= cost n').
  { intros n' Hn' Hpos.
    destruct (searching_frontier c0 s n' Hrun Hn') as [Hc|(z' & ne & Hne & Hz')];
      [by rewrite Hpos in Hc|].
    specialize (Hmin _ Hne). rewrite entry_ltb_spec in Hmin. cbn [fst num_ltb] in Hmin.
    rewrite Hpos in Hz'. lia. }
  split_and!; [done | | done].
  destruct (Hwalked _ _ Hz) as (z2 & n2 & [= <-] & Hn2 & Hp2 & Hg2 & _).
  specialize (Hbest n2 Hn2 Hp2). rewrite Hz. do 2 f_equal. lia.
Qed.

(** The state in which the relaxations of a popped node start. *)
Lemma searching_closing c0 s f c_node rest :
  searching c0 [] s ->
  heapq.heappop entry_ltb (nodes s) = Some ((f, c_node), rest) ->
  position c_node ≠ end_ -> position c_node ∉ closed s ->
  searching (position c_node) cardinal_moves
    (mkSearch rest ({[position c_node]} ∪ closed s) (g_costs s)).
Proof.
  intros Hrun Hpop Hend Hncl.
  pose proof (searching_pop c0 s f c_node rest Hrun Hpop Hncl) as (Hcfrom & Hcg & Hcbest).
  destruct Hrun as (Hheap & Hent & Hwalked & Hclosed & Hstart).
  destruct (heappop_ok entry_ltb entry_ltb_asym entry_leb_trans _ _ _ Hheap Hpop)
    as [Hheap' _].
  assert (Hsub : forall x, x ∈ rest -> x ∈ nodes s).
  { intros x Hx. rewrite (heappop_elem_of _ _ _ _ Hpop). by right. }
  unfold searching; cbn [nodes closed g_costs]. split_and!; auto.
  - intros g n Hn. apply Hent. auto.
  - intros p v Hp. destruct (Hwalked p v Hp) as (z & n & -> & Hn & Hpn & Hg & Hopen).
    exists z, n. split_and!; try done.
    intros Hpcl. apply not_elem_of_union in Hpcl as [Hpc Hpcl].
    apply not_elem_of_singleton in Hpc.
    eapply heappop_rest; eauto. intros [= _ ->]. done.
  - intros c Hc. apply elem_of_union in Hc as [Hc|Hc].
    + apply elem_of_singleton in Hc as ->. split; [done|].
      exists (cost c_node). split_and!; auto.
    + destruct (Hclosed c Hc) as (H1 & z & H2 & H3 & H4). split; [done|].
      exists z. split_and!; auto.
      intros m Hm Hin. destruct (H4 m Hm Hin) as [[_ Hnil]|Hz]; [|by right].
      by apply elem_of_nil in Hnil.
  - by apply elem_of_union_r.
Qed.

(** The same for the first iteration. *)
Lemma searching_first :
  start ≠ end_ ->
  searching start cardinal_moves (mkSearch [] ({[start]} ∪ ∅) {[start := Fin 0]}) ∧
  popped_cheapest (mkNode start None) {[start := Fin 0]}.
Proof.
  intros Hne.
  assert (Hpop : popped_cheapest (mkNode start None) {[start := Fin 0]}).
  { unfold popped_cheapest. cbn [position gcost].
    rewrite lookup_singleton_eq. split_and!; [constructor | done |].
    intros n' Hn' _. by apply gcost_nonneg. }
  split; [|done].
  unfold searching; cbn [nodes closed g_costs]. split_and!.
  - by intros j a b _ Ha.
  - intros f n Hn. by apply elem_of_nil in Hn.
  - intros p v Hp. apply lookup_singleton_Some in Hp as [<- <-].
    exists 0, (mkNode start None). split_and!; try done; [constructor|].
    intros Hpcl. exfalso. apply Hpcl, elem_of_union_l, elem_of_singleton. done.
  - intros c Hc. apply elem_of_union in Hc as [Hc|Hc];
      [|by apply elem_of_empty in Hc].
    apply elem_of_singleton in Hc as ->. split; [done|].
    exists 0. rewrite lookup_singleton_eq. split_and!; auto.
    intros n' Hn' _. by apply gcost_nonneg.
  - apply elem_of_union_l, elem_of_singleton. done.
Qed.

(** One relaxation, while the node [c_node] is expanded. *)
Lemma searching_relax (c_node : Node) (cl : gset pos) m ms st st' :
  popped_cheapest c_node st.2 ->
  m ∈ cardinal_moves ->
  searching (position c_node) (m :: ms) (mkSearch st.1 cl st.2) ->
  position c_node ∈ cl ->
  relax c_node cl st m = Ok st' ->
  searching (position c_node) ms (mkSearch st'.1 cl st'.2) ∧ popped_cheapest c_node st'.2.
Proof.
  intros Hpop Hm (Hheap & Hent & Hwalked & Hclosed & Hstart) Hc0 Hrelax.
  destruct Hpop as (Hcfrom & Hcg & Hcbest).
  apply relax_spec in Hrelax.
  remember ((position c_node).1 + m.1, (position c_node).2 + m.2) as q eqn:Eq.
  cbn [nodes closed g_costs] in *.
  (* the closed cells keep their properties when only [pending] shrinks *)
  assert (Hshrink :
    (passable game_map restricted q ->
       ∃ z', st.2 !! q = Some (Fin z') ∧ z' <= cost c_node + cell cost_map q) ->
    closed_cheapest game_map restricted start end_ cost_map (position c_node) ms cl st.2).
  { intros Hq c Hc. destruct (Hclosed c Hc) as (H1 & z & H2 & H3 & H4).
    split; [done|]. exists z. split_and!; auto. intros m' Hm' Hin'.
    destruct (H4 m' Hm' Hin') as [[-> Hpend]|Hz]; [|by right].
    apply elem_of_cons in Hpend as [->|Hpend]; [right | left; done].
    rewrite <- Eq in *. rewrite Hcg in H2. injection H2 as <-. by apply Hq. }
  inversion Hrelax as [Hout|tile p Hin Htile Hskip|tile c p Hin Htile Hfree Hncl Hcost Hlt
                       |tile c p new_g Hin Htile Hfree Hncl Hcost Hlt];
    try subst p; try subst new_g; subst st';
    repeat match goal with
           | H : context [((position c_node).1 + m.1, (position c_node).2 + m.2)] |- _ =>
             lazymatch H with Eq => fail | _ => rewrite <- Eq in H end
           end; rewrite <- ?Eq.
  - (* off the grid *)
    split; [|done]. unfold searching; cbn [nodes closed g_costs].
    split_and!; auto.
    apply Hshrink. intros [Hin _]. congruence.
  - (* forbidden, or closed already *)
    split; [|done]. unfold searching; cbn [nodes closed g_costs].
    split_and!; auto.
    apply Hshrink. intros [_ Hq].
    destruct Hskip as [Hr|Hqc].
    { apply cell_grid_get in Htile. rewrite <- Htile in Hr. congruence. }
    destruct (Hclosed q Hqc) as (_ & z & Hgq & Hbest & _).
    exists z. split; [done|].
    apply (Hbest (mkNode q (Some c_node))); [|done].
    apply from_start_child; [done | by exists m | ].
    split; [done|]. done.
  - (* no improvement *)
    split; [|done]. unfold searching; cbn [nodes closed g_costs].
    split_and!; auto.
    apply Hshrink. intros _.
    apply cell_grid_get in Hcost. subst c.
    unfold g_get in Hlt. rewrite Hcg in Hlt.
    cbn [default from_option id num_add] in Hlt.
    apply num_ltb_Fin_false in Hlt as (z & Hz & Hle).
    exists z. split; [|done].
    destruct (st.2 !! q) as [v|] eqn:Hv; simpl in Hz; [by subst | done].
  - (* a better cost for [q] *)
    apply cell_grid_get in Hcost. subst c.
    apply cell_grid_get in Htile. subst tile.
    unfold g_get in Hlt |- *. rewrite Hcg in Hlt |- *.
    cbn [default from_option id num_add fst snd] in *.
    set (gq := cost c_node + cell cost_map q) in *.
    assert (Hqc : q ≠ position c_node) by (intros E; rewrite E in Hncl; done).
    assert (Hold : forall g0, st.2 !! q = Some (Fin g0) -> gq < g0).
    { intros g0 Hg0. rewrite Hg0 in Hlt. simpl in Hlt. lia. }
    assert (Hchild : from_start (mkNode q (Some c_node))).
    { apply from_start_child; [done | by exists m |]. split; done. }
    split.
    2:{ unfold popped_cheapest. split_and!; auto. by rewrite lookup_insert_ne. }
    unfold searching; cbn [nodes closed g_costs].
    split.
    { apply heappush_ok; [apply entry_ltb_asym | apply entry_leb_trans | done]. }
    split.
    { intros f n Hn. rewrite heappush_perm in Hn.
      apply elem_of_cons in Hn as [[= -> ->]|Hn].
      - cbn [position]. rewrite lookup_insert_eq, gcost_child.
        split_and!; [done | done |]. exists gq. split; [done | subst gq; lia].
      - destruct (Hent f n Hn) as (Hfn & Hf & z & Hg & Hle).
        split_and!; [done | done |].
        destruct (decide (position n = q)) as [Epq|Nq].
        + exists gq. rewrite Epq, lookup_insert_eq. rewrite Epq in Hg.
          specialize (Hold _ Hg). split; [done | lia].
        + exists z. by rewrite lookup_insert_ne. }
    split.
    { intros p v Hp. apply lookup_insert_Some in Hp as [[<- <-]|[Np Hp]].
      - exists gq, (mkNode q (Some c_node)). split_and!; try done.
        intros _. rewrite heappush_perm. apply list_elem_of_here.
      - destruct (Hwalked p v Hp) as (z & n & -> & Hn & Hpn & Hg & Hopen).
        exists z, n. split_and!; try done.
        intros Hpcl. rewrite heappush_perm. apply list_elem_of_further. auto. }
    split; [|done].
    intros c Hc. destruct (Hclosed c Hc) as (H1 & z & H2 & H3 & H4).
    assert (c ≠ q) by (intros ->; done).
    rewrite lookup_insert_ne by done.
    split; [done|]. exists z. split_and!; auto. intros m' Hm' Hin'.
    destruct (decide ((c.1 + m'.1, c.2 + m'.2) = q)) as [Ecq|Nq].
    + right. rewrite Ecq, lookup_insert_eq. exists gq. split; [done|].
      destruct (H4 m' Hm' Hin') as [[-> _]|(z' & Hz' & Hle)].
      * rewrite Hcg in H2. injection H2 as <-. subst gq. lia.
      * rewrite Ecq in Hz', Hle. specialize (Hold _ Hz'). lia.
    + rewrite lookup_insert_ne by done.
      destruct (H4 m' Hm' Hin') as [[-> Hpend]|Hz]; [|by right].
      apply elem_of_cons in Hpend as [->|Hpend]; [done | left; done].
Qed.

Lemma searching_expand (c_node : Node) (cl : gset pos) ms st st' :
  popped_cheapest c_node st.2 ->
  (forall m, m ∈ ms -> m ∈ cardinal_moves) ->
  searching (position c_node) ms (mkSearch st.1 cl st.2) ->
  position c_node ∈ cl ->
  foldM (relax c_node cl) st ms = Ok st' ->
  searching (position c_node) [] (mkSearch st'.1 cl st'.2).
Proof.
  revert st. induction ms as [|m ms IH]; intros st Hpop Hsub Hrun Hc Hfold;
    simpl in Hfold.
  - by injection Hfold as <-.
  - res_inv Hfold.
    destruct (searching_relax c_node cl m ms st a) as [Hrun' Hpop']; auto.
    { apply Hsub, list_elem_of_here. }
    apply (IH a); auto.
    intros m' Hm'. by apply Hsub, list_elem_of_further.
Qed.

Lemma cheapest_inv_step s s' :
  cheapest_inv s ->
  a_star_step game_map end_ restricted cost_map s = Ok (inl s') ->
  cheapest_inv s'.
Proof.
  intros Hinv Hstep. apply a_star_step_spec in Hstep. right.
  inversion Hstep as [| |f c rest Hpop Hend Hcl|f c rest nodes' g' Hpop Hend Hcl Hfold];
    subst.
  - (* the popped cell is closed already *)
    destruct Hinv as [->|[c0 Hrun]]; [by apply elem_of_empty in Hcl|].
    exists c0.
    destruct Hrun as (Hheap & Hent & Hwalked & Hclosed & Hstart).
    destruct (heappop_ok entry_ltb entry_ltb_asym entry_leb_trans _ _ _ Hheap Hpop)
      as [Hheap' _].
    assert (Hsub : forall x, x ∈ rest -> x ∈ nodes s).
    { intros x Hx. rewrite (heappop_elem_of _ _ _ _ Hpop). by right. }
    unfold searching; cbn [nodes closed g_costs]. split_and!; auto.
    + intros g n Hn. apply Hent. auto.
    + intros p v Hp. destruct (Hwalked p v Hp) as (z & n & -> & Hn & Hpn & Hg & Hopen).
      exists z, n. split_and!; try done. intros Hpcl.
      eapply heappop_rest; eauto. intros [= _ ->]. by rewrite Hpn in Hcl.
  - (* the popped cell is expanded *)
    exists (position c).
    assert (searching (position c) cardinal_moves
              (mkSearch rest ({[position c]} ∪ closed s) (g_costs s)) ∧
            popped_cheapest c (g_costs s)) as [Hrun Hc].
    { destruct Hinv as [->|[c0 Hrun]].
      - unfold a_star_init in *; cbn [nodes closed g_costs] in *.
        apply heappop_singleton in Hpop as [[= -> ->] ->].
        by apply searching_first.
      - split; [eapply searching_closing | eapply searching_pop]; eauto. }
    apply (searching_expand c ({[position c]} ∪ closed s) cardinal_moves
             (rest, g_costs s) (nodes', g')); auto.
    apply elem_of_union_l, elem_of_singleton. done.
Qed.

Lemma cheapest_inv_out s out :
  cheapest_inv s ->
  a_star_step game_map end_ restricted cost_map s = Ok (inr out) ->
  cheapest_out game_map restricted start end_ cost_map out.
Proof.
  intros Hinv Hstep. apply a_star_step_spec in Hstep.
  remember (inr out) as r eqn:Er.
  destruct Hstep as [Hnil|f c rest Hpop Hend|f c rest Hpop Hend Hcl
                     |f c rest nodes' g' Hpop Hend Hcl Hfold];
    [injection Er as <- | injection Er as <- | discriminate Er | discriminate Er].
  - (* the open list is empty: the goal cannot be reached *)
    left. split; [done|]. intros Hreach.
    destruct Hinv as [->|[c0 Hrun]]; [done|].
    apply reach_from_start in Hreach as (n & Hn & Hpos).
    destruct (searching_frontier c0 s n Hrun Hn) as [Hc|(z & ne & Hne & _)].
    + destruct Hrun as (_ & _ & _ & Hclosed & _).
      rewrite Hpos in Hc. by destruct (Hclosed _ Hc) as [? _].
    + rewrite Hnil in Hne. by apply elem_of_nil in Hne.
  - right. exists c.
    assert (popped_cheapest c (g_costs s)) as (Hcfrom & Hcg & Hcbest).
    { destruct Hinv as [->|[c0 Hrun]].
      - unfold a_star_init in *; cbn [nodes closed g_costs] in *.
        apply heappop_singleton in Hpop as [[= -> ->] ->].
        unfold popped_cheapest. cbn [position gcost].
        rewrite lookup_singleton_eq. split_and!; [constructor | done |].
        intros n' Hn' _. by apply gcost_nonneg.
      - eapply searching_pop; eauto.
        destruct Hrun as (_ & _ & _ & Hclosed & _).
        intros Hc. destruct (Hclosed _ Hc) as [? _]. done. }
    rewrite Hend in Hcg, Hcbest. unfold g_get. rewrite Hcg.
    split_and!; done.
Qed.
End cheapest.

(** ** Walks as paths *)

Lemma path_cost_snoc (cost_map : grid) (p q : pos) (l : path) :
  path_cost cost_map ((p :: l) ++ [q]) = path_cost cost_map (p :: l) + cell cost_map q.
Proof.
  unfold path_cost. cbn [tail app]. rewrite map_app, sumZ_app.
  cbn [map sumZ foldr]. lia.
Qed.

Lemma backtrace_child (q : pos) (n : Node) :
  rev (backtrace (mkNode q (Some n))) = rev (backtrace n) ++ [q].
Proof. done. Qed.

Lemma gcost_path_cost game_map restricted start cost_map (n : Node) :
  from_start game_map restricted start n ->
  path_cost cost_map (rev (backtrace n)) = gcost cost_map n.
Proof.
  intros Hn. induction Hn as [|n q Hn IH Hadj Hq]; [done|].
  rewrite backtrace_child, gcost_child.
  destruct (from_start_path _ _ _ _ Hn) as (rest & E & _).
  rewrite E in *. by rewrite path_cost_snoc, IH.
Qed.

Lemma from_start_walk game_map restricted start (n : Node) :
  from_start game_map restricted start n ->
  walk game_map restricted start (position n) (rev (backtrace n)).
Proof.
  intros Hn. destruct (from_start_path _ _ _ _ Hn) as (rest & E & Hrest & Hlast & Hconn).
  exists rest. done.
Qed.

Lemma connected_app_inv (l : path) (q : pos) :
  connected (l ++ [q]) -> connected l ∧ forall p, last l = Some p -> adjacent p q.
Proof.
  induction l as [|a [|b l] IH]; cbn [app connected].
  - split; [done|]. by intros p [=].
  - intros [Hadj _]. split; [done|]. by intros p [= <-].
  - intros [Hab Hc]. destruct (IH Hc) as [Hc' Hl]. split; [by split|].
    intros p Hp. apply Hl. done.
Qed.

(** Every walk is the chain of a node. *)
Lemma walk_node game_map restricted start goal cost_map (pth : path) :
  walk game_map restricted start goal pth ->
  ∃ n, from_start game_map restricted start n ∧ position n = goal ∧
       rev (backtrace n) = pth ∧ gcost cost_map n = path_cost cost_map pth.
Proof.
  intros (rest & -> & Hrest & Hlast & Hconn). revert goal Hrest Hlast Hconn.
  induction rest as [|q rest IH] using rev_ind; intros goal Hrest Hlast Hconn.
  - injection Hlast as <-. exists (mkNode start None). split_and!; [constructor|done..].
  - apply Forall_app in Hrest as [Hrest Hq]. apply Forall_inv in Hq.
    change (start :: rest ++ [q]) with ((start :: rest) ++ [q]) in *.
    rewrite last_snoc in Hlast. injection Hlast as <-.
    apply connected_app_inv in Hconn as [Hconn Hadj].
    destruct (last (start :: rest)) as [p|] eqn:Hp.
    2:{ apply last_None in Hp. done. }
    destruct (IH p Hrest eq_refl Hconn) as (n & Hn & Hpos & Hbt & Hg).
    exists (mkNode q (Some n)). split_and!.
    + apply from_start_child; [done | rewrite Hpos; by apply Hadj | done].
    + done.
    + by rewrite backtrace_child, Hbt.
    + by rewrite gcost_child, Hg, path_cost_snoc.
Qed.

Lemma costs_positive_uniform (game_map : grid) (restricted : list Z) :
  costs_positive game_map restricted uniform_cost_map.
Proof. intros q [Hin _]. by rewrite cell_uniform_cost_map. Qed.

(** With the default cost map a walk costs its number of moves. *)
Lemma path_cost_uniform game_map restricted start goal (pth : path) :
  walk game_map restricted start goal pth ->
  path_cost uniform_cost_map pth = Z.of_nat (length pth) - 1.
Proof.
  intros (rest & -> & Hrest & _). unfold path_cost. cbn [tail length].
  induction Hrest as [|q rest [Hq _] _ IH]; [done|].
  cbn [map sumZ foldr length]. fold (sumZ (map (cell uniform_cost_map) rest)).
  rewrite cell_uniform_cost_map by done. lia.
Qed.

(** The search with its result. *)
Lemma a_star_cheapest_out game_map start end_ restricted cost_map :
  wf_grid game_map -> wf_cost_map cost_map ->
  costs_positive game_map restricted (default uniform_cost_map cost_map) ->
  ∃ out, a_star game_map start end_ restricted cost_map = Ok out ∧
         cheapest_out game_map restricted start end_
                      (default uniform_cost_map cost_map) out.
Proof.
  intros Hwf Hcm Hpos.
  destruct (a_star_returns game_map start end_ restricted cost_map Hwf Hcm) as [out Hout].
  exists out. split; [done|]. unfold a_star in Hout.
  eapply (a_star_loop_inv game_map end_ restricted _
            (cheapest_inv game_map restricted start end_ (default uniform_cost_map cost_map))
            (cheapest_out game_map restricted start end_ (default uniform_cost_map cost_map)));
    [| | |exact Hout].
  - intros s s'. by apply cheapest_inv_step.
  - intros s o. by apply cheapest_inv_out.
  - by left.
Qed.

Lemma a_star_reach game_map start end_ restricted cost_map pth cost :
  a_star game_map start end_ restricted cost_map = Ok (Some pth, cost) ->
  reach game_map restricted start end_.
Proof.
  intros H. apply a_star_out in H as [[=]|(n & Hn & <- & _)].
  by eapply from_start_reach.
Qed.

(** ** What the search guarantees *)

(** X1.  When every passable cell costs 1 or more and the goal can be
    reached, [a_star] returns a walk from the start to the goal together
    with the cost of this walk (the cost-map cells of every position but
    the first), and no walk from the start to the goal costs less. *)
Theorem a_star_cheapest
    (game_map : grid) (start end_ : pos) (restricted : list Z) (cost_map : option grid) :
  wf_grid game_map -> wf_cost_map cost_map ->
  costs_positive game_map restricted (default uniform_cost_map cost_map) ->
  reach game_map restricted start end_ ->
  let cm := default uniform_cost_map cost_map in
  ∃ pth, a_star game_map start end_ restricted cost_map
           = Ok (Some pth, Fin (path_cost cm pth)) ∧
         walk game_map restricted start end_ pth ∧
         forall pth', walk game_map restricted start end_ pth' ->
                      path_cost cm pth <= path_cost cm pth'.
Proof.
  intros Hwf Hcm Hpos Hreach cm.
  destruct (a_star_cheapest_out game_map start end_ restricted cost_map Hwf Hcm Hpos)
    as (out & Hout & [[_ Hno]|(n & -> & Hn & Hend & Hbest)]); [done|].
  exists (rev (backtrace n)).
  rewrite (gcost_path_cost _ _ _ _ _ Hn). split_and!; [done | |].
  - rewrite <- Hend. by apply from_start_walk.
  - intros pth' Hpth'.
    destruct (walk_node _ _ _ _ cm _ Hpth') as (n' & Hn' & Hpos' & _ & <-).
    by apply Hbest.
Qed.

Lemma a_star_cheapest_witness :
  let cm := default uniform_cost_map None in
  ∃ pth, a_star empty_map (1, 1) (3, 1) [TILE_TYPE_WATER; TILE_TYPE_OBSTACLE] None
           = Ok (Some pth, Fin (path_cost cm pth)) ∧
         walk empty_map [TILE_TYPE_WATER; TILE_TYPE_OBSTACLE] (1, 1) (3, 1) pth ∧
         forall pth', walk empty_map [TILE_TYPE_WATER; TILE_TYPE_OBSTACLE] (1, 1) (3, 1) pth' ->
                      path_cost cm pth <= path_cost cm pth'.
Proof.
  apply (a_star_cheapest empty_map (1, 1) (3, 1) [TILE_TYPE_WATER; TILE_TYPE_OBSTACLE] None).
  - apply wf_gridb_spec. vm_compute. reflexivity.
  - exact I.
  - apply costs_positive_uniform.
  - apply (a_star_reach empty_map (1, 1) (3, 1) [TILE_TYPE_WATER; TILE_TYPE_OBSTACLE] None
             [(1, 1); (2, 1); (3, 1)] (Fin 2)).
    vm_compute. reflexivity.
Defined.

(** X2.  [turns_to_reach] never raises on a grid of the right size.  It is
    [inf] exactly when no walk over cells that are neither obstacle nor
    water leads from the first position to the second, and else the least
    number of moves of such a walk. *)
Theorem turns_to_reach_least (game_map : grid) (p q : pos) :
  wf_grid game_map ->
  ∃ turns, turns_to_reach game_map p q = Ok turns ∧
    match turns with
    | Inf => ¬ reach game_map [1; 4] p q
    | Fin k =>
      (∃ pth, walk game_map [1; 4] p q pth ∧ Z.of_nat (length pth) = k + 1) ∧
      forall pth', walk game_map [1; 4] p q pth' -> k + 1 <= Z.of_nat (length pth')
    end.
Proof.
  intros Hwf. unfold turns_to_reach.
  destruct (a_star_cheapest_out game_map p q [1; 4] None Hwf I
              (costs_positive_uniform _ _))
    as (out & -> & [[-> Hno]|(n & -> & Hn & Hend & Hbest)]); rewrite Ok_bind.
  - by exists Inf.
  - eexists. split; [reflexivity|]. cbn [default from_option id] in *.
    pose proof (from_start_walk _ _ _ _ Hn) as Hwalk. rewrite Hend in Hwalk.
    pose proof (path_cost_uniform _ _ _ _ _ Hwalk) as Hcost.
    rewrite (gcost_path_cost _ _ _ _ _ Hn) in Hcost. split.
    + exists (rev (backtrace n)). split; [done | lia].
    + intros pth' Hpth'. pose proof (path_cost_uniform _ _ _ _ _ Hpth') as Hcost'.
      destruct (walk_node _ _ _ _ uniform_cost_map _ Hpth') as (n' & Hn' & Hpos' & _ & Hg).
      specialize (Hbest n' Hn' Hpos'). lia.
Qed.

Lemma turns_to_reach_least_witness :
  ∃ turns, turns_to_reach enclosed_map (1, 1) (5, 5) = Ok turns ∧
    match turns with
    | Inf => ¬ reach enclosed_map [1; 4] (1, 1) (5, 5)
    | Fin k =>
      (∃ pth, walk enclosed_map [1; 4] (1, 1) (5, 5) pth ∧ Z.of_nat (length pth) = k + 1) ∧
      forall pth', walk enclosed_map [1; 4] (1, 1) (5, 5) pth' ->
                   k + 1 <= Z.of_nat (length pth')
    end.
Proof.
  apply (turns_to_reach_least enclosed_map (1, 1) (5, 5)).
  apply wf_gridb_spec. vm_compute. reflexivity.
Defined.

(** X5.  When the goal is the start, [a_star] returns the path of this one
    cell with the cost 0: whatever the maps are, also for a cell that is
    forbidden or off the grid. *)
Theorem a_star_start_is_goal
    (game_map : grid) (start : pos) (restricted : list Z) (cost_map : option grid) :
  a_star game_map start start restricted cost_map = Ok (Some [start], Fin 0).
Proof.
  unfold a_star. change a_star_fuel with (S 2005). cbn [a_star_loop].
  unfold a_star_step, a_star_init. cbn [nodes].
  change (heapq.heappop entry_ltb [(Fin 0, mkNode start None)])
    with (Some ((Fin 0, mkNode start None), @nil entry)).
  cbn [position]. rewrite bool_decide_eq_true_2 by done. rewrite Ok_bind.
  cbn [g_costs backtrace rev app]. unfold g_get. by rewrite lookup_singleton_eq.
Qed.

(** X4.  [a_star] never raises and always returns on maps of the right size,
    whatever the costs and wherever the start and the goal are: it returns
    no path with the cost [inf], or a path from the start to the goal. *)
Theorem a_star_terminates
    (game_map : grid) (start end_ : pos) (restricted : list Z) (cost_map : option grid) :
  wf_grid game_map -> wf_cost_map cost_map ->
  ∃ out, a_star game_map start end_ restricted cost_map = Ok out ∧
         (out = (None, Inf) ∨
          ∃ pth, out.1 = Some pth ∧ head pth = Some start ∧ last pth = Some end_).
Proof.
  intros Hwf Hcm.
  destruct (a_star_returns game_map start end_ restricted cost_map Hwf Hcm) as [out Hout].
  exists out. split; [done|].
  apply a_star_out in Hout as [->|(n & Hn & Hend & Hpth)]; [by left | right].
  destruct (from_start_path _ _ _ _ Hn) as (rest & E & _ & Hlast & _).
  exists (rev (backtrace n)). rewrite E at 2. rewrite Hend in Hlast. done.
Qed.

Lemma a_star_terminates_witness :
  ∃ out, a_star empty_map (-3, 40) (2, 2) [] (Some empty_map) = Ok out ∧
         (out = (None, Inf) ∨
          ∃ pth, out.1 = Some pth ∧ head pth = Some (-3, 40) ∧ last pth = Some (2, 2)).
Proof.
  apply (a_star_terminates empty_map (-3, 40) (2, 2) [] (Some empty_map)).
  - apply wf_gridb_spec. vm_compute. reflexivity.
  - apply wf_gridb_spec. vm_compute. reflexivity.
Defined.

(** ** No cell twice *)

(** A cell on the chain of a node is reached by a part of the chain, at
    no higher cost. *)
Lemma backtrace_ancestor game_map restricted start cost_map (n : Node) (p : pos) :
  costs_positive game_map restricted cost_map ->
  from_start game_map restricted start n -> p ∈ backtrace n ->
  ∃ a, from_start game_map restricted start a ∧ position a = p ∧
       gcost cost_map a <= gcost cost_map n.
Proof.
  intros Hpos Hn. induction Hn as [|n q Hn IH Hadj Hq]; intros Hp.
  - apply list_elem_of_singleton in Hp as ->.
    exists (mkNode start None). split_and!; [constructor | done | done].
  - change (backtrace (mkNode q (Some n))) with (q :: backtrace n) in Hp.
    apply elem_of_cons in Hp as [->|Hp].
    + exists (mkNode q (Some n)). split_and!; [by constructor | done | done].
    + destruct (IH Hp) as (a & Ha & Hpa & Hle). exists a. split_and!; [done | done |].
      rewrite gcost_child. specialize (Hpos q Hq). lia.
Qed.

(** A walk that comes by a cell twice is not a cheapest one. *)
Lemma backtrace_simple game_map restricted start cost_map (n : Node) :
  costs_positive game_map restricted cost_map ->
  from_start game_map restricted start n ->
  NoDup (backtrace n) ∨
  ∃ n', from_start game_map restricted start n' ∧ position n' = position n ∧
        gcost cost_map n' < gcost cost_map n.
Proof.
  intros Hpos Hn. induction Hn as [|n q Hn IH Hadj Hq].
  - left. apply NoDup_singleton.
  - pose proof (Hpos q Hq) as Hc.
    destruct IH as [Hnd|(n1 & Hn1 & Hp1 & Hlt)].
    + destruct (decide (q ∈ backtrace n)) as [Hin|Hnin].
      * right. destruct (backtrace_ancestor _ _ _ cost_map n q Hpos Hn Hin)
          as (a & Ha & Hpa & Hle).
        exists a. split_and!; [done | done |]. rewrite gcost_child. lia.
      * left. change (backtrace (mkNode q (Some n))) with (q :: backtrace n).
        by constructor.
    + right. exists (mkNode q (Some n1)). split_and!.
      * constructor; [done | by rewrite Hp1 | done].
      * done.
      * rewrite !gcost_child. lia.
Qed.

(** X3.  When every passable cell costs 1 or more, a path that [a_star]
    returns visits no cell twice. *)
Theorem a_star_path_simple
    (game_map : grid) (start end_ : pos) (restricted : list Z) (cost_map : option grid)
    (pth : path) (cost : num) :
  wf_grid game_map -> wf_cost_map cost_map ->
  costs_positive game_map restricted (default uniform_cost_map cost_map) ->
  a_star game_map start end_ restricted cost_map = Ok (Some pth, cost) ->
  NoDup pth.
Proof.
  intros Hwf Hcm Hpos Hstar.
  destruct (a_star_cheapest_out game_map start end_ restricted cost_map Hwf Hcm Hpos)
    as (out & Hout & Hcheap).
  rewrite Hstar in Hout. injection Hout as <-.
  destruct Hcheap as [[[=] _]|(n & [= -> ->] & Hn & Hend & Hbest)].
  apply NoDup_ListNoDup, List.NoDup_rev, NoDup_ListNoDup.
  destruct (backtrace_simple _ _ _ _ n Hpos Hn) as [Hnd|(n' & Hn' & Hp' & Hlt)]; [done|].
  rewrite Hend in Hp'. specialize (Hbest n' Hn' Hp'). lia.
Qed.

Lemma a_star_path_simple_witness : NoDup [(1, 1); (2, 1); (3, 1)].
Proof.
  apply (a_star_path_simple empty_map (1, 1) (3, 1) [TILE_TYPE_WATER; TILE_TYPE_OBSTACLE]
           None [(1, 1); (2, 1); (3, 1)] (Fin 2)).
  - apply wf_gridb_spec. vm_compute. reflexivity.
  - exact I.
  - apply costs_positive_uniform.
  - vm_compute. reflexivity.
Defined.

(** * The choice of a target *)

Section finite.
Context (game_map : grid) (end_ : pos) (restricted : list Z) (cost_map : grid).

Lemma costs_finite_relax (c_node : Node) (cl : gset pos) st m st' :
  costs_finite (mkSearch st.1 cl st.2) ->
  (∃ z, st.2 !! position c_node = Some (Fin z)) ->
  relax game_map end_ restricted cost_map c_node cl st m = Ok st' ->
  costs_finite (mkSearch st'.1 cl st'.2) ∧
  (∃ z, st'.2 !! position c_node = Some (Fin z)).
Proof.
  intros [Hfin Hopen] [zc Hc] Hrelax. apply relax_spec in Hrelax.
  cbn [nodes closed g_costs] in *.
  inversion Hrelax as [Hout|tile p Hin Htile Hskip|tile c p Hin Htile Hfree Hncl Hcost Hlt
                       |tile c p new_g Hin Htile Hfree Hncl Hcost Hlt];
    try subst p; try subst new_g; subst st';
    [split; [by split | by eauto]..|].
  cbn [fst snd]. unfold g_get. rewrite Hc. cbn [default from_option id num_add].
  split; [split; cbn [nodes g_costs]|].
  - intros p v Hp. apply lookup_insert_Some in Hp as [[_ <-]|[_ Hp]]; eauto.
  - intros e He. rewrite heappush_perm in He.
    apply elem_of_cons in He as [->|He].
    + cbn [snd position]. rewrite lookup_insert_eq. eauto.
    + destruct (Hopen e He) as [v Hv].
      destruct (decide (((position c_node).1 + m.1, (position c_node).2 + m.2)
                        = position e.2)) as [E|N].
      * rewrite <- E, lookup_insert_eq. eauto.
      * rewrite lookup_insert_ne by done. eauto.
  - destruct (decide (((position c_node).1 + m.1, (position c_node).2 + m.2)
                      = position c_node)) as [E|N].
    + rewrite E, lookup_insert_eq. eauto.
    + rewrite lookup_insert_ne by done. eauto.
Qed.

Lemma costs_finite_expand (c_node : Node) (cl : gset pos) ms st st' :
  costs_finite (mkSearch st.1 cl st.2) ->
  (∃ z, st.2 !! position c_node = Some (Fin z)) ->
  foldM (relax game_map end_ restricted cost_map c_node cl) st ms = Ok st' ->
  costs_finite (mkSearch st'.1 cl st'.2).
Proof.
  revert st. induction ms as [|m ms IH]; intros st Hfin Hc Hfold; simpl in Hfold.
  - by injection Hfold as <-.
  - res_inv Hfold.
    destruct (costs_finite_relax c_node cl st m a Hfin Hc E) as [Hfin' Hc'].
    by apply (IH a).
Qed.

Lemma costs_finite_step s s' :
  costs_finite s ->
  a_star_step game_map end_ restricted cost_map s = Ok (inl s') ->
  costs_finite s'.
Proof.
  intros [Hfin Hopen] Hstep. apply a_star_step_spec in Hstep.
  inversion Hstep as [| |f c rest Hpop Hend Hcl|f c rest nodes' g' Hpop Hend Hcl Hfold];
    subst.
  - split; cbn [nodes g_costs]; [done|].
    intros e He. apply Hopen. rewrite (heappop_elem_of _ _ _ _ Hpop). by right.
  - apply (costs_finite_expand c ({[position c]} ∪ closed s) cardinal_moves
             (rest, g_costs s) (nodes', g')); [| |done].
    + split; cbn [nodes g_costs fst snd]; [done|].
      intros e He. apply Hopen. rewrite (heappop_elem_of _ _ _ _ Hpop). by right.
    + cbn [snd]. destruct (Hopen (f, c)) as [v Hv].
      { rewrite (heappop_elem_of _ _ _ _ Hpop). by left. }
      cbn [snd] in Hv. destruct (Hfin _ _ Hv) as [z ->]. eauto.
Qed.

Lemma costs_finite_out s pth cost :
  costs_finite s ->
  a_star_step game_map end_ restricted cost_map s = Ok (inr (Some pth, cost)) ->
  ∃ z, cost = Fin z.
Proof.
  intros [Hfin Hopen] Hstep. apply a_star_step_spec in Hstep.
  remember (inr (Some pth, cost)) as r eqn:Er.
  destruct Hstep as [Hnil|f c rest Hpop Hend|f c rest Hpop Hend Hcl
                     |f c rest nodes' g' Hpop Hend Hcl Hfold];
    [discriminate Er | injection Er as _ <- | discriminate Er | discriminate Er].
  destruct (Hopen (f, c)) as [v Hv].
  { rewrite (heappop_elem_of _ _ _ _ Hpop). by left. }
  cbn [snd] in Hv. rewrite Hend in Hv. unfold g_get. rewrite Hv.
  by destruct (Hfin _ _ Hv) as [z ->]; eauto.
Qed.
End finite.

(** The cost that comes with a path is a number. *)
Lemma a_star_cost_finite game_map start end_ restricted cost_map pth cost :
  a_star game_map start end_ restricted cost_map = Ok (Some pth, cost) ->
  ∃ z, cost = Fin z.
Proof.
  unfold a_star. intros H.
  assert (Hinit : costs_finite (a_star_init start)).
  { split; cbn [a_star_init nodes g_costs].
    - intros p v Hp. apply lookup_singleton_Some in Hp as [_ <-]. eauto.
    - intros e He. apply list_elem_of_singleton in He as ->. cbn [snd position].
      rewrite lookup_singleton_eq. eauto. }
  apply (a_star_loop_inv game_map end_ restricted (default uniform_cost_map cost_map)
           costs_finite
           (fun out => forall pth cost, out = (Some pth, cost) -> ∃ z, cost = Fin z)
           (costs_finite_step game_map end_ restricted _)
           (fun s o Hs Hstep pth' cost' Eo =>
              costs_finite_out game_map end_ restricted _ s pth' cost' Hs
                (eq_ind _ (fun o => a_star_step _ _ _ _ s = Ok (inr o)) Hstep _ Eo))
           a_star_fuel (a_star_init start) _ Hinit H pth cost eq_refl).
Qed.

Lemma a_star_nonempty game_map start end_ restricted cost_map cost :
  a_star game_map start end_ restricted cost_map ≠ Ok (Some [], cost).
Proof.
  intros H. apply a_star_out in H as [[=]|(n & Hn & _ & [= Hpth])].
  destruct (from_start_path _ _ _ _ Hn) as (rest & E & _). congruence.
Qed.

(** One target more. *)
Lemma try_target_spec (g : Game) (restricted_tiles : list Z) (cost_map : grid)
    (seen : list pos) (best : best_choice) (t : pos) :
  wf_grid (game_map g) -> wf_grid cost_map ->
  best_so_far g restricted_tiles cost_map seen best ->
  ∃ best', try_target g (agent_pos (agent g)) restricted_tiles cost_map best t = Ok best' ∧
           best_so_far g restricted_tiles cost_map (seen ++ [t]) best'.
Proof.
  intros Hwf Hcm Hbest. unfold try_target.
  destruct (a_star_returns (game_map g) (agent_pos (agent g)) t restricted_tiles
              (Some cost_map) Hwf Hcm) as [[path_res cost] Hstar].
  rewrite Hstar, Ok_bind.
  assert (Hkeep : (forall pth' cost',
      a_star (game_map g) (agent_pos (agent g)) t restricted_tiles (Some cost_map)
        = Ok (Some pth', cost') ->
      forall pth z, best_path best = Some pth -> best_cost best = Fin z ->
                    num_leb (Fin z) cost' = true) ->
    (path_res = None -> True) ->
    (best_path best = None -> path_res = None) ->
    best_so_far g restricted_tiles cost_map (seen ++ [t]) best).
  { intros Hle _ Hnone. unfold best_so_far in *.
    destruct (best_path best) as [pth|] eqn:Hbp.
    - destruct Hbest as (Hne & t0 & z & Ht0 & Hz & Hin & Hs & Hmin).
      split; [done|]. exists t0, z. split_and!; try done.
      split_and!; [apply elem_of_app; by left | done |].
      intros t' pth' cost' Ht'. apply elem_of_app in Ht' as [Ht'|Ht'].
      + by apply Hmin.
      + apply list_elem_of_singleton in Ht' as ->. intros H'. by eapply Hle.
    - destruct Hbest as (Hc & Ht & Hall). split_and!; try done.
      intros t' Ht'. apply elem_of_app in Ht' as [Ht'|Ht']; [by apply Hall|].
      apply list_elem_of_singleton in Ht' as ->.
      rewrite Hstar, Hnone by done. eauto. }
  destruct path_res as [[|c cs]|].
  - by apply a_star_nonempty in Hstar.
  - destruct (a_star_cost_finite _ _ _ _ _ _ _ Hstar) as [z ->].
    destruct (num_ltb (Fin z) (best_cost best)) eqn:Hlt.
    + eexists. split; [reflexivity|]. unfold best_so_far. cbn [best_path best_cost best_target].
      split; [done|]. exists t, z. split_and!; try done.
      split_and!; [apply elem_of_app; right; apply list_elem_of_here | done |].
      intros t' pth' cost' Ht' Hstar'. apply elem_of_app in Ht' as [Ht'|Ht'].
      * unfold best_so_far in Hbest. destruct (best_path best) as [pth|].
        -- destruct Hbest as (_ & t0 & z0 & _ & Hz0 & _ & _ & Hmin).
           rewrite Hz0 in Hlt. apply num_ltb_leb' in Hlt.
           eapply num_leb_trans; [exact Hlt|]. by eapply Hmin.
        -- destruct Hbest as (_ & _ & Hall). destruct (Hall t' Ht') as [c' Hc'].
           congruence.
      * apply list_elem_of_singleton in Ht' as ->.
        rewrite Hstar in Hstar'. injection Hstar' as _ <-. apply num_leb_refl.
    + exists best. split; [done|]. apply Hkeep; [|done|].
      * intros pth' cost' Hstar' pth z0 Hbp Hz0. rewrite Hstar in Hstar'.
        injection Hstar' as _ <-. rewrite Hz0 in Hlt. by apply num_ltb_leb.
      * intros Hbp. unfold best_so_far in Hbest. rewrite Hbp in Hbest.
        destruct Hbest as (Hinf & _). rewrite Hinf in Hlt. done.
  - exists best. split; [done|]. apply Hkeep; [|done|done].
    intros pth' cost' Hstar'. congruence.
Qed.

Lemma try_targets_spec (g : Game) (restricted_tiles : list Z) (cost_map : grid)
    (l seen : list pos) (best : best_choice) :
  wf_grid (game_map g) -> wf_grid cost_map ->
  best_so_far g restricted_tiles cost_map seen best ->
  ∃ best', foldM (try_target g (agent_pos (agent g)) restricted_tiles cost_map) best l
           = Ok best' ∧
           best_so_far g restricted_tiles cost_map (seen ++ l) best'.
Proof.
  intros Hwf Hcm. revert seen best.
  induction l as [|t l IH]; intros seen best Hbest; cbn [foldM].
  - exists best. by rewrite app_nil_r.
  - destruct (try_target_spec g restricted_tiles cost_map seen best t Hwf Hcm Hbest)
      as (best1 & -> & Hbest1).
    rewrite Ok_bind. destruct (IH _ _ Hbest1) as (best' & -> & Hbest').
    exists best'. split; [done|]. by rewrite <- app_assoc in Hbest'.
Qed.

(** X8.  [find_path_to_collectible] with no target leaves everything as it
    is.  With targets, on a grid of the right size, it never raises; it
    keeps the cooldowns and changes nothing of the game but the agent's
    path.  When the search finds a path to a target that is not on
    cooldown, it settles on one to which the path costs least on the
    normal cost map, gives the agent this path and counts one more attempt
    for this target; when it finds none, it clears the path and the
    current target. *)
Theorem find_path_to_collectible_spec (g : Game) (pl : Planner)
    (targets : list pos) (restricted_tiles : list Z) :
  wf_grid (game_map g) ->
  patrols_in_bounds (default [] (dynamic_obstacles g)) ->
  (targets = [] -> find_path_to_collectible g pl targets restricted_tiles = Ok (g, pl)) ∧
  (targets ≠ [] ->
   ∃ cost_map g' pl',
     create_dynamic_cost_map g false = Ok cost_map ∧
     find_path_to_collectible g pl targets restricted_tiles = Ok (g', pl') ∧
     target_cooldown pl' = target_cooldown pl ∧
     g' = set_agent g (set_agent_path (agent g) (agent_path (agent g'))) ∧
     let available := filter (fun t => target_cooldown pl !! t = None) targets in
     match current_target pl' with
     | Some t =>
       ∃ pth cost, chosen g restricted_tiles cost_map available t pth cost ∧
                   agent g' = Agent_set_path (agent g) pth ∧
                   target_attempts pl'
                   = <[t := default 0 (target_attempts pl !! t) + 1]> (target_attempts pl)
     | None =>
       (forall t, t ∈ available ->
          ∃ cost, a_star (game_map g) (agent_pos (agent g)) t restricted_tiles
                    (Some cost_map) = Ok (None, cost)) ∧
       agent_path (agent g') = [] ∧ target_attempts pl' = target_attempts pl
     end).
Proof.
  intros Hwf Hpat. split; [by intros ->|]. intros Hne.
  destruct (create_dynamic_cost_map_cells g false Hwf Hpat) as (cm & Hcm & Hwfcm & _).
  unfold find_path_to_collectible. destruct targets as [|t0 ts]; [done|].
  rewrite Hcm, Ok_bind.
  set (available := filter (fun t => target_cooldown pl !! t = None) (t0 :: ts)).
  destruct (try_targets_spec g restricted_tiles cm available [] (mkBest None Inf None)
              Hwf Hwfcm) as (best & -> & Hbest).
  { unfold best_so_far. cbn [best_path best_cost best_target]. split_and!; try done.
    intros t Ht. by apply elem_of_nil in Ht. }
  rewrite Ok_bind. cbn [app] in Hbest. unfold best_so_far in Hbest.
  exists cm. destruct (best_path best) as [[|c cs]|] eqn:Hbp.
  - by destruct Hbest as [? _].
  - destruct Hbest as (_ & t & z & Ht & Hz & Hchosen). rewrite Ht.
    eexists _, _. split_and!; [done | reflexivity | done | |].
    + unfold Agent_set_path. by case_bool_decide.
    + cbn [current_target target_attempts agent set_agent]. eauto.
  - destruct Hbest as (_ & _ & Hall).
    eexists _, _. split_and!; [done | reflexivity | done | done |].
    cbn [current_target target_attempts agent set_agent]. done.
Qed.

Lemma find_path_to_collectible_spec_witness :
  let g := chased_game in
  let pl := mkPlanner None {[(3, 1) := 25]} ∅ in
  let targets := [(3, 1); (10, 10)] in
  let restricted_tiles := [TILE_TYPE_WATER; TILE_TYPE_OBSTACLE] in
  (targets = [] -> find_path_to_collectible g pl targets restricted_tiles = Ok (g, pl)) ∧
  (targets ≠ [] ->
   ∃ cost_map g' pl',
     create_dynamic_cost_map g false = Ok cost_map ∧
     find_path_to_collectible g pl targets restricted_tiles = Ok (g', pl') ∧
     target_cooldown pl' = target_cooldown pl ∧
     g' = set_agent g (set_agent_path (agent g) (agent_path (agent g'))) ∧
     let available := filter (fun t => target_cooldown pl !! t = None) targets in
     match current_target pl' with
     | Some t =>
       ∃ pth cost, chosen g restricted_tiles cost_map available t pth cost ∧
                   agent g' = Agent_set_path (agent g) pth ∧
                   target_attempts pl'
                   = <[t := default 0 (target_attempts pl !! t) + 1]> (target_attempts pl)
     | None =>
       (forall t, t ∈ available ->
          ∃ cost, a_star (game_map g) (agent_pos (agent g)) t restricted_tiles
                    (Some cost_map) = Ok (None, cost)) ∧
       agent_path (agent g') = [] ∧ target_attempts pl' = target_attempts pl
     end).
Proof.
  apply (find_path_to_collectible_spec chased_game
           (mkPlanner None {[(3, 1) := 25]} ∅) [(3, 1); (10, 10)]
           [TILE_TYPE_WATER; TILE_TYPE_OBSTACLE]).
  - apply wf_gridb_spec. vm_compute. reflexivity.
  - apply patrols_in_boundsb_spec. vm_compute. reflexivity.
Defined.

(** * The planners return *)

Lemma foldM_returns {A S} (f : S -> A -> res S) (l : list A) (s : S) :
  (forall s x, x ∈ l -> ∃ s', f s x = Ok s') -> ∃ s', foldM f s l = Ok s'.
Proof.
  intros Hf.
  destruct (foldM_total f (fun _ => True) l s) as (s' & Hs' & _); [|done|eauto].
  intros s0 x Hx _. destruct (Hf s0 x Hx) as [s' ->]. eauto.
Qed.

Lemma escape_candidates_returns (g : Game) (p : pos) :
  wf_grid (game_map g) -> ∃ cands, escape_candidates g p = Ok cands.
Proof.
  intros Hwf. unfold escape_candidates. apply foldM_returns. intros acc r _.
  unfold escape_ring. apply foldM_returns. intros acc1 i _.
  apply foldM_returns. intros acc2 j _. cbv beta.
  destruct (_ && _) eqn:Hcond; [|eauto].
  apply andb_prop in Hcond as [_ Hin].
  rewrite grid_get_cell by done. rewrite Ok_bind. eauto.
Qed.

Lemma escape_eval_returns (g : Game) (p : pos) (cost_map : grid)
    (threats dynamic_obstacles : list Obstacle) (best : option path * real) (spot : pos) :
  wf_grid (game_map g) -> wf_grid cost_map -> threats ≠ [] ->
  ∃ best', escape_eval g p cost_map threats dynamic_obstacles best spot = Ok best'.
Proof.
  intros Hwf Hcm Hne. unfold escape_eval.
  destruct (occupied dynamic_obstacles spot); [eauto|].
  destruct (a_star_returns (game_map g) p spot [TILE_TYPE_WATER; TILE_TYPE_OBSTACLE]
              (Some cost_map) Hwf Hcm) as [[path_res cost] ->].
  rewrite Ok_bind. destruct path_res as [[|c cs]|]; [eauto| |eauto].
  destruct (negb _); [|eauto].
  destruct (min_turns_returns (game_map g) threats spot Hwf Hne) as [m ->].
  rewrite Ok_bind. eauto.
Qed.

Lemma brave_loop_returns (g : Game) (agent_p : pos) (aggressive : list Obstacle)
    (targets : list pos) :
  wf_grid (game_map g) -> patrols_in_bounds (default [] (dynamic_obstacles g)) ->
  aggressive ≠ [] ->
  ∃ r, brave_loop g agent_p aggressive targets = Ok r.
Proof.
  intros Hwf Hpat Hne. induction targets as [|target rest IH]; cbn [brave_loop]; [eauto|].
  destruct (is_dead_end_returns g target.1 target.2 Hwf) as [dead ->]. rewrite Ok_bind.
  destruct dead; [done|].
  destruct (turns_to_reach_returns (game_map g) agent_p target Hwf) as [steps ->].
  rewrite Ok_bind. destruct (num_eqb steps Inf); [done|].
  destruct (min_turns_returns (game_map g) aggressive target Hwf Hne) as [m ->].
  rewrite Ok_bind. destruct (num_ltb _ _); [|done].
  destruct (create_dynamic_cost_map_cells g true Hwf Hpat) as (cm & -> & Hcm & _).
  rewrite Ok_bind.
  destruct (a_star_returns (game_map g) agent_p target [TILE_TYPE_WATER; TILE_TYPE_OBSTACLE]
              (Some cm) Hwf Hcm) as [[path_res cost] ->].
  rewrite Ok_bind. destruct path_res as [[|c cs]|]; eauto.
Qed.

(** A loop raises when one turn raises and the turns before it return. *)
Lemma foldM_raises {A S} (f : S -> A -> res S) (e : exn) (l : list A) (x : A) (s : S) :
  x ∈ l ->
  (forall s, f s x = Raise e) ->
  (forall s y, y ∈ l -> (∃ s', f s y = Ok s') ∨ f s y = Raise e) ->
  foldM f s l = Raise e.
Proof.
  revert s. induction l as [|y l IH]; intros s Hx Hraise Hall; [by apply elem_of_nil in Hx|].
  cbn [foldM].
  destruct (Hall s y) as [[s' Hs']|Hr]; [apply list_elem_of_here | | by rewrite Hr].
  rewrite Hs', Ok_bind.
  apply elem_of_cons in Hx as [->|Hx]; [by rewrite Hraise in Hs'|].
  apply IH; [done | done |]. intros s0 z Hz. apply Hall. by apply list_elem_of_further.
Qed.

(** X15.  The two planners never raise when they are called as
    [update_ground] calls them: on a grid of the right size with the patrol
    enemies on it, [find_brave_path] returns when the game has its list of
    collectibles, and [find_escape_path] returns when the list of threats
    is not empty. *)
Theorem planners_return (g : Game) (threats enemies : list Obstacle) :
  wf_grid (game_map g) ->
  patrols_in_bounds (default [] (dynamic_obstacles g)) ->
  (is_Some (collectibles g) -> ∃ r, find_brave_path g threats = Ok r) ∧
  (threats ≠ [] -> ∃ r, find_escape_path g threats enemies = Ok r).
Proof.
  intros Hwf Hpat. split.
  - intros [cs Hcs]. unfold find_brave_path.
    destruct (filter _ threats) as [|t ts] eqn:Hf; [eauto|].
    rewrite Hcs. cbn [attr]. rewrite Ok_bind.
    by apply brave_loop_returns.
  - intros Hne. unfold find_escape_path.
    destruct (create_dynamic_cost_map_cells g true Hwf Hpat) as (cm & -> & Hcm & _).
    rewrite Ok_bind.
    destruct (escape_candidates_returns g (agent_pos (agent g)) Hwf) as [cands ->].
    rewrite Ok_bind.
    destruct (foldM_returns
                (escape_eval g (agent_pos (agent g)) cm threats enemies)
                cands (None, NegInf)) as [best ->]; [|rewrite Ok_bind; eauto].
    intros best spot _. by apply escape_eval_returns.
Qed.

Lemma planners_return_witness :
  let g := chased_game in
  let threats := [AggressiveObstacle 6 1 6 attack] in
  let enemies := [AggressiveObstacle 6 1 6 attack; PatrolObstacle 20 15] in
  (is_Some (collectibles g) -> ∃ r, find_brave_path g threats = Ok r) ∧
  (threats ≠ [] -> ∃ r, find_escape_path g threats enemies = Ok r).
Proof.
  apply (planners_return chased_game [AggressiveObstacle 6 1 6 attack]
           [AggressiveObstacle 6 1 6 attack; PatrolObstacle 20 15]).
  - apply wf_gridb_spec. vm_compute. reflexivity.
  - apply patrols_in_boundsb_spec. vm_compute. reflexivity.
Defined.

(** X16.  With an empty list of threats [find_escape_path] raises the
    [ValueError] of [min] of an empty sequence, as soon as one of its
    candidate spots is free of enemies and has a path free of enemies. *)
Theorem find_escape_path_no_threat (g : Game) (enemies : list Obstacle)
    (cost_map : grid) (cands : list pos) (spot : pos) (pth : path) (cost : num) :
  wf_grid (game_map g) ->
  create_dynamic_cost_map g true = Ok cost_map -> wf_grid cost_map ->
  escape_candidates g (agent_pos (agent g)) = Ok cands ->
  spot ∈ cands ->
  occupied enemies spot = false ->
  a_star (game_map g) (agent_pos (agent g)) spot
         [TILE_TYPE_WATER; TILE_TYPE_OBSTACLE] (Some cost_map) = Ok (Some pth, cost) ->
  existsb (occupied enemies) pth = false ->
  find_escape_path g [] enemies = Raise ValueError.
Proof.
  intros Hwf Hcm Hwfcm Hcands Hspot Hocc Hstar Hfree.
  unfold find_escape_path. rewrite Hcm, Ok_bind, Hcands, Ok_bind.
  rewrite (foldM_raises _ ValueError cands spot); [done | done | |].
  - intros best. unfold escape_eval. rewrite Hocc, Hstar, Ok_bind.
    destruct pth as [|c cs]; [by apply a_star_nonempty in Hstar|].
    by rewrite Hfree.
  - intros best y _. unfold escape_eval.
    destruct (occupied enemies y); [eauto|].
    destruct (a_star_returns (game_map g) (agent_pos (agent g)) y
                [TILE_TYPE_WATER; TILE_TYPE_OBSTACLE] (Some cost_map) Hwf Hwfcm)
      as [[path_res c0] ->].
    rewrite Ok_bind. destruct path_res as [[|c cs]|]; [eauto| |eauto].
    destruct (negb _); [by right | eauto].
Qed.

Lemma find_escape_path_no_threat_witness :
  find_escape_path chased_game [] [AggressiveObstacle 6 1 6 attack; PatrolObstacle 20 15]
  = Raise ValueError.
Proof.
  eapply (find_escape_path_no_threat chased_game
            [AggressiveObstacle 6 1 6 attack; PatrolObstacle 20 15] _ _ (1, 3)
            [(1, 1); (1, 2); (1, 3)]).
  - apply wf_gridb_spec. vm_compute. reflexivity.
  - vm_compute. reflexivity.
  - apply wf_gridb_spec. vm_compute. reflexivity.
  - vm_compute. reflexivity.
  - refine (bool_decide_unpack _ _). vm_compute. exact I.
  - reflexivity.
  - vm_compute. reflexivity.
  - reflexivity.
Defined.
